(** * Eviction engines of cache_algos: SIEVE, LRU-K, 2Q and O(1)-LFU

    The Go sources are embedded as functions over an explicit store:
    every [*Node] is an address into a finite map of cells, every Go
    [map] is a [gmap], and every method is a computation in a small
    state-and-panic monad, so that nil dereferences, explicit [panic]
    calls and aliasing between the hash index and the intrusive lists are
    all visible in the model. *)

From stdpp Require Import gmap strings list fin_maps.

Open Scope Z_scope.

(** ** Go runtime: state, panics and bounded loops *)

Module Go.

(** A call either returns a value in a new state, panics (the state at
    the moment of the panic is kept, as a deferred [recover] would see
    it), or exhausts the fuel given to a [for] loop of the model. *)
Inductive outcome (S A : Type) : Type :=
| Returned (a : A) (s : S)
| Panicked (msg : string) (s : S)
| OutOfFuel.

Arguments Returned {S A} a s.
Arguments Panicked {S A} msg s.
Arguments OutOfFuel {S A}.

Record M (S A : Type) : Type := Run { run : S → outcome S A }.

Arguments Run {S A} _.
Arguments run {S A} _ _.

Definition ret {S A} (a : A) : M S A := Run (λ s, Returned a s).

Definition bind {S A B} (m : M S A) (k : A → M S B) : M S B :=
  Run (λ s, match run m s with
            | Returned a s' => run (k a) s'
            | Panicked msg s' => Panicked msg s'
            | OutOfFuel => OutOfFuel
            end).

Definition panic {S A} (msg : string) : M S A := Run (λ s, Panicked msg s).

Definition out_of_fuel {S A} : M S A := Run (λ _, OutOfFuel).

Definition gets {S A} (f : S → A) : M S A := Run (λ s, Returned (f s) s).

Definition modify {S} (f : S → S) : M S unit := Run (λ s, Returned tt (f s)).

(** The message of the Go runtime error raised by [p.f] when [p] is nil. *)
Definition nil_deref : string := "invalid memory address or nil pointer dereference".

(** A pointer is nil or an address of the store. *)
Definition ptr : Type := option nat.

Definition is_nil (p : ptr) : bool :=
  match p with None => true | Some _ => false end.

(** Go's [len] on a map. *)
Definition len {C} `{Size C} (m : C) : Z := Z.of_nat (size m).

Definition returns {S A} (o : outcome S A) : bool :=
  match o with Returned _ _ => true | _ => false end.

Definition panics {S A} (o : outcome S A) : bool :=
  match o with Panicked _ _ => true | _ => false end.

Definition state_of {S A} (o : outcome S A) : option S :=
  match o with
  | Returned _ s => Some s
  | Panicked _ s => Some s
  | OutOfFuel => None
  end.

End Go.

Export Go.

#[global] Instance go_mret {S} : MRet (M S) := λ A a, ret a.
#[global] Instance go_mbind {S} : MBind (M S) := λ A B k m, bind m k.

(** ** SIEVE (sieve/sieve_go/sieve.go) *)

Module Sieve.

Section Model.

Context {K : Type} `{Countable K}.
Context {V : Type}.
(** Go's zero value of the key type and the nil value of [any]. *)
Variable zeroK : K.
Variable nilV : V.

Record Node : Type := mkNode {
  key : K;
  end_identifier : Z;
  next : ptr;
  prev : ptr;
  value : V;
  visited : bool
}.

Definition set_key (k : K) (n : Node) : Node :=
  mkNode k (end_identifier n) (next n) (prev n) (value n) (visited n).
Definition set_next (p : ptr) (n : Node) : Node :=
  mkNode (key n) (end_identifier n) p (prev n) (value n) (visited n).
Definition set_prev (p : ptr) (n : Node) : Node :=
  mkNode (key n) (end_identifier n) (next n) p (value n) (visited n).
Definition set_visited (b : bool) (n : Node) : Node :=
  mkNode (key n) (end_identifier n) (next n) (prev n) (value n) b.

Record FIFOQueue : Type := mkFIFOQueue {
  head : ptr;
  tail : ptr
}.

(** [mem] holds every node allocated so far; the other fields are the
    fields of the Go struct. *)
Record Sieve : Type := mkSieve {
  hand : ptr;
  Capacity : Z;
  Nodes : gmap K nat;
  FifoQueue : FIFOQueue;
  mem : gmap nat Node
}.

Definition with_mem (f : gmap nat Node → gmap nat Node) (s : Sieve) : Sieve :=
  mkSieve (hand s) (Capacity s) (Nodes s) (FifoQueue s) (f (mem s)).
Definition with_hand (p : ptr) (s : Sieve) : Sieve :=
  mkSieve p (Capacity s) (Nodes s) (FifoQueue s) (mem s).
Definition with_Nodes (f : gmap K nat → gmap K nat) (s : Sieve) : Sieve :=
  mkSieve (hand s) (Capacity s) (f (Nodes s)) (FifoQueue s) (mem s).

(** Reading through a pointer: [p.f] panics when [p] is nil. *)
Definition load (p : ptr) : M Sieve Node :=
  Run (λ s, match p with
            | None => Panicked nil_deref s
            | Some a => match mem s !! a with
                        | Some n => Returned n s
                        | None => Panicked nil_deref s
                        end
            end).

(** Writing a field through a pointer: [p.f = v]. *)
Definition update (p : ptr) (f : Node → Node) : M Sieve unit :=
  n ← load p;
  match p with
  | Some a => modify (with_mem (<[a := f n]>))
  | None => panic nil_deref
  end.

(** [&Node{...}]: a cell at an address not used so far. *)
Definition alloc (n : Node) : M Sieve ptr :=
  Run (λ s, let a := fresh (dom (mem s)) in
            Returned (Some a) (with_mem (<[a := n]>) s)).

Definition NewNode (v : V) : M Sieve ptr :=
  alloc (mkNode zeroK 0 None None v false).

Definition NewSieve (cap : Z) : outcome Sieve Sieve :=
  let s0 := mkSieve None cap ∅ (mkFIFOQueue None None) ∅ in
  if cap <=? 0 then Panicked "capacity has to be greater than 0" s0
  else
    (* NewFifoQueue *)
    let hd := mkNode zeroK 1 None None nilV false in
    let tl := mkNode zeroK (-1) None None nilV false in
    let h := 0%nat in
    let t := 1%nat in
    let hd := set_next (Some t) hd in
    let tl := set_prev (Some h) tl in
    let s := mkSieve None cap ∅ (mkFIFOQueue (Some h) (Some t))
                     (<[t := tl]> (<[h := hd]> ∅)) in
    Returned s s.

Definition IsEmpty (s : Sieve) : bool := len (Nodes s) =? 0.

Definition getHand : M Sieve ptr := gets hand.

Definition Get (k : K) : M Sieve bool :=
  nodes ← gets Nodes;
  match nodes !! k with
  | None => mret false
  | Some a =>
      update (Some a) (set_visited true);;
      mret true
  end.

Definition getHead : M Sieve ptr :=
  hd ← gets (λ s, head (FifoQueue s));
  n ← load hd;
  if negb (end_identifier n =? 1) then panic "head is not initialized properly"
  else mret hd.

Definition getTail : M Sieve ptr :=
  tl ← gets (λ s, tail (FifoQueue s));
  n ← load tl;
  if negb (end_identifier n =? -1) then panic "tail is not initialized properly"
  else mret tl.

Definition deleteNode (node : ptr) : M Sieve unit :=
  n ← load node;
  if (end_identifier n =? -1) || (end_identifier n =? 1) then mret tt
  else if is_nil (next n) || is_nil (prev n) then mret tt
  else
    let prev_ := prev n in
    let next_ := next n in
    update prev_ (set_next next_);;
    update next_ (set_prev prev_).

Definition insertNode (v : V) (prev_ next_ : ptr) : M Sieve ptr :=
  curr ← NewNode v;
  update curr (set_next next_);;
  update next_ (set_prev curr);;
  update prev_ (set_next curr);;
  update curr (set_prev prev_);;
  mret curr.

(** The loop [for hand.visited { ... }] of [Insert]; one unit of fuel per
    iteration. *)
Fixpoint sweep (fuel : nat) (hand_ : ptr) : M Sieve ptr :=
  n ← load hand_;
  if visited n then
    match fuel with
    | O => out_of_fuel
    | S fuel' =>
        update hand_ (set_visited false);;
        let hand1 := prev n in
        n1 ← load hand1;
        if end_identifier n1 =? 1 then
          tl ← getTail;
          nt ← load tl;
          sweep fuel' (prev nt)
        else sweep fuel' hand1
    end
  else mret hand_.

Definition evict (fuel : nat) : M Sieve unit :=
  hand0 ← getHand;
  hand1 ← match hand0 with
          | None => getTail
          | Some _ =>
              n ← load hand0;
              if end_identifier n =? 1 then getTail else mret hand0
          end;
  n1 ← load hand1;
  hand2 ← sweep fuel (prev n1);
  n2 ← load hand2;
  let hand3 := prev n2 in
  modify (with_hand hand3);;
  n3 ← load hand3;
  let nodeToBeDeleted := next n3 in
  deleteNode nodeToBeDeleted;;
  nd ← load nodeToBeDeleted;
  modify (with_Nodes (delete (key nd))).

Definition Insert (fuel : nat) (k : K) (data : V) : M Sieve unit :=
  s ← gets id;
  (if len (Nodes s) =? Capacity s then evict fuel else mret tt);;
  hd ← getHead;
  nh ← load hd;
  currNode ← insertNode data hd (next nh);
  update currNode (set_key k);;
  match currNode with
  | Some a => modify (with_Nodes (<[k := a]>))
  | None => panic nil_deref
  end;;
  update currNode (set_visited false).

(** The live nodes from [HEAD] to [TAIL], read off the [next] pointers. *)
Fixpoint walk (fuel : nat) (m : gmap nat Node) (p : ptr) : list nat :=
  match fuel, p with
  | S fuel', Some a =>
      match m !! a with
      | Some n => if end_identifier n =? 0 then a :: walk fuel' m (next n)
                  else walk fuel' m (next n)
      | None => []
      end
  | _, _ => []
  end.

Definition live (s : Sieve) : list nat :=
  walk (S (size (mem s))) (mem s) (head (FifoQueue s)).

Definition key_at (s : Sieve) (a : nat) : option K := key <$> mem s !! a.
Definition visited_at (s : Sieve) (a : nat) : option bool := visited <$> mem s !! a.

End Model.

End Sieve.

(** ** LRU-K (package lrukgo, the version with [Cleanup]) *)

Module LRUK.

(** [int64] arithmetic wraps around. *)
Definition wrap64 (z : Z) : Z := (z + 2 ^ 63) `mod` 2 ^ 64 - 2 ^ 63.
Definition sub64 (a b : Z) : Z := wrap64 (a - b).
Definition add64 (a b : Z) : Z := wrap64 (a + b).

Definition bytes : Type := list Byte.byte.

Section Model.

Context {T : Type} `{Countable T}.
(** Go's zero value of the key type. *)
Variable zeroT : T.
(** The order in which [for page := range lru.Buffer] meets the keys; Go
    leaves it unspecified. *)
Variable range_order : gmap T bytes → list T.

(** [Mu] and [CleanupInterval] are left out: every method below is one
    critical section, and the interval only sets how long the sweeper
    sleeps between two passes. *)
Record LRU_K : Type := mkLRU_K {
  K : Z;
  HIST : gmap T (list Z);
  LAST : gmap T Z;
  CRP : Z;
  RIP : Z;
  Buffer : gmap T bytes;
  Cap : Z
}.

Definition with_HIST (f : gmap T (list Z) → gmap T (list Z)) (s : LRU_K) : LRU_K :=
  mkLRU_K (K s) (f (HIST s)) (LAST s) (CRP s) (RIP s) (Buffer s) (Cap s).
Definition with_LAST (f : gmap T Z → gmap T Z) (s : LRU_K) : LRU_K :=
  mkLRU_K (K s) (HIST s) (f (LAST s)) (CRP s) (RIP s) (Buffer s) (Cap s).
Definition with_Buffer (f : gmap T bytes → gmap T bytes) (s : LRU_K) : LRU_K :=
  mkLRU_K (K s) (HIST s) (LAST s) (CRP s) (RIP s) (f (Buffer s)) (Cap s).
Definition with_RIP (r : Z) (s : LRU_K) : LRU_K :=
  mkLRU_K (K s) (HIST s) (LAST s) (CRP s) r (Buffer s) (Cap s).

Definition index_out_of_range : string := "index out of range".

Definition last_get (key : T) : M LRU_K Z :=
  l ← gets LAST;
  match l !! key with
  | None => panic "key not present"
  | Some t => mret t
  end.

Definition last_set (key : T) (time : Z) : M LRU_K unit :=
  modify (with_LAST (<[key := time]>)).

Definition last_delete (key : T) : M LRU_K unit :=
  modify (with_LAST (delete key)).

Definition hist_delete (key : T) : M LRU_K unit :=
  modify (with_HIST (delete key)).

Definition hist_get (key : T) (index : Z) : M LRU_K Z :=
  h ← gets HIST;
  match h !! key with
  | None => panic "key not present"
  | Some reference_times =>
      if index <? 0 then panic index_out_of_range
      else match reference_times !! Z.to_nat index with
           | Some t => mret t
           | None => panic index_out_of_range
           end
  end.

Definition hist_init (key : T) (k : Z) : M LRU_K unit :=
  if k <? 0 then panic "makeslice: len out of range"
  else modify (with_HIST (<[key := replicate (Z.to_nat k) 0]>)).

Definition hist_exists (key : T) : M LRU_K bool :=
  h ← gets HIST;
  mret (bool_decide (is_Some (h !! key))).

Definition hist_set (key : T) (index : Z) (time : Z) : M LRU_K unit :=
  h ← gets HIST;
  match h !! key with
  | None => panic "key not present"
  | Some reference_times =>
      if (index <? 0) || (Z.of_nat (length reference_times) <=? index)
      then panic index_out_of_range
      else modify (with_HIST (<[key := <[Z.to_nat index := time]> reference_times]>))
  end.

(** One iteration of the loop of [FindVictim]; [acc] is [(min, victim)]. *)
Definition FindVictim_step (t : Z) (acc : Z * T) (page : T) : M LRU_K (Z * T) :=
  time_of_last_reference ← last_get page;
  crp ← gets CRP;
  k ← gets K;
  if sub64 t time_of_last_reference >? crp then
    h ← hist_get page (k - 1);
    if h <? acc.1 then
      h' ← hist_get page (k - 1);
      mret (h', page)
    else mret acc
  else mret acc.

Fixpoint FindVictim_loop (t : Z) (acc : Z * T) (pages : list T) : M LRU_K (Z * T) :=
  match pages with
  | [] => mret acc
  | page :: rest =>
      acc' ← FindVictim_step t acc page;
      FindVictim_loop t acc' rest
  end.

Definition FindVictim (t : Z) : M LRU_K T :=
  buf ← gets Buffer;
  acc ← FindVictim_loop t (t, zeroT) (range_order buf);
  mret acc.2.

Definition NewLRU (k cap crp : Z) : LRU_K :=
  mkLRU_K k ∅ ∅ crp 0 ∅ cap.

Definition Get (key : T) : M LRU_K (option bytes) :=
  buf ← gets Buffer;
  mret (buf !! key).

Definition Cleanup (key : T) : M LRU_K unit :=
  modify (with_Buffer (delete key));;
  hist_delete key;;
  last_delete key.

(** One pass of the sweeper, between two sleeps of [StartCleanup]; the
    [Cleanup] goroutines it starts are run at once, one after the other. *)
Fixpoint StartCleanup_loop (pages : list T) : M LRU_K unit :=
  match pages with
  | [] => mret tt
  | page :: rest =>
      k ← gets K;
      backward_K_Distance ← hist_get page (k - 1);
      rip ← gets RIP;
      (if backward_K_Distance >? rip then Cleanup page else mret tt);;
      StartCleanup_loop rest
  end.

Definition StartCleanup_pass : M LRU_K unit :=
  buf ← gets Buffer;
  StartCleanup_loop (range_order buf).

(** The body of the loop of [StartCleanup] for one [page], between
    [Lock] and the comparison: whether [go lru.Cleanup(page)] is
    started. *)
Definition StartCleanup_inspect (page : T) : M LRU_K bool :=
  k ← gets K;
  backward_K_Distance ← hist_get page (k - 1);
  rip ← gets RIP;
  mret (backward_K_Distance >? rip).

(** A pass of the sweeper together with the goroutines it has started:
    the keys [range] has still to give, the [Cleanup] goroutines started
    and not yet run, and the cache. *)
Record sweep : Type := mkSweep {
  todo : list T;
  started : list T;
  cache : LRU_K
}.

(** What the scheduler lets happen next: the loop inspects its next key,
    or the [i]-th waiting goroutine takes the mutex and runs
    [Cleanup]. *)
Inductive sweep_action : Type :=
| Inspect
| Goroutine (i : nat).

Inductive sweep_result : Type :=
| Next (c : sweep)
| Aborted (msg : string)
| NotEnabled.

(** One step. [range] does not give a key that has been deleted before
    it is reached; a goroutine runs as one critical section. *)
Definition sweep_act (a : sweep_action) (c : sweep) : sweep_result :=
  match a with
  | Inspect =>
      match todo c with
      | [] => NotEnabled
      | page :: rest =>
          match Buffer (cache c) !! page with
          | None => Next (mkSweep rest (started c) (cache c))
          | Some _ =>
              match run (StartCleanup_inspect page) (cache c) with
              | Returned b s' =>
                  Next (mkSweep rest (if b then started c ++ [page] else started c) s')
              | Panicked msg _ => Aborted msg
              | OutOfFuel => NotEnabled
              end
          end
      end
  | Goroutine i =>
      match started c !! i with
      | None => NotEnabled
      | Some key =>
          match run (Cleanup key) (cache c) with
          | Returned _ s' => Next (mkSweep (todo c) (delete i (started c)) s')
          | Panicked msg _ => Aborted msg
          | OutOfFuel => NotEnabled
          end
      end
  end.

(** The steps of a schedule, one after the other. *)
Fixpoint sweep_run (sched : list sweep_action) (c : sweep) : sweep_result :=
  match sched with
  | [] => Next c
  | a :: sched' =>
      match sweep_act a c with
      | Next c' => sweep_run sched' c'
      | r => r
      end
  end.

(** The pass starts with the keys [range] gives for the buffer and no
    goroutine. *)
Definition sweep_start (s : LRU_K) : sweep :=
  mkSweep (range_order (Buffer s)) [] s.

(** [for i := from; i < K; i++ { body }], given the number of iterations
    left. *)
Fixpoint for_loop (n : nat) (i : Z) (body : Z → M LRU_K unit) : M LRU_K unit :=
  match n with
  | O => mret tt
  | S n' => body i;; for_loop n' (i + 1) body
  end.

(** [Set]; [t] is the value of [time.Now().Unix()] read by the call. *)
Definition Set_ (t : Z) (key : T) (data : bytes) : M LRU_K bool :=
  buf ← gets Buffer;
  k ← gets K;
  (match buf !! key with
   | Some _ =>
       time_of_last_reference ← last_get key;
       crp ← gets CRP;
       (if sub64 t time_of_last_reference >? crp then
          l ← last_get key;
          h0 ← hist_get key 0;
          let correl_period_of_refd_page := sub64 l h0 in
          for_loop (Z.to_nat (k - 1)) 1 (λ i,
            prev_reference_time ← hist_get key (i - 1);
            hist_set key i (add64 prev_reference_time correl_period_of_refd_page));;
          hist_set key 0 t;;
          last_set key t
        else last_set key t);;
       modify (with_Buffer (<[key := data]>))
   | None =>
       cap ← gets Cap;
       if len buf <? cap then
         modify (with_Buffer (<[key := data]>));;
         last_set key t;;
         hist_init key k;;
         hist_set key 0 t
       else if len buf >=? cap then
         victim ← FindVictim t;
         modify (with_Buffer (delete victim));;
         last_delete victim;;
         modify (with_Buffer (<[key := data]>));;
         ex ← hist_exists key;
         (if negb ex then hist_init key k
          else for_loop (Z.to_nat (k - 1)) 1 (λ i,
                 prev_reference_time ← hist_get key (i - 1);
                 hist_set key i prev_reference_time));;
         hist_set key 0 t;;
         last_set key t
       else mret tt
   end);;
  mret true.

End Model.

End LRUK.

(** ** 2Q (package qgo) *)

Module TwoQ.

Section Model.

Context {T : Type} `{Countable T}.
Context {V : Type}.
(** Go's zero value of the key type. *)
Variable zeroT : T.

(** [PageBuffer] maps a key to a [*Page]; a page is never written after
    it is built, so the map holds the page itself and a missing key reads
    as the nil pointer [None]. *)
Record Page : Type := mkPage {
  data : V;
  queueType : string
}.

Record Node : Type := mkNode {
  key : T;
  end_identifier : Z;
  prev : ptr;
  next : ptr
}.

Definition set_prev (p : ptr) (n : Node) : Node :=
  mkNode (key n) (end_identifier n) p (next n).
Definition set_next (p : ptr) (n : Node) : Node :=
  mkNode (key n) (end_identifier n) (prev n) p.

(** [FIFO] and [LRU] have the same three fields. *)
Record Queue : Type := mkQueue {
  Nodes : gmap T nat;
  Tail : ptr;
  Head : ptr
}.

Definition with_QNodes (f : gmap T nat → gmap T nat) (q : Queue) : Queue :=
  mkQueue (f (Nodes q)) (Tail q) (Head q).

(** [mem] holds the nodes of the three lists. The queues are held by
    value: the model starts where a caller has put the three queues and
    every map in place (see [NewTwoQ_initialised]). *)
Record TwoQ : Type := mkTwoQ {
  K_In : Z;
  K_Out : Z;
  PageBuffer : gmap T Page;
  Capacity : Z;
  A1in : Queue;
  Am : Queue;
  A1out : Queue;
  mem : gmap nat Node
}.

Definition with_mem (f : gmap nat Node → gmap nat Node) (s : TwoQ) : TwoQ :=
  mkTwoQ (K_In s) (K_Out s) (PageBuffer s) (Capacity s) (A1in s) (Am s) (A1out s) (f (mem s)).
Definition with_PageBuffer (f : gmap T Page → gmap T Page) (s : TwoQ) : TwoQ :=
  mkTwoQ (K_In s) (K_Out s) (f (PageBuffer s)) (Capacity s) (A1in s) (Am s) (A1out s) (mem s).
Definition with_A1in (f : Queue → Queue) (s : TwoQ) : TwoQ :=
  mkTwoQ (K_In s) (K_Out s) (PageBuffer s) (Capacity s) (f (A1in s)) (Am s) (A1out s) (mem s).
Definition with_Am (f : Queue → Queue) (s : TwoQ) : TwoQ :=
  mkTwoQ (K_In s) (K_Out s) (PageBuffer s) (Capacity s) (A1in s) (f (Am s)) (A1out s) (mem s).
Definition with_A1out (f : Queue → Queue) (s : TwoQ) : TwoQ :=
  mkTwoQ (K_In s) (K_Out s) (PageBuffer s) (Capacity s) (A1in s) (Am s) (f (A1out s)) (mem s).

(** The receiver of a [FIFO] method: [twoQ.A1in] or [twoQ.A1out]. *)
Inductive fifo_ref : Type := RefA1in | RefA1out.

Definition fifo_of (r : fifo_ref) (s : TwoQ) : Queue :=
  match r with RefA1in => A1in s | RefA1out => A1out s end.
Definition with_fifo (r : fifo_ref) (f : Queue → Queue) (s : TwoQ) : TwoQ :=
  match r with RefA1in => with_A1in f s | RefA1out => with_A1out f s end.

Definition load (p : ptr) : M TwoQ Node :=
  Run (λ s, match p with
            | None => Panicked nil_deref s
            | Some a => match mem s !! a with
                        | Some n => Returned n s
                        | None => Panicked nil_deref s
                        end
            end).

Definition update (p : ptr) (f : Node → Node) : M TwoQ unit :=
  n ← load p;
  match p with
  | Some a => modify (with_mem (<[a := f n]>))
  | None => panic nil_deref
  end.

Definition alloc (n : Node) : M TwoQ ptr :=
  Run (λ s, let a := fresh (dom (mem s)) in
            Returned (Some a) (with_mem (<[a := n]>) s)).

Definition DeleteNode (node : ptr) : M TwoQ unit :=
  n ← load node;
  let next_ := next n in
  let prev_ := prev n in
  update prev_ (set_next next_);;
  update next_ (set_prev prev_).

Definition NewNode (k : T) (prev_ next_ : ptr) : M TwoQ ptr :=
  node ← alloc (mkNode k 0 prev_ next_);
  update prev_ (set_next node);;
  update next_ (set_prev node);;
  mret node.

(** [NewFIFO] and [NewLRU] (the same code), followed by the caller's
    [Nodes = make(...)]. *)
Definition NewQueue : M TwoQ Queue :=
  tail ← alloc (mkNode zeroT (-1) None None);
  head ← alloc (mkNode zeroT 1 None None);
  update head (set_next tail);;
  update tail (set_prev head);;
  mret (mkQueue ∅ tail head).

Definition fifo_isPresent (r : fifo_ref) (k : T) : M TwoQ bool :=
  q ← gets (fifo_of r);
  mret (bool_decide (is_Some (Nodes q !! k))).

Definition fifo_add (r : fifo_ref) (k : T) : M TwoQ ptr :=
  head ← gets (λ s, Head (fifo_of r s));
  nh ← load head;
  if negb (end_identifier nh =? 1) then panic "this has to be head"
  else
    let next_to_head := next nh in
    newNode ← NewNode k head next_to_head;
    match newNode with
    | Some a => modify (with_fifo r (with_QNodes (<[k := a]>)))
    | None => panic nil_deref
    end;;
    mret newNode.

Definition fifo_evict (r : fifo_ref) : M TwoQ (T * bool) :=
  let defaultValue := zeroT in
  tail ← gets (λ s, Tail (fifo_of r s));
  nt ← load tail;
  if negb (end_identifier nt =? -1) then panic "tail is not initialized properly"
  else
    let prev_ := prev nt in
    np ← load prev_;
    if end_identifier np =? 1 then mret (defaultValue, false)
    else
      DeleteNode prev_;;
      np' ← load prev_;
      modify (with_fifo r (with_QNodes (delete (key np'))));;
      mret (defaultValue, true).

Definition lru_add (k : T) : M TwoQ ptr :=
  head ← gets (λ s, Head (Am s));
  nh ← load head;
  if negb (end_identifier nh =? 1) then panic "this has to be head"
  else
    let next_to_head := next nh in
    newNode ← NewNode k head next_to_head;
    match newNode with
    | Some a => modify (with_Am (with_QNodes (<[k := a]>)))
    | None => panic nil_deref
    end;;
    mret newNode.

Definition lru_getHead : M TwoQ ptr :=
  head ← gets (λ s, Head (Am s));
  nh ← load head;
  if negb (end_identifier nh =? 1) then panic "how" else mret head.

Definition lru_access (k : T) : M TwoQ unit :=
  node ← gets (λ s, Nodes (Am s) !! k);
  DeleteNode node;;
  head ← lru_getHead;
  nh ← load head;
  update node (set_next (next nh));;
  update head (set_next node).

Definition lru_evict : M TwoQ (T * bool) :=
  let defaultValue := zeroT in
  tail ← gets (λ s, Tail (Am s));
  nt ← load tail;
  if negb (end_identifier nt =? -1) then panic "tail is not initialized properly"
  else
    let prev_ := prev nt in
    np ← load prev_;
    if end_identifier np =? 1 then mret (defaultValue, false)
    else
      DeleteNode prev_;;
      np' ← load prev_;
      modify (with_Am (with_QNodes (delete (key np'))));;
      mret (defaultValue, true).

(** [NewTwoQ(capacity)] sets [Capacity] and nothing else. Every test of
    the repository goes on with [K_In = ...], [K_Out = ...],
    [PageBuffer = make(...)], [A1in = NewFIFO()], [Am = NewLRU()] and
    [A1out = NewFIFO()], each followed by [Nodes = make(...)], in this
    order, before the first [Insert]; this is [NewTwoQ] with those
    assignments. *)
Definition NewTwoQ_initialised (capacity k_in k_out : Z) : M TwoQ unit :=
  a1in ← NewQueue;
  am ← NewQueue;
  a1out ← NewQueue;
  modify (λ s, mkTwoQ k_in k_out ∅ capacity a1in am a1out (mem s)).

Definition empty_store : TwoQ :=
  let q := mkQueue ∅ None None in mkTwoQ 0 0 ∅ 0 q q q ∅.

Definition reclaimFor : M TwoQ unit :=
  s ← gets id;
  if len (PageBuffer s) <? Capacity s then mret tt
  else if len (Nodes (A1in s)) >=? K_In s then
    '(k, evicted) ← fifo_evict RefA1in;
    if negb evicted then panic "why cant we evict"
    else
      modify (with_PageBuffer (delete k));;
      fifo_add RefA1out k;;
      s' ← gets id;
      if len (Nodes (A1out s')) >=? K_Out s' then
        '(_, evicted') ← fifo_evict RefA1out;
        if negb evicted' then panic "why cant we evict" else mret tt
      else mret tt
  else
    '(k, evicted) ← lru_evict;
    if negb evicted then panic "why cant we evict"
    else modify (with_PageBuffer (delete k)).

(** [page.data] for a [page] read from [PageBuffer]. *)
Definition page_data (page : option Page) : M TwoQ V :=
  match page with
  | Some p => mret (data p)
  | None => panic nil_deref
  end.

Definition Insert (k : T) (value : V) : M TwoQ (V * bool) :=
  page ← gets (λ s, PageBuffer s !! k);
  match page with
  | None =>
      (* !present *)
      reclaimFor;;
      modify (with_PageBuffer (<[k := mkPage value "A1_In"]>));;
      d ← page_data page;
      mret (d, false)
  | Some p =>
      if String.eqb (queueType p) "A1_In" then
        d ← page_data page;
        mret (d, true)
      else
        (if String.eqb (queueType p) "A_M" then lru_access k else mret tt);;
        present ← fifo_isPresent RefA1out k;
        (if (present : bool) then
           reclaimFor;;
           lru_add k;;
           modify (with_PageBuffer (<[k := mkPage value "A_M"]>))
         else mret tt);;
        d ← page_data page;
        mret (d, true)
  end.

(** A computation of the 2Q model that never runs out of fuel. *)
Definition fuel_free {A} (m : M TwoQ A) : Prop := ∀ s, run m s ≠ OutOfFuel.

End Model.

End TwoQ.

(** ** O(1)-LFU (package lfuo1) *)

Module LFU.

Section Model.

Context {T : Type} `{Countable T}.
Context {V : Type}.
(** Go's zero value of the key type and the nil value of [any]. *)
Variable zeroT : T.
Variable nilV : V.
(** The order in which [range] meets the keys of a bucket. *)
Variable range_order : gmap T nat → list T.

Record FreqNode : Type := mkFreqNode {
  value : Z;
  items : gmap T nat;
  prev : ptr;
  next : ptr
}.

Definition set_value (v : Z) (n : FreqNode) : FreqNode :=
  mkFreqNode v (items n) (prev n) (next n).
Definition set_items (f : gmap T nat → gmap T nat) (n : FreqNode) : FreqNode :=
  mkFreqNode (value n) (f (items n)) (prev n) (next n).
Definition set_prev (p : ptr) (n : FreqNode) : FreqNode :=
  mkFreqNode (value n) (items n) p (next n).
Definition set_next (p : ptr) (n : FreqNode) : FreqNode :=
  mkFreqNode (value n) (items n) (prev n) p.

Record LFU_Item : Type := mkLFU_Item {
  data : V;
  parent : ptr
}.

Definition set_parent (p : ptr) (i : LFU_Item) : LFU_Item := mkLFU_Item (data i) p.

(** [fmem] holds the frequency nodes and [imem] the items allocated so
    far; [bykey] and [items] hold addresses of items. *)
Record LFU_Cache : Type := mkLFU_Cache {
  size : Z;
  bykey : gmap T nat;
  freq_Head : ptr;
  fmem : gmap nat FreqNode;
  imem : gmap nat LFU_Item
}.

Definition with_size (n : Z) (s : LFU_Cache) : LFU_Cache :=
  mkLFU_Cache n (bykey s) (freq_Head s) (fmem s) (imem s).
Definition with_bykey (f : gmap T nat → gmap T nat) (s : LFU_Cache) : LFU_Cache :=
  mkLFU_Cache (size s) (f (bykey s)) (freq_Head s) (fmem s) (imem s).
Definition with_fmem (f : gmap nat FreqNode → gmap nat FreqNode) (s : LFU_Cache) : LFU_Cache :=
  mkLFU_Cache (size s) (bykey s) (freq_Head s) (f (fmem s)) (imem s).
Definition with_imem (f : gmap nat LFU_Item → gmap nat LFU_Item) (s : LFU_Cache) : LFU_Cache :=
  mkLFU_Cache (size s) (bykey s) (freq_Head s) (fmem s) (f (imem s)).

Definition load (p : ptr) : M LFU_Cache FreqNode :=
  Run (λ s, match p with
            | None => Panicked nil_deref s
            | Some a => match fmem s !! a with
                        | Some n => Returned n s
                        | None => Panicked nil_deref s
                        end
            end).

Definition update (p : ptr) (f : FreqNode → FreqNode) : M LFU_Cache unit :=
  n ← load p;
  match p with
  | Some a => modify (with_fmem (<[a := f n]>))
  | None => panic nil_deref
  end.

Definition load_item (p : ptr) : M LFU_Cache LFU_Item :=
  Run (λ s, match p with
            | None => Panicked nil_deref s
            | Some a => match imem s !! a with
                        | Some n => Returned n s
                        | None => Panicked nil_deref s
                        end
            end).

Definition update_item (p : ptr) (f : LFU_Item → LFU_Item) : M LFU_Cache unit :=
  n ← load_item p;
  match p with
  | Some a => modify (with_imem (<[a := f n]>))
  | None => panic nil_deref
  end.

Definition NewFreqNode : M LFU_Cache ptr :=
  Run (λ s, let a := fresh (dom (fmem s)) in
            Returned (Some a) (with_fmem (<[a := mkFreqNode 0 ∅ None None]>) s)).

Definition GetNewNode (v : Z) (prev_ next_ : ptr) : M LFU_Cache ptr :=
  new_node ← NewFreqNode;
  update new_node (set_value v);;
  update new_node (set_prev prev_);;
  update new_node (set_next next_);;
  update prev_ (set_next new_node);;
  update next_ (set_prev new_node);;
  mret new_node.

Definition DeleteNode (node : ptr) : M LFU_Cache unit :=
  n ← load node;
  let next_ := next n in
  let prev_ := prev n in
  update prev_ (set_next next_);;
  update next_ (set_prev prev_).

Definition NewLfuItem (d : V) (parent_ : ptr) : M LFU_Cache ptr :=
  Run (λ s, let a := fresh (dom (imem s)) in
            Returned (Some a) (with_imem (<[a := mkLFU_Item d parent_]>) s)).

(** [NewLfuCache]; the [size] field is left at its zero value, callers
    set it afterwards. *)
Definition NewLfuCache : LFU_Cache :=
  mkLFU_Cache 0 ∅ (Some 0%nat) (<[0%nat := mkFreqNode 0 ∅ None None]> ∅) ∅.

(** [m[k] = v] for a map field holding item pointers. *)
Definition put_ptr (k : T) (p : ptr) (m : gmap T nat) : gmap T nat :=
  match p with Some a => <[k := a]> m | None => delete k m end.

Definition Evict : M LFU_Cache (T * V) :=
  let zeroValue := zeroT in
  s ← gets id;
  if len (bykey s) =? 0 then panic "the set is empty"
  else
    hd ← load (freq_Head s);
    if is_nil (next hd) then panic "the set is empty"
    else
      first ← load (next hd);
      match range_order (items first) with
      | item :: _ =>
          let present := items first !! item in
          update (next hd) (set_items (delete item));;
          modify (with_bykey (delete item));;
          first' ← load (next hd);
          (if len (items first') =? 0 then DeleteNode (next hd) else mret tt);;
          it ← load_item present;
          mret (item, data it)
      | [] => mret (zeroValue, nilV)
      end.

Definition Insert (k : T) (v : V) : M LFU_Cache unit :=
  s ← gets id;
  if bool_decide (is_Some (bykey s !! k)) then panic "Key already exists"
  else
    (if len (bykey s) =? size s then Evict;; mret tt else mret tt);;
    s1 ← gets id;
    hd ← load (freq_Head s1);
    let freq := next hd in
    freq ← (if is_nil freq then GetNewNode 1 (freq_Head s1) freq
            else
              nf ← load freq;
              if negb (value nf =? 1) then GetNewNode 1 (freq_Head s1) freq
              else mret freq);
    lfuItem ← NewLfuItem v freq;
    modify (with_bykey (put_ptr k lfuItem));;
    update freq (set_items (put_ptr k lfuItem)).

Definition Access (k : T) : M LFU_Cache V :=
  tmp ← gets (λ s, bykey s !! k);
  if is_nil tmp then panic "No such key"
  else
    it ← load_item tmp;
    let freq := parent it in
    nf ← load freq;
    let next_freq := next nf in
    next_freq ← (if is_nil next_freq then GetNewNode (value nf + 1) freq next_freq
                 else
                   nn ← load next_freq;
                   if negb (value nn =? value nf + 1)
                   then GetNewNode (value nf + 1) freq next_freq
                   else mret next_freq);
    update next_freq (set_items (put_ptr k tmp));;
    update_item tmp (set_parent next_freq);;
    update freq (set_items (delete k));;
    nf' ← load freq;
    (if len (items nf') =? 0 then DeleteNode freq else mret tt);;
    it' ← load_item tmp;
    mret (data it').

(** The buckets from [p] on, read off the [next] pointers, each with its
    frequency and the keys it holds. *)
Fixpoint buckets (fuel : nat) (m : gmap nat FreqNode) (p : ptr) : list (Z * list T) :=
  match fuel, p with
  | S fuel', Some a =>
      match m !! a with
      | Some n => (value n, (map_to_list (items n)).*1) :: buckets fuel' m (next n)
      | None => []
      end
  | _, _ => []
  end.

(** The bucket list of the cache: what follows [freq_Head]. *)
Definition bucket_list (s : LFU_Cache) : list (Z * list T) :=
  match freq_Head s with
  | Some a =>
      match fmem s !! a with
      | Some hd => buckets (base.size (fmem s)) (fmem s) (next hd)
      | None => []
      end
  | None => []
  end.

End Model.

End LFU.

(** ** What the specification says, and the scenarios it names *)

Module Spec.

(** One admissible iteration order for [range] over a map. *)
Definition map_keys {K A} `{Countable K} (m : gmap K A) : list K := (map_to_list m).*1.

(** What a program sees after a call, whether it returned or a panic was
    recovered. *)
Definition after {S A} (dflt : S) (o : outcome S A) : S := default dflt (state_of o).

Section LRUK.

Context {T : Type} `{Countable T}.

(** [HIST(p, i)] and [LAST(p)] as the specification writes them. *)
Definition HIST_at (s : LRUK.LRU_K (T:=T)) (p : T) (i : Z) : option Z :=
  h ← LRUK.HIST s !! p; h !! Z.to_nat i.

Definition LAST_at (s : LRUK.LRU_K (T:=T)) (p : T) : option Z := LRUK.LAST s !! p.

(** One iteration of the loop of [FindVictim] on the pair [(min, victim)],
    as a pure function of the state. *)
Definition pick_step (s : LRUK.LRU_K (T:=T)) (t : Z) (acc : Z * T) (page : T) : Z * T :=
  match LAST_at s page, HIST_at s page (LRUK.K s - 1) with
  | Some l, Some h =>
      if (LRUK.sub64 t l >? LRUK.CRP s) && (h <? acc.1) then (h, page) else acc
  | _, _ => acc
  end.

(** A resident key outside its correlated reference period at time [t]:
    [t − LAST(p) > CRP]. *)
Definition evictable (s : LRUK.LRU_K (T:=T)) (t : Z) (p : T) : Prop :=
  is_Some (LRUK.Buffer s !! p) ∧
  ∃ l, LAST_at s p = Some l ∧ LRUK.sub64 t l > LRUK.CRP s.

(** The test the loop of [FindVictim] applies against its initial
    [min := t]: evictable and [HIST(p, K−1) < t]. *)
Definition candidate (s : LRUK.LRU_K (T:=T)) (t : Z) (p : T) : Prop :=
  evictable s t p ∧ ∃ h, HIST_at s p (LRUK.K s - 1) = Some h ∧ h < t.

(** [v] has the least [HIST(·, K−1)] among the keys that satisfy [P]. *)
Definition least_HIST (s : LRUK.LRU_K (T:=T)) (P : T → Prop) (v : T) : Prop :=
  P v ∧
  ∀ p, P p → ∃ hv hp,
    HIST_at s v (LRUK.K s - 1) = Some hv ∧
    HIST_at s p (LRUK.K s - 1) = Some hp ∧ hv ≤ hp.

(** Victim selection as the specification states it. *)
Definition victim_spec (zeroT : T) (s : LRUK.LRU_K (T:=T)) (t : Z) (v : T) : Prop :=
  ((∃ p, evictable s t p) → least_HIST s (evictable s t) v) ∧
  ((∀ p, ¬ evictable s t p) → v = zeroT).

(** Victim selection as amended: the keys in competition are the
    candidates. *)
Definition victim_amended (zeroT : T) (s : LRUK.LRU_K (T:=T)) (t : Z) (v : T) : Prop :=
  ((∃ p, candidate s t p) → least_HIST s (candidate s t) v) ∧
  ((∀ p, ¬ candidate s t p) → v = zeroT).

(** Invariant (I2) with the length of the history vectors: every key of
    the buffer has a [LAST] entry and a [HIST] vector with an entry at
    index [K−1]. *)
Definition has_history (s : LRUK.LRU_K (T:=T)) : Prop :=
  1 ≤ LRUK.K s ∧
  map_Forall (λ p _, is_Some (LAST_at s p) ∧ is_Some (HIST_at s p (LRUK.K s - 1)))
             (LRUK.Buffer s).

(** Backward K-distance at time [t], as the glossary defines it. *)
Definition backward_K_distance (s : LRUK.LRU_K (T:=T)) (t : Z) (p : T) : option Z :=
  h ← HIST_at s p (LRUK.K s - 1); Some (t - h).

(** The sweeper should purge [p] at time [t]. *)
Definition should_purge (s : LRUK.LRU_K (T:=T)) (t : Z) (p : T) : bool :=
  match backward_K_distance s t p with
  | Some d => d >? LRUK.RIP s
  | None => false
  end.

(** The loop [for i := 1; i < K; i++ { HIST[i] = f(HIST[i-1]) }] on one
    history vector: [n] iterations from index [i], each reading the entry
    the one before has written. *)
Fixpoint shift_from (f : Z → Z) (n i : nat) (h : list Z) : list Z :=
  match n with
  | O => h
  | S n' => shift_from f n' (S i) (<[i := f (default 0 (h !! (i - 1)%nat))]> h)
  end.

(** [h0, f h0, f (f h0), ...], [n] entries. *)
Fixpoint ramp (f : Z → Z) (n : nat) (h0 : Z) : list Z :=
  match n with
  | O => []
  | S n' => h0 :: ramp f n' (f h0)
  end.

(** Every history vector has [K] entries, with [K ≥ 1], and every key of
    the buffer has a [LAST] entry and a history vector. *)
Definition hist_ok (s : LRUK.LRU_K (T:=T)) : Prop :=
  1 ≤ LRUK.K s ∧
  (∀ p h, LRUK.HIST s !! p = Some h → Z.of_nat (length h) = LRUK.K s) ∧
  (∀ p, is_Some (LRUK.Buffer s !! p) →
        is_Some (LRUK.LAST s !! p) ∧ is_Some (LRUK.HIST s !! p)).

(** The states a program reaches from [NewLRU] with [K ≥ 1] through
    [Set], [Get], [Cleanup] and assignments to [RIP]; [Get] changes
    nothing. *)
Inductive lruk_reachable (zeroT : T) (range_order : gmap T LRUK.bytes → list T) :
    LRUK.LRU_K (T:=T) → Prop :=
| lruk_new k cap crp :
    1 ≤ k → lruk_reachable zeroT range_order (LRUK.NewLRU k cap crp)
| lruk_rip s r :
    lruk_reachable zeroT range_order s →
    lruk_reachable zeroT range_order (LRUK.with_RIP r s)
| lruk_set_step s t key data b s' :
    lruk_reachable zeroT range_order s →
    run (LRUK.Set_ zeroT range_order t key data) s = Returned b s' →
    lruk_reachable zeroT range_order s'
| lruk_cleanup s key s' :
    lruk_reachable zeroT range_order s →
    run (LRUK.Cleanup key) s = Returned tt s' →
    lruk_reachable zeroT range_order s'.

(** [K], [CRP], [RIP] and [Cap] are the same in both states. *)
Definition same_config (s s' : LRUK.LRU_K (T:=T)) : Prop :=
  LRUK.K s' = LRUK.K s ∧ LRUK.CRP s' = LRUK.CRP s ∧
  LRUK.RIP s' = LRUK.RIP s ∧ LRUK.Cap s' = LRUK.Cap s.

(** The comparison the sweeper makes for a key: its [HIST(·, K−1)] is
    greater than [RIP]. *)
Definition swept (s : LRUK.LRU_K (T:=T)) (p : T) : Prop :=
  ∃ h, HIST_at s p (LRUK.K s - 1) = Some h ∧ h > LRUK.RIP s.

(** The key [q] is in none of the three maps. *)
Definition purged (s : LRUK.LRU_K (T:=T)) (q : T) : Prop :=
  LRUK.Buffer s !! q = None ∧ LRUK.HIST s !! q = None ∧ LRUK.LAST s !! q = None.

(** The three maps hold for [q] in [s'] what they hold in [s]. *)
Definition untouched (s s' : LRUK.LRU_K (T:=T)) (q : T) : Prop :=
  LRUK.Buffer s' !! q = LRUK.Buffer s !! q ∧ LRUK.HIST s' !! q = LRUK.HIST s !! q ∧
  LRUK.LAST s' !! q = LRUK.LAST s !! q.

(** A pass over the keys [pages] of the cache [s], part of the way
    through: the goroutines that wait are for inspected keys that the
    comparison has selected, and exactly the selected keys whose
    goroutine has run are gone. *)
Definition sweep_inv (s : LRUK.LRU_K (T:=T)) (pages : list T) (c : LRUK.sweep (T:=T)) : Prop :=
  ∃ seen, pages = seen ++ LRUK.todo c ∧ NoDup (LRUK.started c) ∧
    (∀ q, q ∈ LRUK.started c → q ∈ seen ∧ swept s q) ∧
    same_config s (LRUK.cache c) ∧
    ∀ q, (q ∈ seen → swept s q → q ∉ LRUK.started c → purged (LRUK.cache c) q) ∧
         (¬ (q ∈ seen ∧ swept s q ∧ q ∉ LRUK.started c) → untouched s (LRUK.cache c) q).

End LRUK.

(** *** LRU-K with string keys *)

Definition lruk : Type := LRUK.LRU_K (T:=string).

Definition lruk_set (t : Z) (k : string) : M lruk bool :=
  LRUK.Set_ "" map_keys t k [].

(** The cache after the calls [set(k)] at the times [calls], made one
    after the other on the cache [s]. *)
Definition lruk_after (s : lruk) (calls : list (Z * string)) : lruk :=
  foldl (λ s c, after s (run (lruk_set c.1 c.2) s)) s calls.

(** Every call of [calls] returns [true]. *)
Fixpoint lruk_ok (s : lruk) (calls : list (Z * string)) : bool :=
  match calls with
  | [] => true
  | c :: calls' =>
      match run (lruk_set c.1 c.2) s with
      | Returned true s' => lruk_ok s' calls'
      | _ => false
      end
  end.

(** K = 3, capacity 1, CRP = 5: [set(k)] at 10 and 11 (a correlated
    pair), before the uncorrelated [set(k)] at 100. *)
Definition lruk_burst : lruk := lruk_after (LRUK.NewLRU 3 1 5) [(10, "k"); (11, "k")].

(** K = 3, capacity 1, CRP = 10: a correlated burst 10, 20, 30, 40
    followed by the uncorrelated reference at 51. *)
Definition lruk_long_burst_calls : list (Z * string) :=
  [(10, "a"); (20, "a"); (30, "a"); (40, "a"); (51, "a")].

Definition lruk_long_burst : lruk := lruk_after (LRUK.NewLRU 3 1 10) lruk_long_burst_calls.

(** K = 2, capacity 1, CRP = 10: two keys set one second apart. *)
Definition lruk_two_sets : lruk := lruk_after (LRUK.NewLRU 2 1 10) [(100, "a"); (101, "b")].

(** K = 2, capacity 2, CRP = 1, RIP = 100: [p] referenced at 150 and
    200, [q] referenced once at 210. *)
Definition lruk_before_sweep_calls : list (Z * string) :=
  [(150, "p"); (200, "p"); (210, "q")].

Definition lruk_before_sweep : lruk :=
  lruk_after (LRUK.with_RIP 100 (LRUK.NewLRU 2 2 1)) lruk_before_sweep_calls.

(** The same cache after one pass of the sweeper. *)
Definition lruk_swept : lruk :=
  after lruk_before_sweep (run (LRUK.StartCleanup_pass map_keys) lruk_before_sweep).

(** *** 2Q with string keys *)

Definition twoq : Type := TwoQ.TwoQ (T:=string) (V:=option string).

Definition twoq_insert (k v : string) : M twoq (option string * bool) :=
  TwoQ.Insert "" k (Some v).

(** capacity = 3, K_in = 1, K_out = 1, every map and queue in place. *)
Definition twoq_311 : twoq :=
  after TwoQ.empty_store (run (TwoQ.NewTwoQ_initialised "" 3 1 1) TwoQ.empty_store).

(** The same cache with the key [g] put on the ghost list [A1out]. *)
Definition twoq_ghost : twoq :=
  after TwoQ.empty_store (run (TwoQ.fifo_add TwoQ.RefA1out "g") twoq_311).

(** The state [insert(k, v)] leaves behind, a panic recovered. *)
Definition twoq_then (s : twoq) (k v : string) : twoq :=
  after s (run (twoq_insert k v) s).

Definition twoq_k1 : twoq := twoq_then twoq_311 "k1" "v1".
Definition twoq_k2 : twoq := twoq_then twoq_k1 "k2" "v2".
Definition twoq_k3 : twoq := twoq_then twoq_k2 "k3" "v3".
Definition twoq_k4 : twoq := twoq_then twoq_k3 "k4" "v4".

(** *** O(1)-LFU with string keys *)

Definition lfu : Type := LFU.LFU_Cache (T:=string) (V:=option string).

Definition lfu_insert (k v : string) : M lfu unit :=
  LFU.Insert "" None map_keys k (Some v).

Definition lfu_access (k : string) : M lfu (option string) := LFU.Access k.

(** [NewLfuCache()] followed by [cache.size = 2]. *)
Definition lfu_cap2 : lfu := LFU.with_size 2 LFU.NewLfuCache.

(** The state the first [insert(k1, v1)] leaves behind, its panic
    recovered. *)
Definition lfu_k1 : lfu := after lfu_cap2 (run (lfu_insert "k1" "v1") lfu_cap2).

(** The cache after [insert(k2, v2)] on [lfu_k1]: the bucket of frequency
    1 that the failed call has left holds k2. *)
Definition lfu_k2 : lfu := after lfu_k1 (run (lfu_insert "k2" "v2") lfu_k1).

(** Then [insert(k3, v3)], and [access(k2)], whose panic leaves an empty
    bucket of frequency 2 behind the first. *)
Definition lfu_k3 : lfu := after lfu_k2 (run (lfu_insert "k3" "v3") lfu_k2).

Definition lfu_two_buckets : lfu := after lfu_k3 (run (lfu_access "k2") lfu_k3).

(** The 2Q cache [twoq_311] after [Am.add(a)] and [Am.add(b)]: the list
    of [Am] reads head, [b], [a], tail. *)
Definition twoq_am_ab : twoq :=
  after twoq_311 (run (TwoQ.lru_add "a";; TwoQ.lru_add "b") twoq_311).

End Spec.

(** ** Representation of the SIEVE list and its scenarios *)

Import Spec.

Module SieveDefs.
Import Sieve.
Section Defs.
Context {K : Type} `{Countable K} {V : Type}.

Abbreviation St := (Sieve (K:=K) (V:=V)).
Abbreviation Mem := (gmap nat (Node (K:=K) (V:=V))).

(** The field [g] of the node at address [a], when there is one. *)
Definition fld {A} (g : Node (K:=K) (V:=V) → A) (m : Mem) (a : nat) : option A :=
  g <$> m !! a.

(** The nodes of [l] are linked in this order between [p] and [t]. *)
Fixpoint chain (m : Mem) (p : nat) (l : list nat) (t : nat) : Prop :=
  match l with
  | [] => fld next m p = Some (Some t) ∧ fld prev m t = Some (Some p)
  | a :: l' =>
      fld next m p = Some (Some a) ∧ fld prev m a = Some (Some p) ∧
      fld end_identifier m a = Some 0 ∧ chain m a l' t
  end.

(** [l] is the list of live nodes, from [HEAD] to [TAIL]. *)
Definition linked (s : St) (l : list nat) : Prop :=
  ∃ h t, head (FifoQueue s) = Some h ∧ tail (FifoQueue s) = Some t ∧
         fld end_identifier (mem s) h = Some 1 ∧
         fld end_identifier (mem s) t = Some (-1) ∧
         NoDup (h :: l ++ [t]) ∧
         chain (mem s) h l t.

(** Clearing the visited bit of the nodes of [L]. *)
Definition clear_in (L : list nat) (m : Mem) : Mem :=
  foldr (λ a m', alter (set_visited false) a m') m L.

(** The store after [prev.next = next; next.prev = prev]. *)
Definition unlink (pv nx : nat) (m : Mem) : Mem :=
  alter (set_prev (Some pv)) nx (alter (set_next (Some nx)) pv m).

(** The store after a fresh node [a] is linked between [h] and [first]
    and given its key. *)
Definition link (zeroK : K) (a h first : nat) (k : K) (data : V) (m : Mem) : Mem :=
  alter (set_visited false) a
    (alter (set_key k) a
      (alter (set_prev (Some h)) a
        (alter (set_next (Some a)) h
          (alter (set_prev (Some a)) first
            (alter (set_next (Some first)) a
              (<[a := mkNode zeroK 0 None None data false]> m)))))).

(** The node before [x] in [l]. *)
Fixpoint pred_in (l : list nat) (x : nat) : option nat :=
  match l with
  | a :: l' =>
      match l' with
      | b :: _ => if decide (b = x) then Some a else pred_in l' x
      | [] => None
      end
  | [] => None
  end.

(** The node at which the sweep of the next eviction starts: the node
    before [TAIL] when the hand is unset or on [HEAD], the node before
    the hand otherwise. *)
Definition start_of (s : St) (l : list nat) : option nat :=
  match hand s with
  | None => last l
  | Some x =>
      if decide (Some x = head (FifoQueue s)) then last l else pred_in l x
  end.

(** Every entry of the index points at a linked node that carries the
    key of the entry. *)
Definition index_ok (s : St) (l : list nat) : Prop :=
  map_Forall (λ k a, a ∈ l ∧ fld key (mem s) a = Some k) (Nodes s).

(** The hand is unset, on [HEAD], or on a node that has a live node
    before it. *)
Definition hand_ok (s : St) (l : list nat) : Prop :=
  match hand s with
  | None => True
  | Some x => Some x = head (FifoQueue s) ∨ is_Some (pred_in l x)
  end.

(** The invariant of the cache, for the list [l] of its live nodes. *)
Definition inv (s : St) (l : list nat) : Prop :=
  linked s l ∧ hand_ok s l ∧ index_ok s l ∧ 0 < Capacity s.

(** The states a program reaches from [NewSieve] through [Get] and
    [Insert]; an [Insert] is given enough fuel for two turns of the
    list. *)
Inductive reachable (zeroK : K) (nilV : V) : St → Prop :=
| reach_new cap s :
    NewSieve zeroK nilV cap = Returned s s → reachable zeroK nilV s
| reach_get s k b s' :
    reachable zeroK nilV s → run (Get k) s = Returned b s' →
    reachable zeroK nilV s'
| reach_insert s fuel k data s' :
    reachable zeroK nilV s → (2 * size (mem s) ≤ fuel)%nat →
    run (Insert zeroK fuel k data) s = Returned tt s' →
    reachable zeroK nilV s'.

(** The statements of [Insert] that follow the eviction block. *)
Definition Insert_link (zeroK : K) (k : K) (data : V) : M St unit :=
  hd ← getHead;
  nh ← load hd;
  currNode ← insertNode zeroK data hd (next nh);
  update currNode (set_key k);;
  match currNode with
  | Some a => modify (with_Nodes (<[k := a]>))
  | None => panic nil_deref
  end;;
  update currNode (set_visited false).

(** Every live node is indexed under the key it carries. *)
Definition indexed (s : St) (l : list nat) : Prop :=
  ∀ a, a ∈ l → ∃ k, fld key (mem s) a = Some k ∧ Nodes s !! k = Some a.

(** The visited bit of the key [k]: that of the node the index gives for
    it. *)
Definition visited_of (s : St) (k : K) : option bool :=
  a ← Nodes s !! k; fld visited (mem s) a.

(** The states a program reaches when it never calls [Insert] with a key
    that is resident. *)
Inductive reachable_distinct (zeroK : K) (nilV : V) : St → Prop :=
| distinct_new cap s :
    NewSieve zeroK nilV cap = Returned s s → reachable_distinct zeroK nilV s
| distinct_get s k b s' :
    reachable_distinct zeroK nilV s → run (Get k) s = Returned b s' →
    reachable_distinct zeroK nilV s'
| distinct_insert s fuel k data s' :
    reachable_distinct zeroK nilV s → Nodes s !! k = None →
    (2 * size (mem s) ≤ fuel)%nat →
    run (Insert zeroK fuel k data) s = Returned tt s' →
    reachable_distinct zeroK nilV s'.

End Defs.
End SieveDefs.

Module SieveScenarios.
Import Sieve SieveDefs.

(** *** SIEVE with string keys *)

Definition sieve : Type := Sieve (K:=string) (V:=option Z).

Inductive sieve_op : Type :=
| SInsert (k : string) (v : Z)
| SGet (k : string).

(** Every [Insert] of the scenarios gets fuel for 64 iterations of its
    loop. *)
Definition sieve_step (op : sieve_op) : M sieve unit :=
  match op with
  | SInsert k v => Insert "" 64 k (Some v)
  | SGet k => Get k;; mret tt
  end.

Definition sieve_new (cap : Z) : sieve :=
  after (mkSieve None 0 ∅ (mkFIFOQueue None None) ∅) (NewSieve "" None cap).

(** The cache after the calls [ops], made one after the other on a new
    cache of capacity [cap]. *)
Definition sieve_after (cap : Z) (ops : list sieve_op) : sieve :=
  foldl (λ s op, after s (run (sieve_step op) s)) (sieve_new cap) ops.

(** Every call of [ops] returns, with fuel to spare. *)
Fixpoint trace_ok (s : sieve) (ops : list sieve_op) : bool :=
  match ops with
  | [] => true
  | op :: ops' =>
      (2 * size (mem s) <=? 64)%nat && returns (run (sieve_step op) s) &&
      trace_ok (after s (run (sieve_step op) s)) ops'
  end.

(** The keys of the live nodes, from [HEAD] to [TAIL], each with its
    visited bit. *)
Definition sieve_list (s : sieve) : list (option string * option bool) :=
  (λ a, (key_at s a, visited_at s a)) <$> live s.

Definition resident (s : sieve) : gset string := dom (Nodes s).

(** Capacity 2 after insert a, insert b, get a, get b: full, both nodes
    visited, the hand unset. *)
Definition sieve_ab_visited : sieve :=
  sieve_after 2 [SInsert "a" 1; SInsert "b" 2; SGet "a"; SGet "b"].

(** Seven inserts, the second of a key that is already resident. *)
Definition sieve_twice_a : list sieve_op :=
  [SInsert "a" 1; SInsert "a" 2; SInsert "b" 3; SInsert "c" 4; SInsert "d" 5;
   SInsert "e" 6; SInsert "f" 7].

(** Capacity 3: insert a, b, c, get a, insert d, then every resident is
    read. *)
Definition sieve_hand_on_c : list sieve_op :=
  [SInsert "a" 1; SInsert "b" 2; SInsert "c" 3; SGet "a"; SInsert "d" 4;
   SGet "a"; SGet "c"; SGet "d"].

(** Capacity 2 after insert a, get a: one resident, visited. *)
Definition sieve_a_visited : sieve :=
  sieve_after 2 [SInsert "a" 1; SGet "a"].

(** Every call of [ops] returns, with fuel to spare, and no [SInsert]
    names a resident key. *)
Fixpoint trace_distinct (s : sieve) (ops : list sieve_op) : bool :=
  match ops with
  | [] => true
  | op :: ops' =>
      match op with
      | SInsert k _ => bool_decide (Nodes s !! k = None)
      | SGet _ => true
      end &&
      (2 * size (mem s) <=? 64)%nat && returns (run (sieve_step op) s) &&
      trace_distinct (after s (run (sieve_step op) s)) ops'
  end.

(** Capacity 3: insert a twice, insert b, insert c, get a. The index
    is full with a, b and c; a is visited, b and c are not. *)
Definition sieve_a_again_marked : list sieve_op :=
  [SInsert "a" 1; SInsert "a" 2; SInsert "b" 3; SInsert "c" 4; SGet "a"].

(** Capacity 2 after insert a, insert b, get a: full, a visited, b not. *)
Definition sieve_a_marked : sieve :=
  sieve_after 2 [SInsert "a" 1; SInsert "b" 2; SGet "a"].

End SieveScenarios.

(** ** LRU-K, the earlier version of package lrukgo (no [Cleanup]) *)

Module LRUK0.

Section Model.

Context {T : Type} `{Countable T}.
(** Go's zero value of the key type. *)
Variable zeroT : T.
(** The order in which [range] meets the keys of the buffer. *)
Variable range_order : gmap T LRUK.bytes → list T.

(** [NewLRU] of this version does not make [Buffer]: the field is a map
    or nil, here [None]. [Mu] is left out. *)
Record LRU_K : Type := mkLRU_K {
  K : Z;
  HIST : gmap T (list Z);
  CRP : Z;
  RIP : Z;
  LAST : gmap T Z;
  Buffer : option (gmap T LRUK.bytes);
  Cap : Z
}.

Definition with_HIST (f : gmap T (list Z) → gmap T (list Z)) (s : LRU_K) : LRU_K :=
  mkLRU_K (K s) (f (HIST s)) (CRP s) (RIP s) (LAST s) (Buffer s) (Cap s).
Definition with_LAST (f : gmap T Z → gmap T Z) (s : LRU_K) : LRU_K :=
  mkLRU_K (K s) (HIST s) (CRP s) (RIP s) (f (LAST s)) (Buffer s) (Cap s).
Definition with_Buffer (b : option (gmap T LRUK.bytes)) (s : LRU_K) : LRU_K :=
  mkLRU_K (K s) (HIST s) (CRP s) (RIP s) (LAST s) b (Cap s).

(** Reading a map that may be nil: a nil map has no key. *)
Definition buffer_lookup (s : LRU_K) (key : T) : option LRUK.bytes :=
  b ← Buffer s; b !! key.

(** [len(lru.Buffer)]: 0 for a nil map. *)
Definition buffer_len (s : LRU_K) : Z :=
  match Buffer s with Some b => len b | None => 0 end.

(** [lru.Buffer[key] = data]: a write to a nil map panics. *)
Definition buffer_assign (key : T) (data : LRUK.bytes) : M LRU_K unit :=
  b ← gets Buffer;
  match b with
  | Some m => modify (with_Buffer (Some (<[key := data]> m)))
  | None => panic "assignment to entry in nil map"
  end.

(** [delete(lru.Buffer, key)]: no-op on a nil map. *)
Definition buffer_delete (key : T) : M LRU_K unit :=
  modify (λ s, with_Buffer (delete key <$> Buffer s) s).

Definition Last_Get (key : T) : M LRU_K Z :=
  l ← gets LAST;
  match l !! key with
  | None => panic "key not present"
  | Some t => mret t
  end.

Definition Last_Set (key : T) (time : Z) : M LRU_K unit :=
  modify (with_LAST (<[key := time]>)).

Definition Hist_Get (key : T) (index : Z) : M LRU_K Z :=
  h ← gets HIST;
  match h !! key with
  | None => panic "key not present"
  | Some reference_times =>
      if index <? 0 then panic LRUK.index_out_of_range
      else match reference_times !! Z.to_nat index with
           | Some t => mret t
           | None => panic LRUK.index_out_of_range
           end
  end.

Definition Hist_Set (key : T) (index : Z) (time : Z) : M LRU_K unit :=
  h ← gets HIST;
  match h !! key with
  | None => panic "key not present"
  | Some reference_times =>
      if (index <? 0) || (Z.of_nat (length reference_times) <=? index)
      then panic LRUK.index_out_of_range
      else modify (with_HIST (<[key := <[Z.to_nat index := time]> reference_times]>))
  end.

Definition FindVictim_step (t : Z) (acc : Z * T) (page : T) : M LRU_K (Z * T) :=
  time_of_last_reference ← Last_Get page;
  crp ← gets CRP;
  k ← gets K;
  if LRUK.sub64 t time_of_last_reference >? crp then
    h ← Hist_Get page (k - 1);
    if h <? acc.1 then
      h' ← Hist_Get page (k - 1);
      mret (h', page)
    else mret acc
  else mret acc.

Fixpoint FindVictim_loop (t : Z) (acc : Z * T) (pages : list T) : M LRU_K (Z * T) :=
  match pages with
  | [] => mret acc
  | page :: rest =>
      acc' ← FindVictim_step t acc page;
      FindVictim_loop t acc' rest
  end.

Definition FindVictim (t : Z) : M LRU_K T :=
  buf ← gets Buffer;
  acc ← FindVictim_loop t (t, zeroT)
          (match buf with Some b => range_order b | None => [] end);
  mret acc.2.

Definition NewLRU (k cap crp : Z) : LRU_K :=
  mkLRU_K k ∅ crp 0 ∅ None cap.

Fixpoint for_loop (n : nat) (i : Z) (body : Z → M LRU_K unit) : M LRU_K unit :=
  match n with
  | O => mret tt
  | S n' => body i;; for_loop n' (i + 1) body
  end.

(** [Set]; [t] is the value of [time.Now().Unix()] read by the call. *)
Definition Set_ (t : Z) (key : T) (data : LRUK.bytes) : M LRU_K bool :=
  s ← gets id;
  k ← gets K;
  (match buffer_lookup s key with
   | Some _ =>
       time_of_last_reference ← Last_Get key;
       crp ← gets CRP;
       (if LRUK.sub64 t time_of_last_reference >? crp then
          l ← Last_Get key;
          h0 ← Hist_Get key 0;
          let correl_period_of_refd_page := LRUK.sub64 l h0 in
          for_loop (Z.to_nat (k - 1)) 1 (λ i,
            prev_reference_time ← Hist_Get key (i - 1);
            Hist_Set key i (LRUK.add64 prev_reference_time correl_period_of_refd_page));;
          Hist_Set key 0 t;;
          Last_Set key t
        else Last_Set key t);;
       buffer_assign key data
   | None =>
       cap ← gets Cap;
       if buffer_len s <? cap then buffer_assign key data
       else
         victim ← FindVictim t;
         buffer_delete victim
   end);;
  mret true.

End Model.

End LRUK0.

(** * Proofs *)

(** ** Running the monad *)

Module GoLemmas.

Lemma run_bind {S A B} (m : M S A) (k : A → M S B) s a s' :
  run m s = Returned a s' → run (m ≫= k) s = run (k a) s'.
Proof. intros Hm. unfold mbind, go_mbind, bind. simpl. by rewrite Hm. Qed.

Lemma run_bind_panic {S A B} (m : M S A) (k : A → M S B) s msg s' :
  run m s = Panicked msg s' → run (m ≫= k) s = Panicked msg s'.
Proof. intros Hm. unfold mbind, go_mbind, bind. simpl. by rewrite Hm. Qed.

Lemma run_ret {S A} (a : A) (s : S) : run (mret a) s = Returned a s.
Proof. reflexivity. Qed.

Lemma run_gets {S A} (f : S → A) s : run (gets f) s = Returned (f s) s.
Proof. reflexivity. Qed.

Lemma run_modify {S} (f : S → S) s : run (modify f) s = Returned tt (f s).
Proof. reflexivity. Qed.

Lemma run_panic {S A} msg (s : S) : run (panic (A:=A) msg) s = Panicked msg s.
Proof. reflexivity. Qed.

Lemma bind_ret {S A B} (a : A) (k : A → M S B) s : run (mret a ≫= k) s = run (k a) s.
Proof. reflexivity. Qed.

Lemma bind_gets {S A B} (f : S → A) (k : A → M S B) s : run (gets f ≫= k) s = run (k (f s)) s.
Proof. reflexivity. Qed.

Lemma bind_modify {S B} (f : S → S) (k : unit → M S B) s :
  run (modify f ≫= k) s = run (k tt) (f s).
Proof. reflexivity. Qed.

Lemma bind_panic {S A B} msg (k : A → M S B) s :
  run (panic msg ≫= k) s = Panicked msg s.
Proof. reflexivity. Qed.

Lemma bind_assoc {S A B C} (m : M S A) (k : A → M S B) (k' : B → M S C) s :
  run ((m ≫= k) ≫= k') s = run (m ≫= (λ a, k a ≫= k')) s.
Proof. unfold mbind, go_mbind, bind. simpl. by destruct (run m s). Qed.

Lemma run_bind_inv {S A B} (m : M S A) (k : A → M S B) s b s' :
  run (m ≫= k) s = Returned b s' →
  ∃ a s1, run m s = Returned a s1 ∧ run (k a) s1 = Returned b s'.
Proof.
  unfold mbind, go_mbind, bind. simpl. destruct (run m s) as [a s1| |]; [eauto|done..].
Qed.

End GoLemmas.
Export GoLemmas.

Ltac go :=
  repeat first
    [ rewrite bind_gets | rewrite bind_modify | rewrite bind_ret | rewrite bind_panic
    | rewrite run_gets | rewrite run_modify | rewrite run_ret | rewrite run_panic ];
  cbv beta.

Ltac go_with H := rewrite (run_bind _ _ _ _ _ H); cbv beta.

(** [go], reassociating binds on the way. *)
Ltac gos := repeat first [rewrite bind_assoc | progress go].

(** ** LRU-K *)

Module LRUKProofs.
Import LRUK.

Section Proofs.
Context {T : Type} `{Countable T}.
Variable zeroT : T.


Lemma last_get_Some (s : LRU_K (T:=T)) p l :
  LAST_at s p = Some l → run (last_get p) s = Returned l s.
Proof. unfold LAST_at, last_get. go. by intros ->. Qed.

Lemma hist_get_Some (s : LRU_K (T:=T)) p i h :
  0 ≤ i → HIST_at s p i = Some h → run (hist_get p i) s = Returned h s.
Proof.
  unfold HIST_at, hist_get. go. intros Hi Hh.
  destruct (HIST s !! p) as [v|]; simpl in Hh; [|done].
  destruct (Z.ltb_spec i 0); [lia|]. by rewrite Hh.
Qed.

Lemma FindVictim_step_run (s : LRU_K (T:=T)) t acc page l h :
  1 ≤ K s → LAST_at s page = Some l → HIST_at s page (K s - 1) = Some h →
  run (FindVictim_step t acc page) s = Returned (pick_step s t acc page) s.
Proof.
  intros HK Hl Hh. unfold FindVictim_step, pick_step. rewrite Hl, Hh.
  go_with (last_get_Some _ _ _ Hl). go.
  destruct (sub64 t l >? CRP s); [|done].
  assert (0 ≤ K s - 1) as H0 by lia.
  go_with (hist_get_Some _ _ _ _ H0 Hh).
  destruct (h <? acc.1); [|done].
  go_with (hist_get_Some _ _ _ _ H0 Hh). done.
Qed.

Lemma FindVictim_loop_run (s : LRU_K (T:=T)) t pages : ∀ acc,
  1 ≤ K s →
  Forall (λ p, is_Some (LAST_at s p) ∧ is_Some (HIST_at s p (K s - 1))) pages →
  run (FindVictim_loop t acc pages) s = Returned (foldl (pick_step s t) acc pages) s.
Proof.
  induction pages as [|p pages IH]; intros acc HK Hall; [done|].
  apply Forall_cons in Hall as [[[l Hl] [h Hh]] Hall]. cbn [FindVictim_loop].
  go_with (FindVictim_step_run _ t acc _ _ _ HK Hl Hh).
  by apply IH.
Qed.

(** The fold keeps a least candidate of the pages met so far. *)
Lemma pick_fold (s : LRU_K (T:=T)) t pages : ∀ m v,
  let r := foldl (pick_step s t) (m, v) pages in
  r.1 ≤ m ∧
  (r = (m, v) ∨
   (r.2 ∈ pages ∧ r.1 < m ∧ HIST_at s r.2 (K s - 1) = Some r.1 ∧
    ∃ l, LAST_at s r.2 = Some l ∧ sub64 t l > CRP s)) ∧
  (∀ p l h, p ∈ pages → LAST_at s p = Some l → sub64 t l > CRP s →
            HIST_at s p (K s - 1) = Some h → r.1 ≤ h).
Proof.
  induction pages as [|p pages IH]; intros m v; simpl.
  { split; [lia|]. split; [by left|]. intros ??? Hin. by apply elem_of_nil in Hin. }
  specialize (IH (pick_step s t (m, v) p).1 (pick_step s t (m, v) p).2).
  rewrite <- surjective_pairing in IH. simpl in IH.
  destruct IH as (Hle & Hcase & Hmin).
  set (r := foldl (pick_step s t) (pick_step s t (m, v) p) pages) in *.
  assert (Hstep : (pick_step s t (m, v) p = (m, v) ∧
                   (∀ l h, LAST_at s p = Some l → sub64 t l > CRP s →
                           HIST_at s p (K s - 1) = Some h → m ≤ h)) ∨
                  (∃ l h, LAST_at s p = Some l ∧ sub64 t l > CRP s ∧
                          HIST_at s p (K s - 1) = Some h ∧ h < m ∧
                          pick_step s t (m, v) p = (h, p))).
  { unfold pick_step.
    destruct (LAST_at s p) as [l|] eqn:Hl; [|left; split; [done|congruence]].
    destruct (HIST_at s p (K s - 1)) as [h|] eqn:Hh; [|left; split; [done|congruence]].
    simpl. destruct (Z.gtb_spec (sub64 t l) (CRP s)); simpl.
    - destruct (Z.ltb_spec h m).
      + right. exists l, h. repeat split; try done. lia.
      + left. split; [done|]. intros ?? [= <-] _ [= <-]. done.
    - left. split; [done|]. intros ?? [= <-] ?. lia. }
  destruct Hstep as [[Heq Hp]|(l & h & Hl & Hgt & Hh & Hlt & Heq)];
    rewrite Heq in *; simpl in *.
  - split; [done|]. split.
    + destruct Hcase as [->|(Hin & ? & ? & ?)]; [by left|right].
      split; [by apply elem_of_cons; right|done].
    + intros q l h Hq Hl Hgt Hh. apply elem_of_cons in Hq as [->|Hq]; [|by eapply Hmin].
      specialize (Hp _ _ Hl Hgt Hh). lia.
  - split; [lia|]. split.
    + right. destruct Hcase as [Hr|(Hin & ? & ? & ?)].
      * rewrite Hr. simpl. split; [by apply elem_of_cons; left|].
        split; [done|]. split; [done|]. by exists l.
      * split; [by apply elem_of_cons; right|]. split; [lia|done].
    + intros q l' h' Hq Hl' Hgt' Hh'. apply elem_of_cons in Hq as [->|Hq]; [|by eapply Hmin].
      rewrite Hh in Hh'. injection Hh' as <-. done.
Qed.


Lemma has_history_pages (range_order : gmap T bytes → list T) (s : LRU_K (T:=T)) :
  (∀ m, range_order m ≡ₚ map_keys m) → has_history s →
  (∀ p, p ∈ range_order (Buffer s) ↔ is_Some (Buffer s !! p)) ∧
  Forall (λ p, is_Some (LAST_at s p) ∧ is_Some (HIST_at s p (K s - 1)))
         (range_order (Buffer s)).
Proof.
  intros Hperm [_ Hall].
  assert (Hin : ∀ p, p ∈ range_order (Buffer s) ↔ is_Some (Buffer s !! p)).
  { intros p. rewrite (Hperm (Buffer s)). unfold map_keys.
    rewrite list_elem_of_fmap. split.
    - intros ([q d] & -> & Hq). apply elem_of_map_to_list in Hq. by exists d.
    - intros [d Hd]. exists (p, d). split; [done|]. by apply elem_of_map_to_list. }
  split; [done|]. apply Forall_forall. intros p Hp. apply Hin in Hp as [d Hd].
  exact (Hall p d Hd).
Qed.

(** C3, amended. [FindVictim] returns without changing the state; its
    result has the least [HIST(·, K−1)] among the resident keys with
    [t − LAST(p) > CRP] and [HIST(p, K−1) < t], and it is the zero key
    when no resident key passes both tests. *)
Theorem FindVictim_least_candidate (range_order : gmap T bytes → list T)
    (s : LRU_K (T:=T)) (t : Z) :
  (∀ m, range_order m ≡ₚ map_keys m) →
  has_history s →
  ∃ v, run (FindVictim zeroT range_order t) s = Returned v s ∧
       victim_amended zeroT s t v.
Proof.
  intros Hperm Hhist. destruct (has_history_pages _ _ Hperm Hhist) as [Hin Hall].
  destruct Hhist as [HK _].
  exists (foldl (pick_step s t) (t, zeroT) (range_order (Buffer s))).2.
  split.
  { unfold FindVictim. go.
    go_with (FindVictim_loop_run s t _ (t, zeroT) HK Hall). by go. }
  destruct (pick_fold s t (range_order (Buffer s)) t zeroT) as (_ & Hcase & Hmin).
  set (r := foldl (pick_step s t) (t, zeroT) (range_order (Buffer s))) in *.
  assert (Hcand : r ≠ (t, zeroT) → candidate s t r.2).
  { intros Hne. destruct Hcase as [?|(Hr & Hlt & Hh & l & Hl & Hgt)]; [done|].
    split; [split; [by apply Hin|by exists l]|]. by exists r.1. }
  split.
  - intros (p & [[Hp (l & Hl & Hgt)] (h & Hh & Hlt)]).
    assert (r.1 ≤ h) as Hle by (eapply Hmin; [by apply Hin|done..]).
    assert (r ≠ (t, zeroT)) as Hne by (intros Hr; rewrite Hr in Hle; simpl in Hle; lia).
    split; [by apply Hcand|].
    intros q [[Hq (lq & Hlq & Hgtq)] (hq & Hhq & Hltq)].
    destruct Hcase as [?|(_ & _ & Hh' & _)]; [done|].
    exists r.1, hq. split; [done|]. split; [done|].
    eapply Hmin; [by apply Hin|done..].
  - intros Hnone. destruct (decide (r = (t, zeroT))) as [->|Hne]; [done|].
    destruct (Hnone _ (Hcand Hne)).
Qed.

(** *** [Set], branch by branch *)

Lemma with_HIST_twice (s : LRU_K (T:=T)) key h h' :
  with_HIST (<[key := h']>) (with_HIST (<[key := h]>) s) = with_HIST (<[key := h']>) s.
Proof. unfold with_HIST. simpl. by rewrite insert_insert_eq. Qed.

Lemma with_HIST_same (s : LRU_K (T:=T)) key h :
  HIST s !! key = Some h → with_HIST (<[key := h]>) s = s.
Proof. intros Hh. destruct s. unfold with_HIST. simpl in *. by rewrite insert_id. Qed.

Lemma hist_get_run (s : LRU_K (T:=T)) key i h x :
  HIST s !! key = Some h → 0 ≤ i → h !! Z.to_nat i = Some x →
  run (hist_get key i) s = Returned x s.
Proof.
  intros Hh Hi Hx. apply hist_get_Some; [done|]. unfold HIST_at. by rewrite Hh.
Qed.

Lemma hist_set_run (s : LRU_K (T:=T)) key i time h :
  HIST s !! key = Some h → 0 ≤ i < Z.of_nat (length h) →
  run (hist_set key i time) s
    = Returned tt (with_HIST (<[key := <[Z.to_nat i := time]> h]>) s).
Proof.
  intros Hh Hi. unfold hist_set. go. rewrite Hh.
  destruct (Z.ltb_spec i 0); [lia|].
  destruct (Z.leb_spec (Z.of_nat (length h)) i); [lia|]. simpl. by go.
Qed.

Lemma shift_from_length f n : ∀ i h, length (shift_from f n i h) = length h.
Proof.
  induction n as [|n IH]; intros i h; [done|]. simpl. by rewrite IH, length_insert.
Qed.

(** The shift loop of [Set] on the history vector of [key]. *)
Lemma shift_loop_run (f : Z → Z) key n : ∀ (i : nat) h (s : LRU_K (T:=T)),
  HIST s !! key = Some h → (1 ≤ i)%nat → (i + n ≤ length h)%nat →
  run (for_loop n (Z.of_nat i)
         (λ j, prev_reference_time ← hist_get key (j - 1);
               hist_set key j (f prev_reference_time))) s
    = Returned tt (with_HIST (<[key := shift_from f n i h]>) s).
Proof.
  induction n as [|n IH]; intros i h s Hh Hi Hlen; cbn [for_loop shift_from].
  { go. by rewrite with_HIST_same. }
  assert (is_Some (h !! (i - 1)%nat)) as [x Hx] by (apply lookup_lt_is_Some; lia).
  rewrite bind_assoc.
  erewrite run_bind; [|apply (hist_get_run s key _ h x); [done|lia|]]; cbv beta.
  2:{ by replace (Z.to_nat (Z.of_nat i - 1)) with (i - 1)%nat by lia. }
  erewrite run_bind; [|apply (hist_set_run _ _ _ _ h); [done|lia]]; cbv beta.
  rewrite Nat2Z.id, Hx. simpl.
  replace (Z.of_nat i + 1) with (Z.of_nat (S i)) by lia.
  rewrite (IH (S i) (<[i := f x]> h)); [by rewrite with_HIST_twice| |lia|].
  - simpl. by rewrite lookup_insert_eq.
  - rewrite length_insert. lia.
Qed.

Section SetBranches.
Variable range_order : gmap T bytes → list T.

(** A correlated reference: [t − LAST(key) ≤ CRP]. *)
Lemma Set_correlated_run (s : LRU_K (T:=T)) t key data d l :
  Buffer s !! key = Some d → LAST s !! key = Some l → sub64 t l ≤ CRP s →
  run (Set_ zeroT range_order t key data) s
    = Returned true
        (mkLRU_K (K s) (HIST s) (<[key := t]> (LAST s)) (CRP s) (RIP s)
                 (<[key := data]> (Buffer s)) (Cap s)).
Proof.
  intros Hb Hl Hle. unfold Set_. go. rewrite Hb.
  gos. go_with (last_get_Some s key l Hl). gos.
  destruct (Z.gtb_spec (sub64 t l) (CRP s)); [lia|].
  unfold last_set. by gos.
Qed.

(** An uncorrelated reference: [t − LAST(key) > CRP]. *)
Lemma Set_uncorrelated_run (s : LRU_K (T:=T)) t key data d l h0 hs :
  Buffer s !! key = Some d → LAST s !! key = Some l →
  HIST s !! key = Some (h0 :: hs) → K s ≤ Z.of_nat (length (h0 :: hs)) →
  sub64 t l > CRP s →
  run (Set_ zeroT range_order t key data) s
    = Returned true
        (mkLRU_K (K s)
           (<[key := t :: tail (shift_from (λ p, add64 p (sub64 l h0))
                                           (Z.to_nat (K s - 1)) 1 (h0 :: hs))]> (HIST s))
           (<[key := t]> (LAST s)) (CRP s) (RIP s)
           (<[key := data]> (Buffer s)) (Cap s)).
Proof.
  intros Hb Hl Hh HK Hgt. unfold Set_. go. rewrite Hb.
  gos. go_with (last_get_Some s key l Hl). gos.
  destruct (Z.gtb_spec (sub64 t l) (CRP s)); [|lia].
  gos. go_with (last_get_Some s key l Hl).
  gos. go_with (hist_get_run s key 0 (h0 :: hs) h0 Hh (Z.le_refl 0) eq_refl).
  gos.
  erewrite run_bind;
    [|apply (shift_loop_run (λ p, add64 p (sub64 l h0)) key _ 1 (h0 :: hs) s Hh);
      [lia|simpl in *; lia]]; cbv beta.
  set (h' := shift_from _ _ _ _).
  assert (length h' = length (h0 :: hs)) as Hlen by apply shift_from_length.
  gos.
  erewrite run_bind; [|apply (hist_set_run _ key 0 t h');
                       [simpl; by rewrite lookup_insert_eq|simpl in *; lia]]; cbv beta.
  rewrite with_HIST_twice. unfold last_set. gos.
  destruct h' as [|x h']; [done|]. done.
Qed.

(** A new key while the buffer has room. *)
Lemma Set_new_run (s : LRU_K (T:=T)) t key data :
  Buffer s !! key = None → len (Buffer s) < Cap s → 1 ≤ K s →
  run (Set_ zeroT range_order t key data) s
    = Returned true
        (mkLRU_K (K s) (<[key := t :: replicate (Z.to_nat (K s - 1)) 0]> (HIST s))
                 (<[key := t]> (LAST s)) (CRP s) (RIP s)
                 (<[key := data]> (Buffer s)) (Cap s)).
Proof.
  intros Hb Hlt HK. unfold Set_. go. rewrite Hb. gos.
  destruct (Z.ltb_spec (len (Buffer s)) (Cap s)); [|lia].
  unfold last_set, hist_init. gos.
  destruct (Z.ltb_spec (K s) 0); [lia|]. gos.
  erewrite run_bind; [|apply (hist_set_run _ key 0 t (replicate (Z.to_nat (K s)) 0));
                       [simpl; by rewrite lookup_insert_eq|rewrite length_replicate; lia]];
    cbv beta.
  gos. unfold with_HIST. simpl. rewrite insert_insert_eq.
  replace (Z.to_nat (K s)) with (S (Z.to_nat (K s - 1))) by lia. done.
Qed.

Lemma hist_ok_has_history (s : LRU_K (T:=T)) : hist_ok s → has_history s.
Proof.
  intros (HK & Hlen & Hbuf). split; [done|]. intros p d Hp.
  destruct (Hbuf p) as [Hl [h Hh]]; [by eexists|]. split; [done|].
  unfold HIST_at. rewrite Hh. simpl. apply lookup_lt_is_Some.
  specialize (Hlen _ _ Hh). lia.
Qed.

Lemma FindVictim_run (s : LRU_K (T:=T)) t :
  (∀ m, range_order m ≡ₚ map_keys m) → has_history s →
  run (FindVictim zeroT range_order t) s
    = Returned (foldl (pick_step s t) (t, zeroT) (range_order (Buffer s))).2 s.
Proof.
  intros Hperm Hhist. destruct (has_history_pages _ _ Hperm Hhist) as [Hin Hall].
  destruct Hhist as [HK _]. unfold FindVictim. go.
  go_with (FindVictim_loop_run s t _ (t, zeroT) HK Hall). by go.
Qed.

(** A new key while the buffer is full: the key [FindVictim] gives
    leaves the buffer and [LAST], and keeps its history. *)
Lemma Set_evict_run (s : LRU_K (T:=T)) t key data :
  (∀ m, range_order m ≡ₚ map_keys m) → hist_ok s →
  Buffer s !! key = None → Cap s ≤ len (Buffer s) →
  let victim := (foldl (pick_step s t) (t, zeroT) (range_order (Buffer s))).2 in
  run (Set_ zeroT range_order t key data) s
    = Returned true
        (mkLRU_K (K s)
           (<[key := t :: match HIST s !! key with
                          | Some h => tail (shift_from (λ p, p) (Z.to_nat (K s - 1)) 1 h)
                          | None => replicate (Z.to_nat (K s - 1)) 0
                          end]> (HIST s))
           (<[key := t]> (delete victim (LAST s))) (CRP s) (RIP s)
           (<[key := data]> (delete victim (Buffer s))) (Cap s)).
Proof.
  intros Hperm Hok Hb Hfull victim. pose proof Hok as (HK & Hlen & _).
  unfold Set_. go. rewrite Hb. gos.
  destruct (Z.ltb_spec (len (Buffer s)) (Cap s)); [lia|].
  destruct (Z.geb_spec (len (Buffer s)) (Cap s)); [|lia].
  gos. go_with (FindVictim_run s t Hperm (hist_ok_has_history _ Hok)). fold victim.
  unfold last_delete, hist_exists, last_set. gos. cbn [HIST with_Buffer with_LAST].
  destruct (HIST s !! key) as [h|] eqn:Hh.
  - rewrite bool_decide_true by eauto. cbn [negb]. gos.
    specialize (Hlen _ _ Hh).
    erewrite run_bind;
      [|apply (shift_loop_run (λ p, p) key _ 1 h); [exact Hh|lia|lia]]; cbv beta.
    set (h' := shift_from _ _ _ _).
    assert (length h' = length h) as Hlen' by apply shift_from_length.
    gos.
    erewrite run_bind; [|apply (hist_set_run _ key 0 t h');
                         [simpl; by rewrite lookup_insert_eq|lia]]; cbv beta.
    gos. unfold with_HIST. simpl. rewrite insert_insert_eq.
    destruct h' as [|x h']; [simpl in *; lia|]. done.
  - rewrite bool_decide_false by (by intros []). cbn [negb]. unfold hist_init.
    destruct (Z.ltb_spec (K s) 0); [lia|]. gos.
    erewrite run_bind; [|apply (hist_set_run _ key 0 t (replicate (Z.to_nat (K s)) 0));
                         [simpl; by rewrite lookup_insert_eq|rewrite length_replicate; lia]];
      cbv beta.
    gos. unfold with_HIST. simpl. rewrite insert_insert_eq.
    replace (Z.to_nat (K s)) with (S (Z.to_nat (K s - 1))) by lia. done.
Qed.

End SetBranches.

(** *** What the shift loop computes *)

Lemma shift_from_ramp (f : Z → Z) n : ∀ pre x hs,
  (n ≤ length hs)%nat →
  shift_from f n (S (length pre)) (pre ++ x :: hs)
    = pre ++ x :: ramp f n (f x) ++ drop n hs.
Proof.
  induction n as [|n IH]; intros pre x hs Hn; [done|].
  destruct hs as [|y hs]; [simpl in Hn; lia|]. cbn [shift_from ramp drop].
  replace (S (length pre) - 1)%nat with (length pre + 0)%nat by lia.
  rewrite lookup_app_r, Nat.add_comm, Nat.add_sub by lia. simpl.
  replace (S (length pre)) with (length pre + 1)%nat at 2 by lia.
  rewrite insert_app_r. simpl.
  specialize (IH (pre ++ [x]) (f x) hs). rewrite length_app in IH. simpl in IH.
  replace (length pre + 1)%nat with (S (length pre)) in IH by lia.
  rewrite <- !app_assoc in IH. simpl in IH. rewrite IH by (simpl in Hn; lia). done.
Qed.

Lemma shift_from_all (f : Z → Z) h0 hs :
  shift_from f (length hs) 1 (h0 :: hs) = h0 :: ramp f (length hs) (f h0).
Proof.
  pose proof (shift_from_ramp f (length hs) [] h0 hs (Nat.le_refl _)) as Hr.
  simpl in Hr. by rewrite Hr, drop_all, app_nil_r.
Qed.

Lemma ramp_length (f : Z → Z) n : ∀ x, length (ramp f n x) = n.
Proof. induction n as [|n IH]; intros x; simpl; [done|by rewrite IH]. Qed.

Lemma ramp_id n (x : Z) : ramp (λ p, p) n x = replicate n x.
Proof. induction n as [|n IH]; simpl; [done|by rewrite IH]. Qed.

Lemma wrap64_add (a c : Z) : add64 (wrap64 a) c = wrap64 (a + c).
Proof.
  unfold add64, wrap64.
  replace ((a + 2 ^ 63) `mod` 2 ^ 64 - 2 ^ 63 + c + 2 ^ 63)
    with ((a + 2 ^ 63) `mod` 2 ^ 64 + c) by lia.
  rewrite Zplus_mod_idemp_l. f_equal. f_equal. lia.
Qed.

(** With [f = (+ c)] in [int64], entry [i] of the ramp from [h0 + c] is
    [h0 + (i + 1) c]. *)
Lemma ramp_add64 (c : Z) n : ∀ a (i : nat),
  (i < n)%nat →
  ramp (λ p, add64 p c) n (wrap64 a) !! i = Some (wrap64 (a + Z.of_nat i * c)).
Proof.
  induction n as [|n IH]; intros a i Hi; [lia|]. destruct i as [|i]; simpl.
  - do 2 f_equal. lia.
  - rewrite wrap64_add, IH by lia. do 2 f_equal. lia.
Qed.

(** *** Properties of [Set] *)

Section SetTheorems.
Variable range_order : gmap T bytes → list T.

(** [Set] of a key that is not in the buffer, while the buffer has room
    and [K ≥ 1], returns [true]: the key gets the bytes, [LAST = t] and a
    history of [K] entries, [t] followed by zeros; nothing else changes. *)
Theorem Set_new_key_with_room (s : LRU_K (T:=T)) t key data :
  Buffer s !! key = None → len (Buffer s) < Cap s → 1 ≤ K s →
  ∃ s', run (Set_ zeroT range_order t key data) s = Returned true s' ∧
        Buffer s' = <[key := data]> (Buffer s) ∧
        LAST s' = <[key := t]> (LAST s) ∧
        HIST s' = <[key := t :: replicate (Z.to_nat (K s - 1)) 0]> (HIST s) ∧
        same_config s s' ∧
        run (Get key) s' = Returned (Some data) s'.
Proof.
  intros Hb Hlt HK. eexists. split; [by apply Set_new_run|].
  split; [done|]. split; [done|]. split; [done|]. split; [done|].
  unfold Get. go. simpl. by rewrite lookup_insert_eq.
Qed.

(** [NewLRU] does not check [K]. With [K ≤ 0], [Set] of a new key into a
    buffer with room panics, on the empty history vector or in
    [make([]int64, K)], after it has stored the key in the buffer and in
    [LAST]. *)
Theorem Set_needs_positive_K (s : LRU_K (T:=T)) t key data :
  Buffer s !! key = None → len (Buffer s) < Cap s → K s ≤ 0 →
  ∃ msg s', run (Set_ zeroT range_order t key data) s = Panicked msg s' ∧
            Buffer s' = <[key := data]> (Buffer s) ∧
            LAST s' = <[key := t]> (LAST s).
Proof.
  intros Hb Hlt HK. unfold Set_. go. rewrite Hb. gos.
  destruct (Z.ltb_spec (len (Buffer s)) (Cap s)); [|lia].
  unfold last_set, hist_init. gos.
  destruct (Z.ltb_spec (K s) 0).
  - gos. by eexists _, _.
  - gos. unfold hist_set. gos. simpl. rewrite lookup_insert_eq.
    replace (K s) with 0 by lia. simpl. gos. by eexists _, _.
Qed.

(** A correlated reference, [t − LAST(key) ≤ CRP] on a resident key,
    replaces the bytes and sets [LAST(key) = t]; the history of the key
    and everything else stay as they are. *)
Theorem Set_correlated_touches_LAST_only (s : LRU_K (T:=T)) t key data d l :
  Buffer s !! key = Some d → LAST s !! key = Some l → sub64 t l ≤ CRP s →
  ∃ s', run (Set_ zeroT range_order t key data) s = Returned true s' ∧
        Buffer s' = <[key := data]> (Buffer s) ∧
        LAST s' = <[key := t]> (LAST s) ∧
        HIST s' = HIST s ∧ same_config s s'.
Proof.
  intros Hb Hl Hle. eexists. split; [by eapply Set_correlated_run|]. by repeat split.
Qed.

(** An uncorrelated reference, [t − LAST(key) > CRP] on a resident key
    whose history [h0, ...] has [K] entries: with
    [correl = LAST(key) − h0], the new history is [t] followed by
    [h0 + correl, h0 + 2 correl, ...] in [int64], because the loop reads
    the entries it has just written; [LAST(key) = t] and the bytes are
    replaced. *)
Theorem Set_uncorrelated_ramp (s : LRU_K (T:=T)) t key data d l h0 hs :
  Buffer s !! key = Some d → LAST s !! key = Some l →
  HIST s !! key = Some (h0 :: hs) → Z.of_nat (length (h0 :: hs)) = K s →
  sub64 t l > CRP s →
  ∃ s' h', run (Set_ zeroT range_order t key data) s = Returned true s' ∧
        Buffer s' = <[key := data]> (Buffer s) ∧
        LAST s' = <[key := t]> (LAST s) ∧
        HIST s' = <[key := t :: h']> (HIST s) ∧
        length h' = length hs ∧
        (∀ i : nat, (i < length hs)%nat →
           h' !! i = Some (wrap64 (h0 + (Z.of_nat i + 1) * sub64 l h0))) ∧
        same_config s s'.
Proof.
  intros Hb Hl Hh HK Hgt.
  eexists _, (ramp (λ p, add64 p (sub64 l h0)) (length hs) (add64 h0 (sub64 l h0))).
  split.
  { rewrite (Set_uncorrelated_run _ s t key data d l h0 hs) by (done || lia).
    replace (Z.to_nat (K s - 1)) with (length hs) by (simpl in HK; lia).
    by rewrite shift_from_all. }
  split; [done|]. split; [done|]. split; [done|]. split; [apply ramp_length|].
  split; [|done]. intros i Hi. unfold add64 at 2.
  rewrite ramp_add64 by done. do 2 f_equal. lia.
Qed.

(** [Set] of a key that is not in the buffer, while the buffer is full:
    the key [v] given by [FindVictim] is deleted from the buffer and from
    [LAST] and keeps its history. The buffer keeps its size when [v] was
    resident and grows by one when it was not. A key that comes back with
    a history [h0, ...] gets [t] followed by copies of [h0], because the
    loop reads the entries it has just written. *)
Theorem Set_on_full_buffer (s : LRU_K (T:=T)) t key data :
  (∀ m, range_order m ≡ₚ map_keys m) → hist_ok s →
  Buffer s !! key = None → Cap s ≤ len (Buffer s) →
  ∃ v s', run (FindVictim zeroT range_order t) s = Returned v s ∧
        run (Set_ zeroT range_order t key data) s = Returned true s' ∧
        Buffer s' = <[key := data]> (delete v (Buffer s)) ∧
        LAST s' = <[key := t]> (delete v (LAST s)) ∧
        (∀ p, p ≠ key → HIST s' !! p = HIST s !! p) ∧
        (∀ h0 hs, HIST s !! key = Some (h0 :: hs) →
                  HIST s' !! key = Some (t :: replicate (length hs) h0)) ∧
        (HIST s !! key = None →
         HIST s' !! key = Some (t :: replicate (Z.to_nat (K s - 1)) 0)) ∧
        (is_Some (Buffer s !! v) → size (Buffer s') = size (Buffer s)) ∧
        (Buffer s !! v = None → size (Buffer s') = S (size (Buffer s))) ∧
        same_config s s'.
Proof.
  intros Hperm Hok Hb Hfull. pose proof Hok as (HK & Hlen & _).
  set (v := (foldl (pick_step s t) (t, zeroT) (range_order (Buffer s))).2).
  exists v. eexists. split; [by apply FindVictim_run, hist_ok_has_history|].
  split; [by apply Set_evict_run|]. cbn [Buffer LAST HIST]. fold v.
  split; [done|]. split; [done|].
  split; [intros p Hp; by rewrite lookup_insert_ne|].
  split.
  { intros h0 hs Hh. rewrite Hh, lookup_insert_eq. specialize (Hlen _ _ Hh).
    replace (Z.to_nat (K s - 1)) with (length hs) by (simpl in Hlen; lia).
    by rewrite shift_from_all, ramp_id. }
  split; [intros Hh; by rewrite Hh, lookup_insert_eq|].
  split; [|split; [|done]].
  - intros Hv. rewrite map_size_insert_None by (by rewrite lookup_delete_None; right).
    rewrite map_size_delete_Some by done.
    destruct Hv as [x Hx]. assert (size (Buffer s) ≠ 0)%nat; [|lia].
    intros Hz. apply map_size_empty_inv in Hz. by rewrite Hz in Hx.
  - intros Hv. rewrite map_size_insert_None by (by rewrite lookup_delete_None; right).
    by rewrite map_size_delete_None.
Qed.

Lemma tail_length (l : list Z) : length (tail l) = (length l - 1)%nat.
Proof. destruct l; simpl; lia. Qed.

(** [Set] keeps the invariant, whichever branch it takes. *)
Lemma Set_hist_ok (s : LRU_K (T:=T)) t key data :
  (∀ m, range_order m ≡ₚ map_keys m) → hist_ok s →
  ∃ s', run (Set_ zeroT range_order t key data) s = Returned true s' ∧
        hist_ok s' ∧ same_config s s' ∧
        Buffer s' !! key = Some data ∧ LAST s' !! key = Some t ∧
        (∀ p, p ≠ key → Buffer s' !! p = Buffer s !! p ∨ Buffer s' !! p = None).
Proof.
  intros Hperm Hok. pose proof Hok as (HK & Hlen & Hbuf).
  assert (Hins : ∀ (B : gmap T bytes) (L : gmap T Z) h,
    Z.of_nat (length h) = K s →
    (∀ p, p ≠ key → is_Some (B !! p) → is_Some (L !! p) ∧ is_Some (HIST s !! p)) →
    hist_ok (mkLRU_K (K s) (<[key := h]> (HIST s)) (<[key := t]> L) (CRP s) (RIP s)
                     (<[key := data]> B) (Cap s))).
  { intros B L h Hh HB. split; [done|]. split; simpl.
    - intros p h' [[<- <-]|[_ Hp]]%lookup_insert_Some; [done|by eapply Hlen].
    - intros p. destruct (decide (p = key)) as [->|Hne].
      + intros _. rewrite !lookup_insert_eq. by split.
      + rewrite !lookup_insert_ne by done. by apply HB. }
  assert (Hdel : ∀ v p, p ≠ key → is_Some (delete v (Buffer s) !! p) →
                        is_Some (delete v (LAST s) !! p) ∧ is_Some (HIST s !! p)).
  { intros v p _ [x [Hpv Hp]%lookup_delete_Some]. rewrite lookup_delete_ne by done.
    apply Hbuf. by eexists. }
  destruct (Buffer s !! key) as [d|] eqn:Hb.
  - destruct (Hbuf key) as [[l Hl] [h Hh]]; [by eexists|].
    pose proof (Hlen _ _ Hh) as Hlh.
    destruct h as [|h0 hs]; [simpl in Hlh; lia|].
    destruct (Z.le_gt_cases (sub64 t l) (CRP s)) as [Hle|Hgt].
    + eexists. split; [by eapply Set_correlated_run|]. split; [|split; [done|]].
      * rewrite <- (insert_id (HIST s) key (h0 :: hs)) by done.
        apply Hins; [done|]. intros p _. apply Hbuf.
      * simpl. rewrite !lookup_insert_eq.
        split; [done|]. split; [done|].
        intros p Hp. left. by rewrite lookup_insert_ne.
    + eexists. split; [eapply Set_uncorrelated_run; (done || lia)|].
      split; [|split; [done|]].
      * apply Hins; [|intros p _; apply Hbuf]. simpl.
        rewrite tail_length, shift_from_length. simpl in *. lia.
      * simpl. rewrite !lookup_insert_eq.
        split; [done|]. split; [done|].
        intros p Hp. left. by rewrite lookup_insert_ne.
  - destruct (Z.lt_ge_cases (len (Buffer s)) (Cap s)) as [Hlt|Hge].
    + eexists. split; [by apply Set_new_run|]. split; [|split; [done|]].
      * apply Hins; [|intros p _; apply Hbuf]. simpl. rewrite length_replicate. lia.
      * simpl. rewrite !lookup_insert_eq.
        split; [done|]. split; [done|].
        intros p Hp. left. by rewrite lookup_insert_ne.
    + eexists. split; [by apply Set_evict_run|]. split; [|split; [done|]].
      * apply Hins; [|apply Hdel]. simpl.
        destruct (HIST s !! key) as [h|] eqn:Hh.
        -- specialize (Hlen _ _ Hh). rewrite tail_length, shift_from_length. lia.
        -- rewrite length_replicate. lia.
      * simpl. rewrite !lookup_insert_eq.
        split; [done|]. split; [done|].
        intros p Hp. rewrite lookup_insert_ne by done.
        set (v := (foldl _ _ _).2). destruct (decide (p = v)) as [->|Hpv].
        -- right. by rewrite lookup_delete_eq.
        -- left. by rewrite lookup_delete_ne.
Qed.

Lemma Cleanup_run (s : LRU_K (T:=T)) key :
  run (Cleanup key) s
    = Returned tt (mkLRU_K (K s) (delete key (HIST s)) (delete key (LAST s)) (CRP s)
                           (RIP s) (delete key (Buffer s)) (Cap s)).
Proof. unfold Cleanup, hist_delete, last_delete. by gos. Qed.

Lemma Cleanup_hist_ok (s : LRU_K (T:=T)) key :
  hist_ok s →
  hist_ok (mkLRU_K (K s) (delete key (HIST s)) (delete key (LAST s)) (CRP s)
                   (RIP s) (delete key (Buffer s)) (Cap s)).
Proof.
  intros (HK & Hlen & Hbuf). split; [done|]. split; simpl.
  - intros p h [_ Hp]%lookup_delete_Some. by eapply Hlen.
  - intros p [x [Hne Hp]%lookup_delete_Some]. rewrite !lookup_delete_ne by done.
    apply Hbuf. by eexists.
Qed.

Lemma lruk_reachable_hist_ok (s : LRU_K (T:=T)) :
  (∀ m, range_order m ≡ₚ map_keys m) →
  lruk_reachable zeroT range_order s → hist_ok s.
Proof.
  intros Hperm.
  induction 1 as [k cap crp Hk|s r _ IH|s t key data b s' _ IH Hrun|s key s' _ IH Hrun].
  - split; [done|]. split; simpl; [by intros p h Hp|by intros p [x Hx]].
  - destruct IH as (? & ? & ?). by split.
  - destruct (Set_hist_ok s t key data Hperm IH) as (s1 & Hrun1 & Hok & _).
    rewrite Hrun1 in Hrun. by injection Hrun as _ <-.
  - rewrite Cleanup_run in Hrun. injection Hrun as <-. by apply Cleanup_hist_ok.
Qed.

(** In every state a program reaches from [NewLRU] with [K ≥ 1], [Set]
    returns [true] and never panics, whatever the time, the key and the
    order of the [range] loop. Afterwards [Get] of the key returns the
    bytes just set, [LAST(key)] is [t], every history vector still has [K]
    entries, every key of the buffer still has its [LAST] and [HIST]
    entries, and every other key has its old buffer entry or none. *)
Theorem Set_returns_and_Get_reads_back (s : LRU_K (T:=T)) t key data :
  (∀ m, range_order m ≡ₚ map_keys m) →
  lruk_reachable zeroT range_order s →
  ∃ s', run (Set_ zeroT range_order t key data) s = Returned true s' ∧
        run (Get key) s' = Returned (Some data) s' ∧
        LAST s' !! key = Some t ∧
        hist_ok s' ∧ same_config s s' ∧
        (∀ p, p ≠ key → Buffer s' !! p = Buffer s !! p ∨ Buffer s' !! p = None).
Proof.
  intros Hperm Hok%lruk_reachable_hist_ok; [|done].
  destruct (Set_hist_ok s t key data Hperm Hok)
    as (s' & Hrun & Hok' & Hcfg & Hb & Hl & Hothers).
  exists s'. split; [done|]. split; [unfold Get; go; by rewrite Hb|]. done.
Qed.

(** *** The sweeper *)

Lemma StartCleanup_loop_run pages : ∀ s : LRU_K (T:=T),
  NoDup pages → 1 ≤ K s →
  Forall (λ p, is_Some (HIST_at s p (K s - 1))) pages →
  ∃ s', run (StartCleanup_loop pages) s = Returned tt s' ∧ same_config s s' ∧
        ∀ q, (q ∈ pages → swept s q →
              Buffer s' !! q = None ∧ HIST s' !! q = None ∧ LAST s' !! q = None) ∧
             (¬ (q ∈ pages ∧ swept s q) →
              Buffer s' !! q = Buffer s !! q ∧ HIST s' !! q = HIST s !! q ∧
              LAST s' !! q = LAST s !! q).
Proof.
  induction pages as [|p pages IH]; intros s Hnd HK Hall.
  { exists s. split; [done|]. split; [done|]. intros q. split; [by intros ?%elem_of_nil|done]. }
  apply NoDup_cons in Hnd as [Hp Hnd]. apply Forall_cons in Hall as [[h Hh] Hall].
  cbn [StartCleanup_loop]. gos.
  go_with (hist_get_Some s p (K s - 1) h ltac:(lia) Hh). gos.
  destruct (Z.gtb_spec h (RIP s)) as [Hgt|Hle].
  - go_with (Cleanup_run s p).
    set (s1 := mkLRU_K _ _ _ _ _ _ _).
    assert (Hsame : ∀ q, q ≠ p → HIST_at s1 q (K s - 1) = HIST_at s q (K s - 1)).
    { intros q Hq. unfold HIST_at. simpl. by rewrite lookup_delete_ne. }
    destruct (IH s1 Hnd HK) as (s' & Hrun & (HK' & HC & HR & HCap) & Hq).
    { apply Forall_forall. intros q Hq. rewrite Forall_forall in Hall.
      change (K s1) with (K s). rewrite Hsame; [by apply Hall|]. by intros ->. }
    exists s'. split; [done|]. split; [done|]. intros q.
    destruct (decide (q = p)) as [->|Hne].
    + destruct (Hq p) as [_ Hkeep]. destruct Hkeep as (Hb & Hhi & Hl).
      { by intros [? _]. }
      rewrite Hb, Hhi, Hl. simpl. rewrite !lookup_delete_eq. split; [done|].
      intros Hnot. destruct Hnot. split; [by left|]. exists h. split; [done|lia].
    + assert (Hsw : swept s1 q ↔ swept s q).
      { unfold swept. change (K s1) with (K s). change (RIP s1) with (RIP s).
        by rewrite Hsame. }
      destruct (Hq q) as [Hdel Hkeep]. split.
      * intros [?|Hin]%elem_of_cons Hs; [done|]. apply Hdel; [done|by apply Hsw].
      * intros Hnot. destruct Hkeep as (Hb & Hhi & Hl).
        { intros [Hin Hs]. apply Hnot. split; [by right|by apply Hsw]. }
        rewrite Hb, Hhi, Hl. simpl. by rewrite !lookup_delete_ne.
  - gos. destruct (IH s Hnd HK Hall) as (s' & Hrun & Hcfg & Hq).
    exists s'. split; [done|]. split; [done|]. intros q. destruct (Hq q) as [Hdel Hkeep].
    split.
    + intros [->|Hin]%elem_of_cons Hs; [|by apply Hdel].
      destruct Hs as (h' & Hh' & Hgt). rewrite Hh in Hh'. injection Hh' as <-. lia.
    + intros Hnot. apply Hkeep. intros [Hin Hs]. apply Hnot. split; [by right|done].
Qed.

(** The schedule in which every goroutine runs as soon as it is started,
    on a state where every key of the buffer has a history of [K ≥ 1]
    entries: the pass returns, and exactly the keys of the buffer whose
    [HIST(·, K−1)] is greater than [RIP] are gone from the three maps. *)
Lemma StartCleanup_pass_run (s : LRU_K (T:=T)) :
  (∀ m, range_order m ≡ₚ map_keys m) → hist_ok s →
  ∃ s', run (StartCleanup_pass range_order) s = Returned tt s' ∧ same_config s s' ∧
        ∀ q, (is_Some (Buffer s !! q) → swept s q →
              Buffer s' !! q = None ∧ HIST s' !! q = None ∧ LAST s' !! q = None) ∧
             (¬ (is_Some (Buffer s !! q) ∧ swept s q) →
              Buffer s' !! q = Buffer s !! q ∧ HIST s' !! q = HIST s !! q ∧
              LAST s' !! q = LAST s !! q).
Proof.
  intros Hperm Hok. pose proof (hist_ok_has_history _ Hok) as Hhist.
  destruct (has_history_pages range_order s Hperm Hhist) as [Hin Hall].
  destruct Hok as (HK & _).
  destruct (StartCleanup_loop_run (range_order (Buffer s)) s) as (s' & Hrun & Hcfg & Hq).
  { rewrite (Hperm (Buffer s)). unfold map_keys. apply NoDup_fst_map_to_list. }
  { done. }
  { eapply Forall_impl; [exact Hall|]. by intros p [_ ?]. }
  exists s'. split; [unfold StartCleanup_pass; by go|]. split; [done|].
  intros q. destruct (Hq q) as [Hdel Hkeep]. split.
  - intros Hb. apply Hdel. by apply Hin.
  - intros Hnot. apply Hkeep. intros [Hp Hs]. apply Hnot. split; [by apply Hin|done].
Qed.

(** *** The sweeper and its goroutines, under any schedule *)

Lemma swept_dec (s : LRU_K (T:=T)) q : swept s q ∨ ¬ swept s q.
Proof.
  unfold swept. destruct (HIST_at s q (K s - 1)) as [h|].
  - destruct (Z.gtb_spec h (RIP s)).
    + left. exists h. split; [done|lia].
    + right. intros (h' & E & ?). injection E as <-. lia.
  - right. by intros (h' & E & ?).
Qed.

Lemma untouched_HIST_at (s s' : LRU_K (T:=T)) q i :
  untouched s s' q → HIST_at s' q i = HIST_at s q i.
Proof. intros (_ & E & _). unfold HIST_at. by rewrite E. Qed.

Lemma sweep_run_app sched1 sched2 (c c1 : sweep (T:=T)) :
  sweep_run sched1 c = Next c1 →
  sweep_run (sched1 ++ sched2) c = sweep_run sched2 c1.
Proof.
  revert c. induction sched1 as [|a sched1 IH]; intros c Hrun; cbn [sweep_run app] in *.
  - by injection Hrun as <-.
  - destruct (sweep_act a c); [by apply IH|done..].
Qed.

Section Sweep.

Variable s : LRU_K (T:=T).
Variable pages : list T.
Hypothesis pages_NoDup : NoDup pages.
Hypothesis K_positive : 1 ≤ K s.
Hypothesis pages_resident :
  ∀ p, p ∈ pages → is_Some (Buffer s !! p) ∧ is_Some (HIST_at s p (K s - 1)).

Lemma sweep_inv_start : sweep_inv s pages (mkSweep pages [] s).
Proof.
  exists []. split; [done|]. split; [apply NoDup_nil_2|].
  split; [by intros q ?%elem_of_nil|]. split; [done|].
  intros q. split; [by intros ?%elem_of_nil|done].
Qed.

(** The loop inspects its next key: the read of [HIST] succeeds. *)
Lemma sweep_inspect_inv (c : sweep (T:=T)) p rest :
  sweep_inv s pages c → todo c = p :: rest →
  ∃ c', sweep_act Inspect c = Next c' ∧ todo c' = rest ∧ sweep_inv s pages c'.
Proof.
  intros (seen & Hpages & Hnd & Hst & Hcfg & Hq) Htodo.
  rewrite Htodo in Hpages.
  assert (Hp_in : p ∈ pages).
  { rewrite Hpages. apply elem_of_app. right. by left. }
  assert (Hp_seen : p ∉ seen).
  { pose proof pages_NoDup as Hn. rewrite Hpages in Hn.
    apply NoDup_app in Hn as (_ & Hn & _). intros Hin. apply (Hn _ Hin). by left. }
  destruct (pages_resident p Hp_in) as [[d Hd] [h Hh]].
  destruct (Hq p) as [_ Hkeep]. destruct Hkeep as (Hb & Hhi & Hl); [by intros [? _]|].
  destruct Hcfg as (HK & HC & HR & HCap).
  assert (Hget : run (StartCleanup_inspect p) (cache c) = Returned (h >? RIP s) (cache c)).
  { unfold StartCleanup_inspect. gos.
    erewrite run_bind; [|apply (hist_get_Some _ p _ h); [lia|]]; cbv beta.
    - gos. by rewrite HR.
    - rewrite HK. unfold HIST_at in *. by rewrite Hhi. }
  cbn [sweep_act]. rewrite Htodo, Hb, Hd, Hget.
  eexists. split; [reflexivity|]. split; [done|].
  exists (seen ++ [p]). cbn [todo started cache].
  split; [by rewrite <- app_assoc|].
  assert (Hp_st : p ∉ started c) by (intros Hin; by destruct (Hst p Hin)).
  destruct (Z.gtb_spec h (RIP s)) as [Hgt|Hle].
  - split.
    { apply NoDup_app. split; [done|]. split; [|apply NoDup_singleton].
      intros q Hin ->%list_elem_of_singleton. done. }
    split.
    { intros q [Hin | ->%list_elem_of_singleton]%elem_of_app.
      - destruct (Hst q Hin). split; [apply elem_of_app; by left|done].
      - split; [apply elem_of_app; right; by left|]. exists h. split; [done|lia]. }
    split; [done|]. intros q. destruct (Hq q) as [Hgone Hkept]. split.
    + intros [Hin | ->%list_elem_of_singleton]%elem_of_app Hsw Hns.
      * apply Hgone; [done..|]. intros ?. apply Hns. apply elem_of_app. by left.
      * destruct Hns. apply elem_of_app. right. by left.
    + intros Hnot. destruct (decide (q = p)) as [->|Hne]; [done|].
      apply Hkept. intros (Hin & Hsw & Hns). apply Hnot.
      split; [apply elem_of_app; by left|]. split; [done|].
      intros [?|?%list_elem_of_singleton]%elem_of_app; done.
  - split; [done|]. split.
    { intros q Hin. destruct (Hst q Hin). split; [apply elem_of_app; by left|done]. }
    split; [done|]. intros q. destruct (Hq q) as [Hgone Hkept]. split.
    + intros [Hin | ->%list_elem_of_singleton]%elem_of_app Hsw Hns.
      * by apply Hgone.
      * destruct Hsw as (h' & Hh' & ?). rewrite Hh in Hh'. injection Hh' as <-. lia.
    + intros Hnot. destruct (decide (q = p)) as [->|Hne]; [done|].
      apply Hkept. intros (Hin & Hsw & Hns). apply Hnot.
      split; [apply elem_of_app; by left|done].
Qed.

(** A waiting goroutine runs [Cleanup]. *)
Lemma sweep_goroutine_inv (c : sweep (T:=T)) i q :
  sweep_inv s pages c → started c !! i = Some q →
  ∃ c', sweep_act (Goroutine i) c = Next c' ∧ todo c' = todo c ∧
        started c' = delete i (started c) ∧ sweep_inv s pages c'.
Proof.
  intros (seen & Hpages & Hnd & Hst & Hcfg & Hq) Hi.
  cbn [sweep_act]. rewrite Hi, Cleanup_run.
  eexists. split; [reflexivity|]. split; [done|]. split; [done|].
  pose proof (take_drop_middle _ _ _ Hi) as Hsplit.
  rewrite delete_take_drop. set (l1 := take i (started c)) in *.
  set (l2 := drop (S i) (started c)) in *.
  rewrite <- Hsplit in Hnd, Hst.
  apply NoDup_app in Hnd as (Hn1 & Hn12 & Hn2). apply NoDup_cons in Hn2 as [Hq2 Hn2].
  assert (Hq1 : q ∉ l1) by (intros Hin; apply (Hn12 _ Hin); by left).
  assert (Hin_st : ∀ x, x ∈ started c ↔ x = q ∨ x ∈ l1 ++ l2).
  { intros x. rewrite <- Hsplit. rewrite !elem_of_app, elem_of_cons. tauto. }
  assert (Hq12 : q ∉ l1 ++ l2) by (intros [?|?]%elem_of_app; done).
  destruct (Hst q) as [Hq_seen Hq_sw]; [apply elem_of_app; right; by left|].
  exists seen. cbn [todo started cache]. split; [done|].
  split.
  { apply NoDup_app. split; [done|]. split; [|done].
    intros x Hx1 Hx2. apply (Hn12 _ Hx1). by right. }
  split.
  { intros x Hx. apply Hst. rewrite Hsplit. apply Hin_st. by right. }
  split; [by destruct Hcfg as (? & ? & ? & ?)|].
  intros x. destruct (Hq x) as [Hgone Hkept]. split.
  - intros Hin Hsw Hns. unfold purged. simpl.
    destruct (decide (x = q)) as [->|Hne]; [by rewrite !lookup_delete_eq|].
    rewrite !lookup_delete_ne by done. apply Hgone; [done..|].
    intros [?|?]%Hin_st; done.
  - intros Hnot. unfold untouched. simpl.
    destruct (decide (x = q)) as [->|Hne]; [by destruct Hnot|].
    rewrite !lookup_delete_ne by done. apply Hkept.
    intros (Hin & Hsw & Hns). apply Hnot. split; [done|]. split; [done|].
    intros Hx. apply Hns. apply Hin_st. by right.
Qed.

Lemma sweep_act_inv a (c : sweep (T:=T)) :
  sweep_inv s pages c →
  match sweep_act a c with
  | Next c' => sweep_inv s pages c'
  | Aborted _ => False
  | NotEnabled => True
  end.
Proof.
  intros Hinv. destruct a as [|i].
  - destruct (todo c) as [|p rest] eqn:Htodo; [cbn [sweep_act]; by rewrite Htodo|].
    destruct (sweep_inspect_inv c p rest Hinv Htodo) as (c' & -> & _ & Hinv'). done.
  - destruct (started c !! i) as [q|] eqn:Hi; [|cbn [sweep_act]; by rewrite Hi].
    destruct (sweep_goroutine_inv c i q Hinv Hi) as (c' & -> & _ & _ & Hinv'). done.
Qed.

Lemma sweep_run_inv sched : ∀ c : sweep (T:=T),
  sweep_inv s pages c →
  match sweep_run sched c with
  | Next c' => sweep_inv s pages c'
  | Aborted _ => False
  | NotEnabled => True
  end.
Proof.
  induction sched as [|a sched IH]; intros c Hinv; cbn [sweep_run]; [done|].
  pose proof (sweep_act_inv a c Hinv) as Hact.
  destruct (sweep_act a c); [by apply IH|done..].
Qed.

(** The goroutines that wait can all be run. *)
Lemma sweep_drain n : ∀ c : sweep (T:=T),
  sweep_inv s pages c → length (started c) = n →
  ∃ sched c', sweep_run sched c = Next c' ∧ todo c' = todo c ∧ started c' = [] ∧
              sweep_inv s pages c'.
Proof.
  induction n as [|n IH]; intros c Hinv Hlen.
  - exists [], c. split; [done|]. split; [done|]. split; [|done].
    by destruct (started c).
  - destruct (started c) as [|q l] eqn:Hst; [done|].
    destruct (sweep_goroutine_inv c 0 q Hinv) as (c1 & Hact & Htodo & Hst1 & Hinv1).
    { by rewrite Hst. }
    destruct (IH c1 Hinv1) as (sched & c' & Hrun & Htodo' & Hst' & Hinv').
    { rewrite Hst1, Hst. simpl in *. lia. }
    exists (Goroutine 0 :: sched), c'. cbn [sweep_run]. rewrite Hact.
    split; [done|]. split; [congruence|]. done.
Qed.

(** Every pass can be run to its end. *)
Lemma sweep_complete n : ∀ c : sweep (T:=T),
  sweep_inv s pages c → length (todo c) = n →
  ∃ sched c', sweep_run sched c = Next c' ∧ todo c' = [] ∧ started c' = [] ∧
              sweep_inv s pages c'.
Proof.
  induction n as [|n IH]; intros c Hinv Hlen.
  - destruct (sweep_drain _ c Hinv eq_refl) as (sched & c' & Hrun & Htodo & Hst & Hinv').
    exists sched, c'. split; [done|]. split; [|done].
    rewrite Htodo. by destruct (todo c).
  - destruct (todo c) as [|p rest] eqn:Htodo; [done|].
    destruct (sweep_inspect_inv c p rest Hinv Htodo) as (c1 & Hact & Htodo1 & Hinv1).
    destruct (IH c1 Hinv1) as (sched & c' & Hrun & Hfin).
    { rewrite Htodo1. simpl in Hlen. lia. }
    exists (Inspect :: sched), c'. cbn [sweep_run]. by rewrite Hact.
Qed.

End Sweep.

Lemma lruk_state_eq (s a b : LRU_K (T:=T)) :
  same_config s a → same_config s b →
  (∀ q, Buffer a !! q = Buffer b !! q ∧ HIST a !! q = HIST b !! q ∧
        LAST a !! q = LAST b !! q) →
  a = b.
Proof.
  intros (? & ? & ? & ?) (? & ? & ? & ?) Hq.
  destruct a, b. simpl in *. f_equal; try congruence.
  - apply map_eq. intros q. by destruct (Hq q) as (_ & ? & _).
  - apply map_eq. intros q. by destruct (Hq q) as (_ & _ & ?).
  - apply map_eq. intros q. by destruct (Hq q) as (? & _ & _).
Qed.

(** One pass of the sweeper with its goroutines, on a state where every
    key of the buffer has a history of [K ≥ 1] entries. The goroutine
    [go lru.Cleanup(page)] is a step of its own: it waits from the
    moment the loop starts it and runs, as one critical section, at any
    later moment the scheduler chooses, before or after the loop
    inspects its next keys. Under every schedule the read of [HIST] in
    the loop finds its entry, so no step panics; every schedule that
    runs the loop and the goroutines to their end leaves the same cache,
    the one from which exactly the keys of the buffer whose
    [HIST(·, K−1)] is greater than [RIP] are gone, in the buffer, in
    [HIST] and in [LAST], with every other key as it was; such a
    schedule exists, and [StartCleanup_pass], which runs each goroutine
    as soon as it is started, computes that cache. Other callers do not run during the pass, and the
    check the Go runtime makes for a map that is read and written at the
    same instant is not part of the model. *)
Theorem StartCleanup_purges_under_every_schedule (s : LRU_K (T:=T)) :
  (∀ m, range_order m ≡ₚ map_keys m) → hist_ok s →
  ∃ s', same_config s s' ∧
        (∀ q, (is_Some (Buffer s !! q) → swept s q → purged s' q) ∧
              (¬ (is_Some (Buffer s !! q) ∧ swept s q) → untouched s s' q)) ∧
        run (StartCleanup_pass range_order) s = Returned tt s' ∧
        (∀ sched,
           match sweep_run sched (sweep_start range_order s) with
           | Next c => todo c = [] → started c = [] → cache c = s'
           | Aborted _ => False
           | NotEnabled => True
           end) ∧
        ∃ sched, sweep_run sched (sweep_start range_order s) = Next (mkSweep [] [] s').
Proof.
  intros Hperm Hok.
  destruct (StartCleanup_pass_run s Hperm Hok) as (s' & Hpass & Hcfg & Hs').
  pose proof (hist_ok_has_history _ Hok) as Hhist.
  destruct (has_history_pages range_order s Hperm Hhist) as [Hin Hall].
  assert (Hnd : NoDup (range_order (Buffer s))).
  { rewrite (Hperm (Buffer s)). unfold map_keys. apply NoDup_fst_map_to_list. }
  assert (HK : 1 ≤ K s) by (by destruct Hok).
  assert (Hres : ∀ p, p ∈ range_order (Buffer s) →
                      is_Some (Buffer s !! p) ∧ is_Some (HIST_at s p (K s - 1))).
  { intros p Hp. split; [by apply Hin|]. rewrite Forall_forall in Hall.
    by destruct (Hall p Hp). }
  pose proof (sweep_inv_start s (range_order (Buffer s))) as Hstart.
  assert (Hend : ∀ c, sweep_inv s (range_order (Buffer s)) c →
                      todo c = [] → started c = [] → cache c = s').
  { intros c (seen & Hpages & _ & _ & Hcfg' & Hq) Htodo Hst.
    rewrite Htodo, app_nil_r in Hpages. subst seen.
    apply (lruk_state_eq s); [done..|]. intros q.
    destruct (Hq q) as [Hgone Hkept]. destruct (Hs' q) as [Hgone' Hkept'].
    destruct (decide (q ∈ range_order (Buffer s))) as [Hq_in|Hq_out].
    - destruct (swept_dec s q) as [Hsw|Hnsw].
      + destruct Hgone as (-> & -> & ->); [done..|by rewrite Hst; intros ?%elem_of_nil|].
        destruct Hgone' as (-> & -> & ->); [by apply Hin|done|done].
      + destruct Hkept as (-> & -> & ->); [by intros (_ & ? & _)|].
        destruct Hkept' as (-> & -> & ->); [by intros (_ & ?)|done].
    - destruct Hkept as (-> & -> & ->); [by intros (? & _)|].
      destruct Hkept' as (-> & -> & ->); [|done].
      intros (Hb & _). by apply Hin in Hb. }
  exists s'. split; [done|]. split.
  { intros q. destruct (Hs' q) as [Hgone' Hkept']. split; [exact Hgone'|exact Hkept']. }
  split; [exact Hpass|]. split.
  - intros sched.
    pose proof (sweep_run_inv s _ Hnd HK Hres sched _ Hstart) as Hrun.
    unfold sweep_start. destruct (sweep_run sched _) as [c| |]; [|done..].
    by apply Hend.
  - destruct (sweep_complete s _ Hnd HK Hres _ _ Hstart eq_refl)
      as (sched & c' & Hrun & Htodo & Hst & Hinv').
    exists sched. unfold sweep_start. rewrite Hrun. f_equal.
    pose proof (Hend c' Hinv' Htodo Hst) as Hc. destruct c'. simpl in *. by subst.
Qed.

End SetTheorems.

End Proofs.

(** The claim of C3 as the specification states it fails after a long
    correlated burst with K = 3, capacity 1 and CRP = 10: five calls
    [set(a)] at 10, 20, 30, 40 and 51 leave [HIST(a) = 51, 40, 70] and
    [LAST(a) = 51]. At time 62 the only resident key is outside its
    correlated period, yet [FindVictim] returns the zero key, which is not
    resident. *)
Lemma FindVictim_returns_zero_key_despite_evictable :
  lruk_ok (NewLRU 3 1 10) lruk_long_burst_calls = true ∧
  run (FindVictim "" map_keys 62) lruk_long_burst = Returned "" lruk_long_burst ∧
  Buffer lruk_long_burst !! "a" = Some [] ∧
  LAST_at lruk_long_burst "a" = Some 51 ∧
  HIST lruk_long_burst !! "a" = Some [51; 40; 70] ∧
  evictable lruk_long_burst 62 "a" ∧
  ¬ victim_spec "" lruk_long_burst 62 "".
Proof.
  assert (He : evictable lruk_long_burst 62 "a").
  { split; [exists []; vm_compute; reflexivity|].
    exists 51. split; vm_compute; reflexivity. }
  split; [vm_compute; reflexivity|].
  split; [vm_compute; reflexivity|].
  split; [vm_compute; reflexivity|].
  split; [vm_compute; reflexivity|].
  split; [vm_compute; reflexivity|].
  split; [exact He|].
  intros [Hspec _]. destruct (Hspec (ex_intro _ "a" He)) as [[[d Hbuf] _] _].
  vm_compute in Hbuf. discriminate Hbuf.
Qed.

Lemma FindVictim_least_candidate_witness :
  has_history lruk_before_sweep ∧
  ∃ v, run (FindVictim "" map_keys 300) lruk_before_sweep = Returned v lruk_before_sweep ∧
       victim_amended "" lruk_before_sweep 300 v.
Proof.
  assert (Hh : has_history lruk_before_sweep).
  { split; [vm_compute; discriminate|]. apply (bool_decide_unpack _). vm_compute. exact I. }
  split; [exact Hh|].
  apply (FindVictim_least_candidate "" map_keys lruk_before_sweep 300);
    [intros m; reflexivity | exact Hh].
Defined.

(** C4 fails on the code. With K = 3, capacity 1 and CRP = 5, [set(k)] at
    10 and 11 leaves [HIST(k) = 10, 0, 0] and [LAST(k) = 11]. The
    uncorrelated [set(k)] at 100 has [correl = 1]; its loop writes
    [HIST[1] := 10 + 1] and then reads that new entry for
    [HIST[2] := 11 + 1], where the claim gives the old [HIST[1]] plus
    [correl], that is 1. *)
Theorem Set_uncorrelated_shift_overwrites :
  lruk_ok (NewLRU 3 1 5) [(10, "k"); (11, "k"); (100, "k")] = true ∧
  K lruk_burst = 3 ∧ CRP lruk_burst = 5 ∧
  HIST lruk_burst !! "k" = Some [10; 0; 0] ∧ LAST_at lruk_burst "k" = Some 11 ∧
  HIST (lruk_after lruk_burst [(100, "k")]) !! "k" = Some [100; 11; 12] ∧
  LAST_at (lruk_after lruk_burst [(100, "k")]) "k" = Some 100 ∧
  HIST_at (lruk_after lruk_burst [(100, "k")]) "k" 2 ≠ Some (0 + (11 - 10)).
Proof.
  split; [vm_compute; reflexivity|].
  split; [vm_compute; reflexivity|].
  split; [vm_compute; reflexivity|].
  split; [vm_compute; reflexivity|].
  split; [vm_compute; reflexivity|].
  split; [vm_compute; reflexivity|].
  split; [vm_compute; reflexivity|].
  vm_compute. discriminate.
Qed.

(** C5 fails on the code. With K = 2 and RIP = 100, [p] is referenced at
    150 and 200 and [q] once at 210. At sweep time 220 the backward
    K-distance of [p] is 70 and that of [q] is 220, so the claim purges
    [q] and keeps [p]. The pass of [StartCleanup] compares the timestamp
    [HIST(·, K−1)] itself with RIP, in whatever order the map is ranged
    over: it purges [p] (150 > 100) and keeps [q] (0 ≤ 100). *)
Theorem StartCleanup_compares_timestamp_to_RIP :
  lruk_ok (with_RIP 100 (NewLRU 2 2 1)) lruk_before_sweep_calls = true ∧
  K lruk_before_sweep = 2 ∧ RIP lruk_before_sweep = 100 ∧
  HIST lruk_before_sweep !! "p" = Some [200; 150] ∧
  HIST lruk_before_sweep !! "q" = Some [210; 0] ∧
  should_purge lruk_before_sweep 220 "p" = false ∧
  should_purge lruk_before_sweep 220 "q" = true ∧
  run (StartCleanup_loop ["p"; "q"]) lruk_before_sweep = Returned tt lruk_swept ∧
  run (StartCleanup_loop ["q"; "p"]) lruk_before_sweep = Returned tt lruk_swept ∧
  run (StartCleanup_pass map_keys) lruk_before_sweep = Returned tt lruk_swept ∧
  Buffer lruk_swept !! "p" = None ∧ HIST lruk_swept !! "p" = None ∧
  LAST lruk_swept !! "p" = None ∧
  Buffer lruk_swept !! "q" = Some [] ∧ HIST lruk_swept !! "q" = Some [210; 0] ∧
  LAST lruk_swept !! "q" = Some 210.
Proof. repeat split; vm_compute; reflexivity. Qed.

Lemma lruk_after_reachable calls : ∀ s : lruk,
  lruk_reachable "" map_keys s → lruk_ok s calls = true →
  lruk_reachable "" map_keys (lruk_after s calls).
Proof.
  induction calls as [|c calls IH]; intros s Hs Hok; [done|].
  cbn [lruk_ok] in Hok. unfold lruk_after. cbn [foldl].
  destruct (run (lruk_set c.1 c.2) s) as [[] s'| |] eqn:Hrun; try done.
  apply IH; [|exact Hok].
  exact (lruk_set_step "" map_keys s c.1 c.2 [] true s' Hs Hrun).
Qed.

Lemma lruk_burst_reachable : lruk_reachable "" map_keys lruk_burst.
Proof.
  apply lruk_after_reachable; [by apply lruk_new|vm_compute; reflexivity].
Qed.

Lemma lruk_before_sweep_reachable : lruk_reachable "" map_keys lruk_before_sweep.
Proof.
  apply lruk_after_reachable; [by apply lruk_rip, lruk_new|vm_compute; reflexivity].
Qed.

Lemma map_keys_order {A} (m : gmap string A) : map_keys m ≡ₚ map_keys m.
Proof. reflexivity. Qed.

Lemma Set_new_key_with_room_witness :
  ∃ s', run (Set_ "" map_keys 100 "a" []) (NewLRU 2 2 1) = Returned true s' ∧
        Buffer s' = <["a" := []]> (Buffer (NewLRU 2 2 1)) ∧
        LAST s' = <["a" := 100]> (LAST (NewLRU 2 2 1)) ∧
        HIST s' = <["a" := 100 :: replicate (Z.to_nat (K (NewLRU (T:=string) 2 2 1) - 1)) 0]>
                    (HIST (NewLRU 2 2 1)) ∧
        same_config (NewLRU 2 2 1) s' ∧
        run (Get "a") s' = Returned (Some []) s'.
Proof.
  apply (Set_new_key_with_room "" map_keys (NewLRU 2 2 1) 100 "a" []).
  - reflexivity.
  - vm_compute. reflexivity.
  - vm_compute. discriminate.
Defined.

Lemma Set_needs_positive_K_witness :
  ∃ msg s', run (Set_ "" map_keys 100 "a" []) (NewLRU 0 1 10) = Panicked msg s' ∧
            Buffer s' = <["a" := []]> (Buffer (NewLRU 0 1 10)) ∧
            LAST s' = <["a" := 100]> (LAST (NewLRU 0 1 10)).
Proof.
  apply (Set_needs_positive_K "" map_keys (NewLRU 0 1 10) 100 "a" []).
  - reflexivity.
  - vm_compute. reflexivity.
  - vm_compute. discriminate.
Defined.

Lemma Set_correlated_touches_LAST_only_witness :
  ∃ s', run (Set_ "" map_keys 12 "k" []) lruk_burst = Returned true s' ∧
        Buffer s' = <["k" := []]> (Buffer lruk_burst) ∧
        LAST s' = <["k" := 12]> (LAST lruk_burst) ∧
        HIST s' = HIST lruk_burst ∧ same_config lruk_burst s'.
Proof.
  apply (Set_correlated_touches_LAST_only "" map_keys lruk_burst 12 "k" [] [] 11).
  - vm_compute. reflexivity.
  - vm_compute. reflexivity.
  - vm_compute. discriminate.
Defined.

Lemma Set_uncorrelated_ramp_witness :
  ∃ s' h', run (Set_ "" map_keys 100 "k" []) lruk_burst = Returned true s' ∧
        Buffer s' = <["k" := []]> (Buffer lruk_burst) ∧
        LAST s' = <["k" := 100]> (LAST lruk_burst) ∧
        HIST s' = <["k" := 100 :: h']> (HIST lruk_burst) ∧
        length h' = length [0; 0] ∧
        (∀ i : nat, (i < length [0; 0])%nat →
           h' !! i = Some (wrap64 (10 + (Z.of_nat i + 1) * sub64 11 10))) ∧
        same_config lruk_burst s'.
Proof.
  apply (Set_uncorrelated_ramp "" map_keys lruk_burst 100 "k" [] [] 11 10 [0; 0]).
  - vm_compute. reflexivity.
  - vm_compute. reflexivity.
  - vm_compute. reflexivity.
  - vm_compute. reflexivity.
  - vm_compute. reflexivity.
Defined.

Lemma Set_on_full_buffer_witness :
  Buffer lruk_burst !! "z" = None ∧ Cap lruk_burst ≤ len (Buffer lruk_burst) ∧
  ∃ v s', run (FindVictim "" map_keys 100) lruk_burst = Returned v lruk_burst ∧
        run (Set_ "" map_keys 100 "z" []) lruk_burst = Returned true s' ∧
        Buffer s' = <["z" := []]> (delete v (Buffer lruk_burst)) ∧
        LAST s' = <["z" := 100]> (delete v (LAST lruk_burst)) ∧
        (∀ p, p ≠ "z" → HIST s' !! p = HIST lruk_burst !! p) ∧
        (∀ h0 hs, HIST lruk_burst !! "z" = Some (h0 :: hs) →
                  HIST s' !! "z" = Some (100 :: replicate (length hs) h0)) ∧
        (HIST lruk_burst !! "z" = None →
         HIST s' !! "z" = Some (100 :: replicate (Z.to_nat (K lruk_burst - 1)) 0)) ∧
        (is_Some (Buffer lruk_burst !! v) → size (Buffer s') = size (Buffer lruk_burst)) ∧
        (Buffer lruk_burst !! v = None → size (Buffer s') = S (size (Buffer lruk_burst))) ∧
        same_config lruk_burst s'.
Proof.
  assert (H1 : Buffer lruk_burst !! "z" = None) by (vm_compute; reflexivity).
  assert (H2 : Cap lruk_burst ≤ len (Buffer lruk_burst)) by (vm_compute; discriminate).
  split; [exact H1|]. split; [exact H2|].
  apply (Set_on_full_buffer "" map_keys lruk_burst 100 "z" []);
    [apply @map_keys_order| |exact H1|exact H2].
  apply (lruk_reachable_hist_ok "" map_keys); [apply @map_keys_order|].
  exact lruk_burst_reachable.
Defined.

Lemma Set_returns_and_Get_reads_back_witness :
  ∃ s', run (Set_ "" map_keys 100 "z" []) lruk_burst = Returned true s' ∧
        run (Get "z") s' = Returned (Some []) s' ∧
        LAST s' !! "z" = Some 100 ∧
        hist_ok s' ∧ same_config lruk_burst s' ∧
        (∀ p, p ≠ "z" → Buffer s' !! p = Buffer lruk_burst !! p ∨ Buffer s' !! p = None).
Proof.
  apply (Set_returns_and_Get_reads_back "" map_keys lruk_burst 100 "z" []);
    [apply @map_keys_order|exact lruk_burst_reachable].
Defined.

Lemma StartCleanup_purges_under_every_schedule_witness :
  ∃ s', same_config lruk_before_sweep s' ∧
        (∀ q, (is_Some (Buffer lruk_before_sweep !! q) → swept lruk_before_sweep q →
               purged s' q) ∧
              (¬ (is_Some (Buffer lruk_before_sweep !! q) ∧ swept lruk_before_sweep q) →
               untouched lruk_before_sweep s' q)) ∧
        run (StartCleanup_pass map_keys) lruk_before_sweep = Returned tt s' ∧
        (∀ sched,
           match sweep_run sched (sweep_start map_keys lruk_before_sweep) with
           | Next c => todo c = [] → started c = [] → cache c = s'
           | Aborted _ => False
           | NotEnabled => True
           end) ∧
        ∃ sched, sweep_run sched (sweep_start map_keys lruk_before_sweep)
                   = Next (mkSweep [] [] s').
Proof.
  apply (StartCleanup_purges_under_every_schedule map_keys lruk_before_sweep);
    [apply @map_keys_order|].
  apply (lruk_reachable_hist_ok "" map_keys); [apply @map_keys_order|].
  exact lruk_before_sweep_reachable.
Defined.

End LRUKProofs.

(** ** 2Q *)

Module TwoQProofs.
Import TwoQ.

Section Proofs.
Context {T : Type} `{Countable T}.
Context {V : Type}.
Variable zeroT : T.

Abbreviation St := (TwoQ (T:=T) (V:=V)).

(** No method of the 2Q model has a loop: a call returns or panics. *)
Local Abbreviation fuel_free := (TwoQ.fuel_free (T:=T) (V:=V)).

Lemma ff_bind {A B} (m : M St A) (k : A → M St B) :
  fuel_free m → (∀ a, fuel_free (k a)) → fuel_free (m ≫= k).
Proof.
  intros Hm Hk s. unfold mbind, go_mbind, bind. simpl.
  destruct (run m s) eqn:Hr; [apply Hk|done|by apply Hm in Hr].
Qed.

Lemma ff_ret {A} (a : A) : fuel_free (mret a : M St A).
Proof. done. Qed.
Lemma ff_gets {A} (f : St → A) : fuel_free (gets f).
Proof. done. Qed.
Lemma ff_modify (f : St → St) : fuel_free (modify f).
Proof. done. Qed.
Lemma ff_panic {A} msg : fuel_free (panic msg : M St A).
Proof. done. Qed.
Lemma ff_load p : fuel_free (load p).
Proof. intros s. unfold load. simpl. destruct p as [a|]; [|done]. by destruct (mem s !! a). Qed.
Lemma ff_alloc n : fuel_free (alloc n).
Proof. done. Qed.

Ltac ff :=
  repeat first
    [ apply ff_ret | apply ff_gets | apply ff_modify | apply ff_panic
    | apply ff_load | apply ff_alloc
    | apply ff_bind; [|intros ?]
    | match goal with
      | |- fuel_free (if ?b then _ else _) => destruct b
      | |- fuel_free (match ?x with _ => _ end) => destruct x
      end
    | assumption ].

Lemma ff_update p f : fuel_free (update p f).
Proof. unfold update. ff. Qed.
Lemma ff_DeleteNode p : fuel_free (DeleteNode p).
Proof. unfold DeleteNode. ff. Qed.
Lemma ff_NewNode k p n : fuel_free (NewNode k p n).
Proof. unfold NewNode. ff. Qed.
Lemma ff_fifo_evict r : fuel_free (fifo_evict zeroT r).
Proof. unfold fifo_evict. ff. Qed.
Lemma ff_fifo_add r k : fuel_free (fifo_add r k).
Proof. unfold fifo_add. ff. Qed.
Lemma ff_lru_evict : fuel_free (lru_evict zeroT).
Proof. unfold lru_evict. ff. Qed.
Lemma ff_reclaimFor : fuel_free (reclaimFor zeroT).
Proof.
  unfold reclaimFor. ff.
Qed.

(** C7 fails on the code: in every state, [Insert] of a key that is not
    in the page buffer panics. [reclaimFor] returns or panics; when it
    returns, the new page is stored and the call then reads [page.data]
    through the nil [page] that the lookup gave. No miss returns
    [was_present = false]. *)
Theorem Insert_miss_panics (s : St) (k : T) (v : V) :
  PageBuffer s !! k = None →
  ∃ msg s',
    run (Insert zeroT k v) s = Panicked msg s' ∧
    ∀ s1, run (reclaimFor zeroT) s = Returned tt s1 →
          msg = nil_deref ∧ s' = with_PageBuffer (<[k := mkPage v "A1_In"]>) s1.
Proof.
  intros Hmiss. unfold Insert. go. rewrite Hmiss.
  destruct (run (reclaimFor zeroT) s) as [[] s1|msg s1|] eqn:Hr.
  - go_with Hr. go. eexists _, _. split; [reflexivity|].
    intros s2 Hs2. by injection Hs2 as <-.
  - rewrite (run_bind_panic _ _ _ _ _ Hr). eexists _, _. split; [reflexivity|].
    intros s2 Hs2. discriminate Hs2.
  - by apply ff_reclaimFor in Hr.
Qed.

(** [Insert] of a key whose page is tagged [A1_In] is a hit that changes
    nothing: it returns the value stored in the page together with
    [true], the value passed in is dropped, and no queue is touched. *)
Lemma Insert_A1in_hit (s : St) (k : T) (v : V) (p : Page) :
  PageBuffer s !! k = Some p → queueType p = "A1_In" →
  run (Insert zeroT k v) s = Returned (data p, true) s.
Proof. intros Hhit Htag. unfold Insert. go. rewrite Hhit, Htag. simpl. by go. Qed.

(** *** The queues, cell by cell *)

Lemma twoq_load_run (s : St) a n : mem s !! a = Some n → run (load (Some a)) s = Returned n s.
Proof. intros Hn. unfold load. simpl. by rewrite Hn. Qed.

Lemma twoq_update_run (s : St) a n f :
  mem s !! a = Some n →
  run (update (Some a) f) s = Returned tt (with_mem (<[a := f n]>) s).
Proof. intros Hn. unfold update. go_with (twoq_load_run s a n Hn). by go. Qed.

Lemma twoq_alloc_run (s : St) n :
  run (alloc n) s
    = Returned (Some (fresh (dom (mem s)))) (with_mem (<[fresh (dom (mem s)) := n]>) s).
Proof. reflexivity. Qed.

Lemma fifo_of_with_mem r f (s : St) : fifo_of r (with_mem f s) = fifo_of r s.
Proof. by destruct r. Qed.

(** [evict] on a queue whose last node [p] is not the head sentinel
    unlinks [p] from its two neighbours, deletes the key of [p] from
    [Nodes], and returns the zero key with [true]: the key that was
    evicted is not what the caller gets. *)
Theorem fifo_evict_returns_zero_key (s : St) r t nt p np pp npp nx nnx :
  Tail (fifo_of r s) = Some t → mem s !! t = Some nt → end_identifier nt = -1 →
  prev nt = Some p → mem s !! p = Some np → end_identifier np ≠ 1 →
  prev np = Some pp → next np = Some nx →
  mem s !! pp = Some npp → mem s !! nx = Some nnx →
  pp ≠ nx → p ≠ pp → p ≠ nx →
  ∃ s', run (fifo_evict zeroT r) s = Returned (zeroT, true) s' ∧
        Nodes (fifo_of r s') = delete (key np) (Nodes (fifo_of r s)) ∧
        mem s' = <[nx := set_prev (Some pp) nnx]> (<[pp := set_next (Some nx) npp]> (mem s)) ∧
        PageBuffer s' = PageBuffer s ∧
        Tail (fifo_of r s') = Tail (fifo_of r s) ∧ Head (fifo_of r s') = Head (fifo_of r s).
Proof.
  intros Ht Hnt Hend Hp Hnp Hnp1 Hpp Hnx Hnpp Hnnx Hd1 Hd2 Hd3.
  unfold fifo_evict. go. rewrite Ht. go_with (twoq_load_run s t nt Hnt).
  rewrite Hend. cbn [Z.eqb Pos.eqb negb]. rewrite Hp. go_with (twoq_load_run s p np Hnp).
  destruct (Z.eqb_spec (end_identifier np) 1); [done|].
  unfold DeleteNode. gos. go_with (twoq_load_run s p np Hnp). rewrite Hpp, Hnx. gos.
  go_with (twoq_update_run s pp npp (set_next (Some nx)) Hnpp). gos.
  erewrite run_bind;
    [|apply (twoq_update_run _ nx nnx); simpl; rewrite lookup_insert_ne by done; exact Hnnx];
    cbv beta.
  gos.
  erewrite run_bind;
    [|apply (twoq_load_run _ p np); simpl; rewrite !lookup_insert_ne by done; exact Hnp];
    cbv beta.
  go. eexists. split; [reflexivity|]. destruct r; by repeat split.
Qed.

Lemma fifo_evict_empty_run (s : St) r t nt h nh :
  Tail (fifo_of r s) = Some t → mem s !! t = Some nt → end_identifier nt = -1 →
  prev nt = Some h → mem s !! h = Some nh → end_identifier nh = 1 →
  run (fifo_evict zeroT r) s = Returned (zeroT, false) s.
Proof.
  intros Ht Hnt Hend Hp Hnh Hh.
  unfold fifo_evict. go. rewrite Ht. go_with (twoq_load_run s t nt Hnt).
  rewrite Hend. cbn [Z.eqb Pos.eqb negb]. rewrite Hp. go_with (twoq_load_run s h nh Hnh).
  rewrite Hh. by go.
Qed.

(** [evict] on a queue whose tail sentinel is preceded by the head
    sentinel returns the zero key with [false] and changes nothing. *)
Theorem fifo_evict_on_empty_queue (s : St) r t nt h nh :
  Tail (fifo_of r s) = Some t → mem s !! t = Some nt → end_identifier nt = -1 →
  prev nt = Some h → mem s !! h = Some nh → end_identifier nh = 1 →
  run (fifo_evict zeroT r) s = Returned (zeroT, false) s.
Proof. exact (fifo_evict_empty_run s r t nt h nh). Qed.

(** [add] on a queue whose [Nodes] map the caller has made and whose head
    sentinel is followed by [first] allocates a node for the key at a
    fresh address, links it between the head and [first], enters it in
    [Nodes] under the key and returns it. *)
Theorem fifo_add_links_after_head (s : St) r k h nh first nfirst :
  Head (fifo_of r s) = Some h → mem s !! h = Some nh → end_identifier nh = 1 →
  next nh = Some first → mem s !! first = Some nfirst → h ≠ first →
  ∃ s', run (fifo_add r k) s = Returned (Some (fresh (dom (mem s)))) s' ∧
        mem s !! fresh (dom (mem s)) = None ∧
        Nodes (fifo_of r s') = <[k := fresh (dom (mem s))]> (Nodes (fifo_of r s)) ∧
        mem s' = <[first := set_prev (Some (fresh (dom (mem s)))) nfirst]>
                   (<[h := set_next (Some (fresh (dom (mem s)))) nh]>
                      (<[fresh (dom (mem s)) := mkNode k 0 (Some h) (Some first)]> (mem s))) ∧
        PageBuffer s' = PageBuffer s.
Proof.
  intros Hh Hnh Hend Hnext Hfirst Hhf.
  set (a := fresh (dom (mem s))).
  assert (Ha : mem s !! a = None) by apply not_elem_of_dom, is_fresh.
  assert (a ≠ h) by (intros E; rewrite E in Ha; by rewrite Ha in Hnh).
  assert (a ≠ first) by (intros E; rewrite E in Ha; by rewrite Ha in Hfirst).
  unfold fifo_add. go. rewrite Hh. go_with (twoq_load_run s h nh Hnh).
  rewrite Hend. cbn [Z.eqb Pos.eqb negb]. rewrite Hnext.
  unfold NewNode. gos. go_with (twoq_alloc_run s (mkNode k 0 (Some h) (Some first))). fold a.
  gos.
  erewrite run_bind;
    [|apply (twoq_update_run _ h nh); simpl; rewrite lookup_insert_ne by done; exact Hnh];
    cbv beta.
  gos.
  erewrite run_bind;
    [|apply (twoq_update_run _ first nfirst); simpl; rewrite !lookup_insert_ne by done;
      exact Hfirst]; cbv beta.
  gos. eexists. split; [reflexivity|]. destruct r; by repeat split.
Qed.

Lemma lru_evict_on_empty_queue (s : St) t nt h nh :
  Tail (Am s) = Some t → mem s !! t = Some nt → end_identifier nt = -1 →
  prev nt = Some h → mem s !! h = Some nh → end_identifier nh = 1 →
  run (lru_evict zeroT) s = Returned (zeroT, false) s.
Proof.
  intros Ht Hnt Hend Hp Hnh Hh.
  unfold lru_evict. go. rewrite Ht. go_with (twoq_load_run s t nt Hnt).
  rewrite Hend. cbn [Z.eqb Pos.eqb negb]. rewrite Hp. go_with (twoq_load_run s h nh Hnh).
  rewrite Hh. by go.
Qed.

(** [reclaimFor] returns at once while the page buffer has room. Once
    the buffer is full and the lists of [A1in] and [Am] hold no node, it
    panics with "why cant we evict" and changes nothing, whatever the
    counts in [Nodes] are: no slot is ever reclaimed. *)
Theorem reclaimFor_on_empty_queues (s : St) t1 nt1 h1 nh1 t2 nt2 h2 nh2 :
  Tail (A1in s) = Some t1 → mem s !! t1 = Some nt1 → end_identifier nt1 = -1 →
  prev nt1 = Some h1 → mem s !! h1 = Some nh1 → end_identifier nh1 = 1 →
  Tail (Am s) = Some t2 → mem s !! t2 = Some nt2 → end_identifier nt2 = -1 →
  prev nt2 = Some h2 → mem s !! h2 = Some nh2 → end_identifier nh2 = 1 →
  (len (PageBuffer s) < Capacity s → run (reclaimFor zeroT) s = Returned tt s) ∧
  (Capacity s ≤ len (PageBuffer s) →
   run (reclaimFor zeroT) s = Panicked "why cant we evict" s).
Proof.
  intros Ht1 Hnt1 He1 Hp1 Hnh1 Hh1 Ht2 Hnt2 He2 Hp2 Hnh2 Hh2.
  unfold reclaimFor. go. unfold id. split; intros Hcap.
  - destruct (Z.ltb_spec (len (PageBuffer s)) (Capacity s)); [by go|lia].
  - destruct (Z.ltb_spec (len (PageBuffer s)) (Capacity s)); [lia|].
    destruct (len (Nodes (A1in s)) >=? K_In s).
    + go_with (fifo_evict_empty_run s RefA1in t1 nt1 h1 nh1 Ht1 Hnt1 He1 Hp1 Hnh1 Hh1).
      by go.
    + go_with (lru_evict_on_empty_queue s t2 nt2 h2 nh2 Ht2 Hnt2 He2 Hp2 Hnh2 Hh2).
      by go.
Qed.

(** [access] of a key of [Am] whose node [a] is not the first of the
    list relinks it in the forward direction only. The neighbours of [a]
    are joined, [head.next] becomes [a] and [a.next] the old first node
    [f]; but [a.prev] still points at the old predecessor [p], and
    [f.prev] is not set to [a]: read backwards from the tail, the list
    does not have the order it has read forwards from the head. *)
Theorem lru_access_relinks_forward_only (s : St) k a na p np n nn h nh f :
  Nodes (Am s) !! k = Some a → mem s !! a = Some na →
  prev na = Some p → next na = Some n →
  mem s !! p = Some np → mem s !! n = Some nn →
  Head (Am s) = Some h → mem s !! h = Some nh → end_identifier nh = 1 →
  next nh = Some f →
  a ≠ p → a ≠ n → p ≠ n → h ≠ a → h ≠ p → h ≠ n → f ≠ a → f ≠ n → f ≠ h →
  ∃ s', run (lru_access k) s = Returned tt s' ∧
        mem s' = <[h := set_next (Some a) nh]>
                   (<[a := set_next (Some f) na]>
                      (<[n := set_prev (Some p) nn]>
                         (<[p := set_next (Some n) np]> (mem s)))) ∧
        next <$> mem s' !! h = Some (Some a) ∧
        next <$> mem s' !! a = Some (Some f) ∧
        prev <$> mem s' !! a = Some (Some p) ∧
        prev <$> mem s' !! f = prev <$> mem s !! f ∧
        Nodes (Am s') = Nodes (Am s) ∧ PageBuffer s' = PageBuffer s.
Proof.
  intros Hk Hna Hp Hn Hnp Hnn Hh Hnh Hend Hf Hap Han Hpn Hha Hhp Hhn Hfa Hfn Hfh.
  unfold lru_access. go. rewrite Hk.
  unfold DeleteNode. gos. go_with (twoq_load_run s a na Hna). rewrite Hp, Hn. gos.
  go_with (twoq_update_run s p np (set_next (Some n)) Hnp). gos.
  erewrite run_bind;
    [|apply (twoq_update_run _ n nn); simpl; rewrite lookup_insert_ne by done; exact Hnn];
    cbv beta.
  unfold lru_getHead. gos. cbn [Am with_mem]. rewrite Hh.
  erewrite run_bind;
    [|apply (twoq_load_run _ h nh); simpl; rewrite !lookup_insert_ne by done; exact Hnh];
    cbv beta.
  rewrite Hend. cbn [Z.eqb Pos.eqb negb]. gos.
  erewrite run_bind;
    [|apply (twoq_load_run _ h nh); simpl; rewrite !lookup_insert_ne by done; exact Hnh];
    cbv beta.
  rewrite Hf.
  erewrite run_bind;
    [|apply (twoq_update_run _ a na); simpl; rewrite !lookup_insert_ne by done; exact Hna];
    cbv beta.
  erewrite twoq_update_run;
    [|simpl; rewrite !lookup_insert_ne by done; exact Hnh].
  eexists. split; [reflexivity|]. simpl. split; [reflexivity|].
  rewrite lookup_insert_eq.
  rewrite (lookup_insert_ne _ h a) by done. rewrite lookup_insert_eq.
  rewrite (lookup_insert_ne _ h f) by done. rewrite (lookup_insert_ne _ a f) by done.
  rewrite (lookup_insert_ne _ n f) by done.
  split; [reflexivity|]. split; [reflexivity|].
  split; [simpl; by rewrite Hp|]. split; [|done].
  destruct (decide (p = f)) as [->|].
  - rewrite lookup_insert_eq, Hnp. reflexivity.
  - by rewrite lookup_insert_ne.
Qed.

End Proofs.

Lemma Insert_miss_panics_witness :
  PageBuffer twoq_311 !! "key1" = None ∧
  ∃ msg s',
    run (twoq_insert "key1" "value1") twoq_311 = Panicked msg s' ∧
    ∀ s1, run (reclaimFor "") twoq_311 = Returned tt s1 →
          msg = nil_deref ∧
          s' = with_PageBuffer (<["key1" := mkPage (Some "value1") "A1_In"]>) s1.
Proof.
  split; [reflexivity|].
  apply (Insert_miss_panics "" twoq_311 "key1" (Some "value1")). reflexivity.
Defined.

(** C6 fails on the code. With capacity 3, K_in = 1 and K_out = 1 no call
    of the sequence returns: insert(k1), insert(k2) and insert(k3) each
    store a page tagged [A1_In] and then panic on the nil page, and
    insert(k4) panics inside [reclaimFor] because no queue holds a node.
    The three queues stay empty, so k1 never reaches [A1out], and the
    following insert(k1) is a hit on the [A1_In] page. A key that is on
    [A1out] and not in the page buffer takes the miss path as well: it is
    tagged [A1_In], stays on [A1out], is not added to [Am], and the call
    panics. *)
Theorem Insert_ghost_key_not_promoted :
  (run (twoq_insert "k1" "v1") twoq_311 = Panicked nil_deref twoq_k1 ∧
   run (twoq_insert "k2" "v2") twoq_k1 = Panicked nil_deref twoq_k2 ∧
   run (twoq_insert "k3" "v3") twoq_k2 = Panicked nil_deref twoq_k3 ∧
   run (twoq_insert "k4" "v4") twoq_k3 = Panicked "why cant we evict" twoq_k4 ∧
   PageBuffer twoq_k4 !! "k1" = Some (mkPage (Some "v1") "A1_In") ∧
   Nodes (A1in twoq_k4) = ∅ ∧ Nodes (A1out twoq_k4) = ∅ ∧ Nodes (Am twoq_k4) = ∅ ∧
   run (twoq_insert "k1" "v1'") twoq_k4 = Returned (Some "v1", true) twoq_k4) ∧
  (dom (Nodes (A1out twoq_ghost)) = {["g"]} ∧
   PageBuffer twoq_ghost !! "g" = None ∧
   run (twoq_insert "g" "v") twoq_ghost = Panicked nil_deref (twoq_then twoq_ghost "g" "v") ∧
   PageBuffer (twoq_then twoq_ghost "g" "v") !! "g" = Some (mkPage (Some "v") "A1_In") ∧
   dom (Nodes (A1out (twoq_then twoq_ghost "g" "v"))) = {["g"]} ∧
   Nodes (Am (twoq_then twoq_ghost "g" "v")) = ∅).
Proof. repeat split; vm_compute; reflexivity. Qed.

Lemma fifo_evict_returns_zero_key_witness :
  ∃ s', run (fifo_evict "" RefA1out) twoq_ghost = Returned ("", true) s' ∧
        Nodes (fifo_of RefA1out s')
          = delete (key (mkNode "g" 0 (Some 5%nat) (Some 4%nat)))
                   (Nodes (fifo_of RefA1out twoq_ghost)) ∧
        mem s' = <[4%nat := set_prev (Some 5%nat) (mkNode "" (-1) (Some 6%nat) None)]>
                   (<[5%nat := set_next (Some 4%nat) (mkNode "" 1 None (Some 6%nat))]>
                      (mem twoq_ghost)) ∧
        PageBuffer s' = PageBuffer twoq_ghost ∧
        Tail (fifo_of RefA1out s') = Tail (fifo_of RefA1out twoq_ghost) ∧
        Head (fifo_of RefA1out s') = Head (fifo_of RefA1out twoq_ghost).
Proof.
  apply (fifo_evict_returns_zero_key "" twoq_ghost RefA1out
           4%nat (mkNode "" (-1) (Some 6%nat) None)
           6%nat (mkNode "g" 0 (Some 5%nat) (Some 4%nat))
           5%nat (mkNode "" 1 None (Some 6%nat))
           4%nat (mkNode "" (-1) (Some 6%nat) None));
    try (vm_compute; reflexivity); discriminate.
Defined.

Lemma fifo_evict_on_empty_queue_witness :
  run (fifo_evict "" RefA1in) twoq_311 = Returned ("", false) twoq_311.
Proof.
  apply (fifo_evict_on_empty_queue "" twoq_311 RefA1in
           0%nat (mkNode "" (-1) (Some 1%nat) None)
           1%nat (mkNode "" 1 None (Some 0%nat))); vm_compute; reflexivity.
Defined.

Lemma fifo_add_links_after_head_witness :
  ∃ s', run (fifo_add RefA1out "g") twoq_311
          = Returned (Some (fresh (dom (mem twoq_311)))) s' ∧
        mem twoq_311 !! fresh (dom (mem twoq_311)) = None ∧
        Nodes (fifo_of RefA1out s')
          = <["g" := fresh (dom (mem twoq_311))]> (Nodes (fifo_of RefA1out twoq_311)) ∧
        mem s' = <[4%nat := set_prev (Some (fresh (dom (mem twoq_311))))
                               (mkNode "" (-1) (Some 5%nat) None)]>
                   (<[5%nat := set_next (Some (fresh (dom (mem twoq_311))))
                                 (mkNode "" 1 None (Some 4%nat))]>
                      (<[fresh (dom (mem twoq_311)) := mkNode "g" 0 (Some 5%nat) (Some 4%nat)]>
                         (mem twoq_311))) ∧
        PageBuffer s' = PageBuffer twoq_311.
Proof.
  apply (fifo_add_links_after_head twoq_311 RefA1out "g"
           5%nat (mkNode "" 1 None (Some 4%nat))
           4%nat (mkNode "" (-1) (Some 5%nat) None));
    try (vm_compute; reflexivity); discriminate.
Defined.

Lemma reclaimFor_on_empty_queues_witness :
  (len (PageBuffer twoq_k3) < Capacity twoq_k3 →
   run (reclaimFor "") twoq_k3 = Returned tt twoq_k3) ∧
  (Capacity twoq_k3 ≤ len (PageBuffer twoq_k3) →
   run (reclaimFor "") twoq_k3 = Panicked "why cant we evict" twoq_k3).
Proof.
  apply (reclaimFor_on_empty_queues "" twoq_k3
           0%nat (mkNode "" (-1) (Some 1%nat) None) 1%nat (mkNode "" 1 None (Some 0%nat))
           2%nat (mkNode "" (-1) (Some 3%nat) None) 3%nat (mkNode "" 1 None (Some 2%nat)));
    vm_compute; reflexivity.
Defined.

Lemma lru_access_relinks_forward_only_witness :
  ∃ s', run (lru_access "a") twoq_am_ab = Returned tt s' ∧
        mem s' = <[3%nat := set_next (Some 6%nat) (mkNode "" 1 None (Some 7%nat))]>
                   (<[6%nat := set_next (Some 7%nat) (mkNode "a" 0 (Some 7%nat) (Some 2%nat))]>
                      (<[2%nat := set_prev (Some 7%nat) (mkNode "" (-1) (Some 6%nat) None)]>
                         (<[7%nat := set_next (Some 2%nat) (mkNode "b" 0 (Some 3%nat) (Some 6%nat))]>
                            (mem twoq_am_ab)))) ∧
        next <$> mem s' !! 3%nat = Some (Some 6%nat) ∧
        next <$> mem s' !! 6%nat = Some (Some 7%nat) ∧
        prev <$> mem s' !! 6%nat = Some (Some 7%nat) ∧
        prev <$> mem s' !! 7%nat = prev <$> mem twoq_am_ab !! 7%nat ∧
        Nodes (Am s') = Nodes (Am twoq_am_ab) ∧ PageBuffer s' = PageBuffer twoq_am_ab.
Proof.
  apply (lru_access_relinks_forward_only twoq_am_ab "a"
           6%nat (mkNode "a" 0 (Some 7%nat) (Some 2%nat))
           7%nat (mkNode "b" 0 (Some 3%nat) (Some 6%nat))
           2%nat (mkNode "" (-1) (Some 6%nat) None)
           3%nat (mkNode "" 1 None (Some 7%nat)) 7%nat);
    try (vm_compute; reflexivity); discriminate.
Defined.

End TwoQProofs.

(** ** O(1)-LFU *)

Module LFUProofs.
Import LFU.

Section Proofs.
Context {T : Type} `{Countable T}.
Context {V : Type}.

(** C9. In every state, [Access] of a key that the index does not hold
    panics with the message of its explicit [panic], and leaves the cache
    as it was. *)
Theorem Access_missing_key_panics (s : LFU_Cache (T:=T) (V:=V)) (k : T) :
  bykey s !! k = None →
  run (Access k) s = Panicked "No such key" s.
Proof. intros Hmiss. unfold Access. go. rewrite Hmiss. simpl. by go. Qed.

(** *** Pointer reads and writes *)

Lemma lfu_load_run (s : LFU_Cache (T:=T) (V:=V)) a n :
  fmem s !! a = Some n → run (load (Some a)) s = Returned n s.
Proof. intros Hn. unfold load. simpl. by rewrite Hn. Qed.

Lemma lfu_update_run (s : LFU_Cache (T:=T) (V:=V)) a n f :
  fmem s !! a = Some n →
  run (update (Some a) f) s = Returned tt (with_fmem (<[a := f n]>) s).
Proof. intros Hn. unfold update. go_with (lfu_load_run s a n Hn). by go. Qed.

Lemma load_item_run (s : LFU_Cache (T:=T) (V:=V)) a it :
  imem s !! a = Some it → run (load_item (Some a)) s = Returned it s.
Proof. intros Hn. unfold load_item. simpl. by rewrite Hn. Qed.

Lemma update_item_run (s : LFU_Cache (T:=T) (V:=V)) a it f :
  imem s !! a = Some it →
  run (update_item (Some a) f) s = Returned tt (with_imem (<[a := f it]>) s).
Proof. intros Hn. unfold update_item. go_with (load_item_run s a it Hn). by go. Qed.

Lemma NewFreqNode_run (s : LFU_Cache (T:=T) (V:=V)) :
  run NewFreqNode s
    = Returned (Some (fresh (dom (fmem s))))
        (with_fmem (<[fresh (dom (fmem s)) := mkFreqNode 0 ∅ None None]>) s).
Proof. reflexivity. Qed.

Lemma NewLfuItem_run (s : LFU_Cache (T:=T) (V:=V)) d p :
  run (NewLfuItem d p) s
    = Returned (Some (fresh (dom (imem s))))
        (with_imem (<[fresh (dom (imem s)) := mkLFU_Item d p]>) s).
Proof. reflexivity. Qed.

(** [GetNewNode(v, prev, nil)] links the new bucket after [prev] and then
    panics on [next.prev]. *)
Lemma GetNewNode_nil_next (s : LFU_Cache (T:=T) (V:=V)) v p np :
  fmem s !! p = Some np →
  run (GetNewNode v (Some p) None) s
    = Panicked nil_deref
        (with_fmem (λ m, <[p := set_next (Some (fresh (dom m))) np]>
                           (<[fresh (dom m) := mkFreqNode v ∅ (Some p) None]> m)) s).
Proof.
  intros Hp. unfold GetNewNode, NewFreqNode.
  set (a := fresh (dom (fmem s))).
  assert (Hap : a ≠ p).
  { intros E. pose proof (is_fresh (dom (fmem s))) as Hf. fold a in Hf. rewrite E in Hf.
    apply Hf. apply elem_of_dom. eauto. }
  go_with (NewFreqNode_run s). fold a.
  erewrite run_bind; [|apply lfu_update_run; simpl; apply lookup_insert_eq]; cbv beta.
  erewrite run_bind; [|apply lfu_update_run; simpl; apply lookup_insert_eq]; cbv beta.
  erewrite run_bind; [|apply lfu_update_run; simpl; apply lookup_insert_eq]; cbv beta.
  erewrite run_bind;
    [|apply (lfu_update_run _ p np); simpl; rewrite !lookup_insert_ne by done; exact Hp];
    cbv beta.
  erewrite run_bind_panic; [|reflexivity].
  unfold with_fmem. simpl. f_equal. f_equal.
  rewrite !insert_insert_eq. done.
Qed.

Section Buckets.
Variable zeroT : T.
Variable nilV : V.
Variable range_order : gmap T nat → list T.

(** [Insert] of a new key into a cache with room whose first bucket has
    frequency 1 returns: it allocates an item with the value and that
    bucket as parent, and enters it under the key in the index and in the
    bucket; nothing else changes. *)
Theorem Insert_into_frequency_1_bucket (s : LFU_Cache (T:=T) (V:=V)) k v hd nh b nb :
  bykey s !! k = None → len (bykey s) ≠ size s →
  freq_Head s = Some hd → fmem s !! hd = Some nh →
  next nh = Some b → fmem s !! b = Some nb → value nb = 1 →
  ∃ s', run (Insert zeroT nilV range_order k v) s = Returned tt s' ∧
        bykey s' = <[k := fresh (dom (imem s))]> (bykey s) ∧
        imem s' = <[fresh (dom (imem s)) := mkLFU_Item v (Some b)]> (imem s) ∧
        fmem s' = <[b := set_items (<[k := fresh (dom (imem s))]>) nb]> (fmem s) ∧
        size s' = size s ∧ freq_Head s' = freq_Head s ∧
        imem s !! fresh (dom (imem s)) = None.
Proof.
  intros Hk Hroom Hhd Hnh Hb Hnb Hval. unfold Insert. go. unfold id.
  rewrite bool_decide_false by (rewrite Hk; by intros []).
  apply Z.eqb_neq in Hroom. rewrite Hroom. gos. unfold id. rewrite Hhd.
  go_with (lfu_load_run s hd nh Hnh). rewrite Hb. cbn [is_nil]. gos.
  go_with (lfu_load_run s b nb Hnb). rewrite Hval. cbn [Z.eqb Pos.eqb negb]. gos.
  go_with (NewLfuItem_run s v (Some b)). gos.
  erewrite lfu_update_run; [|simpl; exact Hnb].
  eexists. split; [reflexivity|]. simpl. repeat split; try done.
  apply not_elem_of_dom, is_fresh.
Qed.

(** [Insert] of a new key into a cache whose bucket list is empty
    panics: with the index at its size, in [Evict] with "the set is
    empty" and no change; otherwise on [next.prev] in
    [GetNewNode(1, head, nil)], after the new bucket has been linked
    behind the head. The index is not changed. *)
Theorem Insert_with_empty_bucket_list_panics (s : LFU_Cache (T:=T) (V:=V)) k v hd nh :
  bykey s !! k = None →
  freq_Head s = Some hd → fmem s !! hd = Some nh → next nh = None →
  ∃ msg s', run (Insert zeroT nilV range_order k v) s = Panicked msg s' ∧
            bykey s' = bykey s ∧ imem s' = imem s ∧
            (len (bykey s) = size s → msg = "the set is empty" ∧ s' = s) ∧
            (len (bykey s) ≠ size s →
             msg = nil_deref ∧
             fmem s' = <[hd := set_next (Some (fresh (dom (fmem s)))) nh]>
                         (<[fresh (dom (fmem s)) := mkFreqNode 1 ∅ (Some hd) None]>
                            (fmem s))).
Proof.
  intros Hk Hhd Hnh Hnext. unfold Insert. go. unfold id.
  rewrite bool_decide_false by (rewrite Hk; by intros []).
  destruct (Z.eqb_spec (len (bykey s)) (size s)) as [Hfull|Hroom].
  - unfold Evict. gos. unfold id. destruct (len (bykey s) =? 0).
    + gos. eexists _, _. split; [reflexivity|]. by repeat split.
    + rewrite Hhd. gos. go_with (lfu_load_run s hd nh Hnh). rewrite Hnext. cbn [is_nil]. gos.
      eexists _, _. split; [reflexivity|]. by repeat split.
  - gos. unfold id. rewrite Hhd. go_with (lfu_load_run s hd nh Hnh). rewrite Hnext. cbn [is_nil].
    gos. rewrite (run_bind_panic _ _ _ _ _ (GetNewNode_nil_next s 1 hd nh Hnh)).
    eexists _, _. split; [reflexivity|]. by repeat split.
Qed.

(** [Access] of a key whose bucket is the last of the list panics on
    [next.prev] in [GetNewNode(freq + 1, bucket, nil)]: the new bucket is
    linked behind the old one, and the key stays where it was. *)
Theorem Access_in_last_bucket_panics (s : LFU_Cache (T:=T) (V:=V)) k a it f nf :
  bykey s !! k = Some a → imem s !! a = Some it →
  parent it = Some f → fmem s !! f = Some nf → next nf = None →
  ∃ s', run (Access k) s = Panicked nil_deref s' ∧
        bykey s' = bykey s ∧ imem s' = imem s ∧
        fmem s' = <[f := set_next (Some (fresh (dom (fmem s)))) nf]>
                    (<[fresh (dom (fmem s)) := mkFreqNode (value nf + 1) ∅ (Some f) None]>
                       (fmem s)).
Proof.
  intros Hk Hit Hpar Hnf Hnext. unfold Access. go. rewrite Hk. cbn [is_nil].
  go_with (load_item_run s a it Hit). rewrite Hpar.
  go_with (lfu_load_run s f nf Hnf). rewrite Hnext. cbn [is_nil]. gos.
  rewrite (run_bind_panic _ _ _ _ _ (GetNewNode_nil_next s _ f nf Hnf)).
  eexists. split; [reflexivity|]. by repeat split.
Qed.

(** Misuse panics and changes nothing: [Insert] of a key that is in the
    index panics with "Key already exists", and [Evict] on an empty index
    panics with "the set is empty". *)
Theorem Insert_and_Evict_misuse_panics (s : LFU_Cache (T:=T) (V:=V)) k v :
  (is_Some (bykey s !! k) →
   run (Insert zeroT nilV range_order k v) s = Panicked "Key already exists" s) ∧
  (bykey s = ∅ →
   run (Evict zeroT nilV range_order) s = Panicked "the set is empty" s).
Proof.
  split.
  - intros Hk. unfold Insert. go. rewrite bool_decide_true by done. by go.
  - intros He. unfold Evict. go. unfold id. rewrite He. unfold len. by rewrite map_size_empty.
Qed.

(** [Access] of a key whose bucket is followed by the bucket of the next
    frequency, and is not emptied by the move, returns the value of the
    key: the item is entered in the next bucket, gets it as parent and is
    deleted from the old one; the index is not changed. *)
Theorem Access_moves_key_to_next_bucket
    (s : LFU_Cache (T:=T) (V:=V)) k a it f nf g ng :
  bykey s !! k = Some a → imem s !! a = Some it →
  parent it = Some f → fmem s !! f = Some nf →
  next nf = Some g → f ≠ g → fmem s !! g = Some ng →
  value ng = value nf + 1 → delete k (items nf) ≠ ∅ →
  ∃ s', run (Access k) s = Returned (data it) s' ∧
        bykey s' = bykey s ∧
        imem s' = <[a := mkLFU_Item (data it) (Some g)]> (imem s) ∧
        fmem s' = <[f := set_items (delete k) nf]>
                    (<[g := set_items (<[k := a]>) ng]> (fmem s)) ∧
        size s' = size s ∧ freq_Head s' = freq_Head s.
Proof.
  intros Hk Hit Hpar Hnf Hnext Hfg Hng Hval Hrest. unfold Access. go. rewrite Hk.
  cbn [is_nil]. go_with (load_item_run s a it Hit). rewrite Hpar.
  go_with (lfu_load_run s f nf Hnf). rewrite Hnext. cbn [is_nil]. gos.
  go_with (lfu_load_run s g ng Hng). rewrite Hval, Z.eqb_refl. cbn [negb]. gos.
  go_with (lfu_update_run s g ng (set_items (put_ptr k (Some a))) Hng).
  erewrite run_bind; [|apply (update_item_run _ a it); exact Hit]; cbv beta.
  erewrite run_bind;
    [|apply (lfu_update_run _ f nf); simpl; rewrite lookup_insert_ne by done; exact Hnf];
    cbv beta.
  erewrite run_bind; [|apply lfu_load_run; simpl; apply lookup_insert_eq]; cbv beta.
  cbn [items set_items].
  destruct (Z.eqb_spec (len (delete k (items nf))) 0) as [Hz|_].
  { unfold len in Hz. destruct Hrest. apply map_size_empty_inv. lia. }
  gos. erewrite run_bind; [|apply load_item_run; simpl; apply lookup_insert_eq]; cbv beta.
  go. eexists. split; [reflexivity|]. by repeat split.
Qed.

(** [Evict] on a cache with a key in the index and a first bucket that
    the removal does not empty returns the first key [range] gives for
    that bucket, with its value, and deletes the key from the bucket and
    from the index: the victim has the lowest frequency. *)
Theorem Evict_takes_from_first_bucket
    (s : LFU_Cache (T:=T) (V:=V)) hd nh b nb item rest a it :
  bykey s ≠ ∅ →
  freq_Head s = Some hd → fmem s !! hd = Some nh →
  next nh = Some b → fmem s !! b = Some nb →
  range_order (items nb) = item :: rest → items nb !! item = Some a →
  imem s !! a = Some it → delete item (items nb) ≠ ∅ →
  ∃ s', run (Evict zeroT nilV range_order) s = Returned (item, data it) s' ∧
        bykey s' = delete item (bykey s) ∧
        fmem s' = <[b := set_items (delete item) nb]> (fmem s) ∧
        imem s' = imem s ∧ size s' = size s ∧ freq_Head s' = freq_Head s.
Proof.
  intros Hne Hhd Hnh Hb Hnb Hrange Hitem Hit Hrest. unfold Evict. go. unfold id.
  destruct (Z.eqb_spec (len (bykey s)) 0) as [Hz|_].
  { unfold len in Hz. destruct Hne. apply map_size_empty_inv. lia. }
  rewrite Hhd. go_with (lfu_load_run s hd nh Hnh). rewrite Hb. cbn [is_nil].
  go_with (lfu_load_run s b nb Hnb). rewrite Hrange, Hitem.
  go_with (lfu_update_run s b nb (set_items (delete item)) Hnb). gos.
  erewrite run_bind; [|apply lfu_load_run; simpl; apply lookup_insert_eq]; cbv beta.
  cbn [items set_items].
  destruct (Z.eqb_spec (len (delete item (items nb))) 0) as [Hz|_].
  { unfold len in Hz. destruct Hrest. apply map_size_empty_inv. lia. }
  gos. erewrite run_bind; [|apply load_item_run; simpl; exact Hit]; cbv beta.
  go. eexists. split; [reflexivity|]. by repeat split.
Qed.

(** [Evict] of the only key of a bucket that is the last of the list
    panics on [next.prev] in [DeleteNode], after the key has left the
    bucket and the index and the bucket has been unlinked from the one
    before it. *)
Theorem Evict_emptying_last_bucket_panics
    (s : LFU_Cache (T:=T) (V:=V)) hd nh b nb item a :
  bykey s ≠ ∅ →
  freq_Head s = Some hd → fmem s !! hd = Some nh →
  next nh = Some b → hd ≠ b → fmem s !! b = Some nb →
  items nb = {[item := a]} → range_order (items nb) = [item] →
  prev nb = Some hd → next nb = None →
  ∃ s', run (Evict zeroT nilV range_order) s = Panicked nil_deref s' ∧
        bykey s' = delete item (bykey s) ∧
        fmem s' = <[hd := set_next None nh]>
                    (<[b := set_items (delete item) nb]> (fmem s)) ∧
        imem s' = imem s.
Proof.
  intros Hne Hhd Hnh Hb Hhb Hnb Hitems Hrange Hprev Hnext. unfold Evict. go. unfold id.
  destruct (Z.eqb_spec (len (bykey s)) 0) as [Hz|_].
  { unfold len in Hz. destruct Hne. apply map_size_empty_inv. lia. }
  rewrite Hhd. go_with (lfu_load_run s hd nh Hnh). rewrite Hb. cbn [is_nil].
  go_with (lfu_load_run s b nb Hnb). rewrite Hrange.
  go_with (lfu_update_run s b nb (set_items (delete item)) Hnb). gos.
  erewrite run_bind; [|apply lfu_load_run; simpl; apply lookup_insert_eq]; cbv beta.
  cbn [items set_items]. rewrite Hitems, delete_singleton_eq.
  unfold len at 1. rewrite map_size_empty. change (Z.of_nat 0 =? 0) with true. cbv iota.
  unfold DeleteNode. gos.
  erewrite run_bind; [|apply lfu_load_run; simpl; apply lookup_insert_eq]; cbv beta.
  cbn [next prev set_items]. rewrite Hprev, Hnext. gos.
  erewrite run_bind;
    [|apply (lfu_update_run _ hd nh); simpl; rewrite lookup_insert_ne by done; exact Hnh];
    cbv beta.
  erewrite run_bind_panic; [|reflexivity].
  eexists. split; [reflexivity|]. simpl. unfold set_items.
  rewrite ?Hitems, ?delete_singleton_eq. by repeat split.
Qed.

End Buckets.

End Proofs.

Lemma Access_missing_key_panics_witness :
  bykey lfu_cap2 !! "nonexistent" = None ∧
  run (lfu_access "nonexistent") lfu_cap2 = Panicked "No such key" lfu_cap2.
Proof.
  split; [reflexivity|].
  apply (Access_missing_key_panics lfu_cap2 "nonexistent"). reflexivity.
Defined.

(** C8 fails on the code. On a new cache with [size = 2] the first call
    insert(k1, v1) finds no bucket after the head and calls
    [GetNewNode(1, head, nil)], which links the new bucket after the head
    and then panics on [next.prev] with [next] nil: the index stays empty,
    and the sequence of the claim stops at its first call. *)
Theorem Insert_into_new_cache_panics :
  run (lfu_insert "k1" "v1") lfu_cap2 = Panicked nil_deref lfu_k1 ∧
  bykey lfu_k1 = ∅ ∧
  bucket_list lfu_k1 = [(1, [])] ∧
  run (lfu_insert "k1" "v1";; lfu_insert "k2" "v2";; lfu_access "k2";;
       lfu_insert "k3" "v3") lfu_cap2 = Panicked nil_deref lfu_k1.
Proof. repeat split; vm_compute; reflexivity. Qed.

Lemma Insert_into_frequency_1_bucket_witness :
  ∃ s', run (Insert "" None map_keys "k2" (Some "v2")) lfu_k1 = Returned tt s' ∧
        bykey s' = <["k2" := fresh (dom (imem lfu_k1))]> (bykey lfu_k1) ∧
        imem s' = <[fresh (dom (imem lfu_k1)) := mkLFU_Item (Some "v2") (Some 1%nat)]>
                    (imem lfu_k1) ∧
        fmem s' = <[1%nat := set_items (<["k2" := fresh (dom (imem lfu_k1))]>)
                               (mkFreqNode 1 ∅ (Some 0%nat) None)]> (fmem lfu_k1) ∧
        size s' = size lfu_k1 ∧ freq_Head s' = freq_Head lfu_k1 ∧
        imem lfu_k1 !! fresh (dom (imem lfu_k1)) = None.
Proof.
  apply (Insert_into_frequency_1_bucket "" None map_keys lfu_k1 "k2" (Some "v2")
           0%nat (mkFreqNode 0 ∅ None (Some 1%nat)) 1%nat (mkFreqNode 1 ∅ (Some 0%nat) None));
    try (vm_compute; reflexivity).
  vm_compute. discriminate.
Defined.

Lemma Insert_with_empty_bucket_list_panics_witness :
  ∃ msg s', run (Insert "" None map_keys "k1" (Some "v1")) lfu_cap2 = Panicked msg s' ∧
            bykey s' = bykey lfu_cap2 ∧ imem s' = imem lfu_cap2 ∧
            (len (bykey lfu_cap2) = size lfu_cap2 → msg = "the set is empty" ∧ s' = lfu_cap2) ∧
            (len (bykey lfu_cap2) ≠ size lfu_cap2 →
             msg = nil_deref ∧
             fmem s' = <[0%nat := set_next (Some (fresh (dom (fmem lfu_cap2))))
                                    (mkFreqNode 0 ∅ None None)]>
                         (<[fresh (dom (fmem lfu_cap2)) := mkFreqNode 1 ∅ (Some 0%nat) None]>
                            (fmem lfu_cap2))).
Proof.
  apply (Insert_with_empty_bucket_list_panics "" None map_keys lfu_cap2 "k1" (Some "v1")
           0%nat (mkFreqNode 0 ∅ None None)); vm_compute; reflexivity.
Defined.

Lemma Access_in_last_bucket_panics_witness :
  ∃ s', run (Access "k2") lfu_k2 = Panicked nil_deref s' ∧
        bykey s' = bykey lfu_k2 ∧ imem s' = imem lfu_k2 ∧
        fmem s' = <[1%nat := set_next (Some (fresh (dom (fmem lfu_k2))))
                               (mkFreqNode 1 {["k2" := 0%nat]} (Some 0%nat) None)]>
                    (<[fresh (dom (fmem lfu_k2)) :=
                         mkFreqNode (value (mkFreqNode 1 {["k2" := 0%nat]} (Some 0%nat) None) + 1)
                                    ∅ (Some 1%nat) None]>
                       (fmem lfu_k2)).
Proof.
  apply (Access_in_last_bucket_panics lfu_k2 "k2" 0%nat (mkLFU_Item (Some "v2") (Some 1%nat))
           1%nat (mkFreqNode 1 {["k2" := 0%nat]} (Some 0%nat) None));
    vm_compute; reflexivity.
Defined.

Lemma Insert_and_Evict_misuse_panics_witness :
  run (Insert "" None map_keys "k2" (Some "other")) lfu_k2
    = Panicked "Key already exists" lfu_k2 ∧
  run (Evict "" None map_keys) lfu_cap2 = Panicked "the set is empty" lfu_cap2.
Proof.
  split.
  - apply (proj1 (Insert_and_Evict_misuse_panics "" None map_keys lfu_k2 "k2" (Some "other"))).
    exists 0%nat. vm_compute. reflexivity.
  - apply (proj2 (Insert_and_Evict_misuse_panics "" None map_keys lfu_cap2 "k2" (Some "other"))).
    reflexivity.
Defined.

Lemma Access_moves_key_to_next_bucket_witness :
  ∃ s', run (Access "k2") lfu_two_buckets = Returned (Some "v2") s' ∧
        bykey s' = bykey lfu_two_buckets ∧
        imem s' = <[0%nat := mkLFU_Item (Some "v2") (Some 2%nat)]> (imem lfu_two_buckets) ∧
        fmem s' = <[1%nat := set_items (delete "k2")
                               (mkFreqNode 1 {["k2" := 0%nat; "k3" := 1%nat]}
                                           (Some 0%nat) (Some 2%nat))]>
                    (<[2%nat := set_items (<["k2" := 0%nat]>)
                                  (mkFreqNode 2 ∅ (Some 1%nat) None)]>
                       (fmem lfu_two_buckets)) ∧
        size s' = size lfu_two_buckets ∧ freq_Head s' = freq_Head lfu_two_buckets.
Proof.
  apply (Access_moves_key_to_next_bucket lfu_two_buckets "k2" 0%nat
           (mkLFU_Item (Some "v2") (Some 1%nat)) 1%nat
           (mkFreqNode 1 {["k2" := 0%nat; "k3" := 1%nat]} (Some 0%nat) (Some 2%nat))
           2%nat (mkFreqNode 2 ∅ (Some 1%nat) None));
    try (vm_compute; reflexivity).
  - discriminate.
  - vm_compute. discriminate.
Defined.

Lemma Evict_takes_from_first_bucket_witness :
  ∃ s', run (Evict "" None map_keys) lfu_k3 = Returned ("k3", Some "v3") s' ∧
        bykey s' = delete "k3" (bykey lfu_k3) ∧
        fmem s' = <[1%nat := set_items (delete "k3")
                               (mkFreqNode 1 {["k2" := 0%nat; "k3" := 1%nat]}
                                           (Some 0%nat) None)]> (fmem lfu_k3) ∧
        imem s' = imem lfu_k3 ∧ size s' = size lfu_k3 ∧ freq_Head s' = freq_Head lfu_k3.
Proof.
  apply (Evict_takes_from_first_bucket "" None map_keys lfu_k3 0%nat
           (mkFreqNode 0 ∅ None (Some 1%nat)) 1%nat
           (mkFreqNode 1 {["k2" := 0%nat; "k3" := 1%nat]} (Some 0%nat) None)
           "k3" ["k2"] 1%nat (mkLFU_Item (Some "v3") (Some 1%nat)));
    try (vm_compute; reflexivity); vm_compute; discriminate.
Defined.

Lemma Evict_emptying_last_bucket_panics_witness :
  ∃ s', run (Evict "" None map_keys) lfu_k2 = Panicked nil_deref s' ∧
        bykey s' = delete "k2" (bykey lfu_k2) ∧
        fmem s' = <[0%nat := set_next None (mkFreqNode 0 ∅ None (Some 1%nat))]>
                    (<[1%nat := set_items (delete "k2")
                                  (mkFreqNode 1 {["k2" := 0%nat]} (Some 0%nat) None)]>
                       (fmem lfu_k2)) ∧
        imem s' = imem lfu_k2.
Proof.
  apply (Evict_emptying_last_bucket_panics "" None map_keys lfu_k2 0%nat
           (mkFreqNode 0 ∅ None (Some 1%nat)) 1%nat
           (mkFreqNode 1 {["k2" := 0%nat]} (Some 0%nat) None) "k2" 0%nat);
    try (vm_compute; reflexivity); try discriminate; vm_compute; discriminate.
Defined.

End LFUProofs.

(** ** SIEVE *)

Module SieveProofs.
Import Sieve SieveDefs.
Section Proofs.
Context {K : Type} `{Countable K} {V : Type}.
Variable zeroK : K.
Variable nilV : V.

Abbreviation St := (Sieve (K:=K) (V:=V)).
Abbreviation Mem := (gmap nat (Node (K:=K) (V:=V))).

Lemma load_Some (s : St) a n :
  mem s !! a = Some n → run (load (Some a)) s = Returned n s.
Proof. intros Hn. unfold load. simpl. by rewrite Hn. Qed.

Lemma update_Some (s : St) a n f :
  mem s !! a = Some n →
  run (update (Some a) f) s = Returned tt (with_mem (alter f a) s).
Proof.
  intros Hn. unfold update. go_with (load_Some _ _ _ Hn). go.
  f_equal. unfold with_mem. f_equal.
  apply map_eq. intros x. rewrite lookup_alter, lookup_insert.
  case_decide; [subst; by rewrite Hn|done].
Qed.

Lemma fld_alter {A} (g : Node → A) f (m : Mem) a x :
  fld g (alter f a m) x = if decide (a = x) then fld (g ∘ f) m x else fld g m x.
Proof.
  unfold fld. rewrite lookup_alter. case_decide as Hax; [rewrite Hax|done].
  by destruct (m !! x).
Qed.

Lemma fld_Some {A} (g : Node → A) (m : Mem) a y :
  fld g m a = Some y ↔ ∃ n, m !! a = Some n ∧ g n = y.
Proof. unfold fld. rewrite fmap_Some. split; intros (n & ? & ?); exists n; by split. Qed.

(** A store that agrees with [m] on the links read by [chain]. *)
Lemma chain_frame (m m' : Mem) l : ∀ p t,
  (∀ x, x ∈ p :: l → fld next m' x = fld next m x) →
  (∀ x, x ∈ l ++ [t] →
        fld prev m' x = fld prev m x ∧
        fld end_identifier m' x = fld end_identifier m x) →
  chain m p l t → chain m' p l t.
Proof.
  induction l as [|a l IH]; intros p t Hn Hp; simpl.
  - intros [H1 H2]. rewrite Hn by (by left).
    destruct (Hp t) as [-> _]; [by left|done].
  - intros (H1 & H2 & H3 & H4). rewrite Hn by (by left).
    destruct (Hp a) as [-> ->]; [by left|].
    repeat split; try done. apply IH; [| |done].
    + intros x Hx. apply Hn. by right.
    + intros x Hx. apply Hp. by right.
Qed.

(** The neighbours of a node of the chain. *)
Lemma chain_neighbours (m : Mem) l1 : ∀ p a l2 t,
  chain m p (l1 ++ a :: l2) t →
  fld prev m a = Some (Some (default p (last l1))) ∧
  fld next m (default p (last l1)) = Some (Some a) ∧
  fld next m a = Some (Some (default t (hd_error l2))) ∧
  fld prev m (default t (hd_error l2)) = Some (Some a) ∧
  fld end_identifier m a = Some 0.
Proof.
  induction l1 as [|b l1 IH]; intros p a l2 t; simpl.
  - intros (H1 & H2 & H3 & H4). repeat split; try done.
    + destruct l2; simpl in *; tauto.
    + destruct l2; simpl in *; tauto.
  - intros (H1 & H2 & H3 & H4). specialize (IH _ _ _ _ H4).
    rewrite last_cons. destruct (last l1); simpl in *; done.
Qed.

Lemma chain_end_identifier (m : Mem) l p t a :
  chain m p l t → a ∈ l → fld end_identifier m a = Some 0.
Proof.
  intros Hc Ha. apply list_elem_of_split in Ha as (l1 & l2 & ->).
  by apply chain_neighbours in Hc as (_ & _ & _ & _ & ?).
Qed.

Lemma chain_tail_prev (m : Mem) l p t :
  chain m p l t → fld prev m t = Some (Some (default p (last l))).
Proof.
  revert p. induction l as [|a l IH]; intros p; simpl; [tauto|].
  intros (_ & _ & _ & Hc). rewrite last_cons. specialize (IH _ Hc).
  by destruct (last l).
Qed.

Lemma chain_head_next (m : Mem) l p t :
  chain m p l t → fld next m p = Some (Some (default t (hd_error l))).
Proof. destruct l; simpl; tauto. Qed.

Lemma fld_alter_same {A} (g : Node → A) f (m : Mem) a x :
  (∀ n, g (f n) = g n) → fld g (alter f a m) x = fld g m x.
Proof.
  intros Hg. rewrite fld_alter. case_decide; [|done].
  unfold fld. destruct (m !! x); simpl; [|done]. by rewrite Hg.
Qed.

Lemma fld_alter_ne {A} (g : Node → A) f (m : Mem) a x :
  a ≠ x → fld g (alter f a m) x = fld g m x.
Proof. intros Hne. rewrite fld_alter. by case_decide. Qed.

Lemma fld_alter_eq {A} (g : Node → A) f (m : Mem) a y :
  is_Some (m !! a) → (∀ n, g (f n) = y) → fld g (alter f a m) a = Some y.
Proof.
  intros [n Hn] Hg. rewrite fld_alter. case_decide; [|done].
  unfold fld. rewrite Hn. simpl. by rewrite Hg.
Qed.

Lemma fld_is_Some {A B} (g : Node → A) (g' : Node → B) (m : Mem) a :
  is_Some (fld g m a) → is_Some (fld g' m a).
Proof. unfold fld. destruct (m !! a); simpl; [eauto|by intros [? ?]]. Qed.

Lemma fld_clear_in {A} (g : Node → A) L (m : Mem) x :
  (∀ n, g (set_visited false n) = g n) → fld g (clear_in L m) x = fld g m x.
Proof.
  intros Hg. induction L as [|a L IH]; [done|]. simpl.
  by rewrite fld_alter_same.
Qed.

Lemma visited_clear_in L (m : Mem) x :
  fld visited (clear_in L m) x =
    if decide (x ∈ L) then fld (λ _, false) m x else fld visited m x.
Proof.
  induction L as [|a L IH]; [done|]. simpl. rewrite fld_alter.
  destruct (decide (a = x)) as [->|Hne].
  - rewrite decide_True by (by left).
    transitivity (fld (λ _ : Node (K:=K) (V:=V), false) (clear_in L m) x).
    { unfold fld. by destruct (clear_in L m !! x). }
    by apply fld_clear_in.
  - rewrite IH. destruct (decide (x ∈ L)) as [Hin|Hnin].
    + rewrite decide_True by (by right). done.
    + rewrite decide_False; [done|]. intros [?|?]%elem_of_cons; congruence.
Qed.

Lemma clear_in_app L1 L2 (m : Mem) :
  clear_in (L1 ++ L2) m = clear_in L1 (clear_in L2 m).
Proof. unfold clear_in. by rewrite foldr_app. Qed.

Lemma chain_clear_in L (m : Mem) p l t :
  chain m p l t → chain (clear_in L m) p l t.
Proof.
  apply chain_frame.
  - intros x _. by apply fld_clear_in.
  - intros x _. split; by apply fld_clear_in.
Qed.

Lemma linked_with_mem (s : St) l f :
  (∀ x, fld next (f (mem s)) x = fld next (mem s) x ∧
        fld prev (f (mem s)) x = fld prev (mem s) x ∧
        fld end_identifier (f (mem s)) x = fld end_identifier (mem s) x) →
  linked s l → linked (with_mem f s) l.
Proof.
  intros Hf (h & t & Hh & Ht & Heh & Het & Hnd & Hc).
  exists h, t. simpl. repeat split; try done.
  - destruct (Hf h) as (_ & _ & ->). done.
  - destruct (Hf t) as (_ & _ & ->). done.
  - revert Hc. apply chain_frame; intros x _; destruct (Hf x) as (? & ? & ?); done.
Qed.

Lemma linked_clear_in (s : St) l L :
  linked s l → linked (with_mem (clear_in L) s) l.
Proof.
  apply linked_with_mem. intros x. repeat split; by apply fld_clear_in.
Qed.

Lemma sweep_stop (s : St) fuel a :
  fld visited (mem s) a = Some false →
  run (sweep fuel (Some a)) s = Returned (Some a) s.
Proof.
  intros (n & Hn & Hv)%fld_Some.
  destruct fuel; cbn [sweep]; go_with (load_Some _ _ _ Hn); by rewrite Hv.
Qed.

Lemma getTail_run (s : St) t :
  tail (FifoQueue s) = Some t → fld end_identifier (mem s) t = Some (-1) →
  run getTail s = Returned (Some t) s.
Proof.
  intros Ht (n & Hn & He)%fld_Some. unfold getTail. go. rewrite Ht.
  go_with (load_Some _ _ _ Hn). by rewrite He.
Qed.

Lemma getHead_run (s : St) h :
  head (FifoQueue s) = Some h → fld end_identifier (mem s) h = Some 1 →
  run getHead s = Returned (Some h) s.
Proof.
  intros Hh (n & Hn & He)%fld_Some. unfold getHead. go. rewrite Hh.
  go_with (load_Some _ _ _ Hn). by rewrite He.
Qed.

(** One iteration of the loop that stays inside the list. *)
Lemma sweep_step (s : St) fuel a b :
  fld visited (mem s) a = Some true →
  fld prev (mem s) a = Some (Some b) →
  fld end_identifier (mem s) b = Some 0 →
  run (sweep (S fuel) (Some a)) s =
    run (sweep fuel (Some b)) (with_mem (clear_in [a]) s).
Proof.
  intros (n & Hn & Hv)%fld_Some (n' & Hn' & Hp)%fld_Some He.
  assert (n' = n) as -> by congruence.
  cbn [sweep]. go_with (load_Some _ _ _ Hn). rewrite Hv.
  go_with (update_Some _ _ _ (set_visited false) Hn). rewrite Hp.
  assert (fld end_identifier (mem (with_mem (alter (set_visited false) a) s)) b = Some 0)
    as (nb & Hnb & Heb)%fld_Some by (simpl; by rewrite fld_alter_same).
  go_with (load_Some _ _ _ Hnb). by rewrite Heb.
Qed.

(** The iteration that walks off past [HEAD] and wraps. *)
Lemma sweep_step_wrap (s : St) fuel a h t c :
  fld visited (mem s) a = Some true →
  fld prev (mem s) a = Some (Some h) →
  fld end_identifier (mem s) h = Some 1 →
  tail (FifoQueue s) = Some t →
  fld end_identifier (mem s) t = Some (-1) →
  fld prev (mem s) t = Some (Some c) →
  run (sweep (S fuel) (Some a)) s =
    run (sweep fuel (Some c)) (with_mem (clear_in [a]) s).
Proof.
  intros (n & Hn & Hv)%fld_Some (n' & Hn' & Hp)%fld_Some He Ht Het Hpt.
  assert (n' = n) as -> by congruence.
  cbn [sweep]. go_with (load_Some _ _ _ Hn). rewrite Hv.
  go_with (update_Some _ _ _ (set_visited false) Hn). rewrite Hp.
  set (s1 := with_mem (alter (set_visited false) a) s).
  assert (fld end_identifier (mem s1) h = Some 1)
    as (nh & Hnh & Heh)%fld_Some by (simpl; by rewrite fld_alter_same).
  go_with (load_Some _ _ _ Hnh). rewrite Heh. simpl Z.eqb. cbv iota.
  assert (run getTail s1 = Returned (Some t) s1) as Hgt.
  { apply getTail_run; [done|]. simpl. by rewrite fld_alter_same. }
  go_with Hgt.
  assert (fld prev (mem s1) t = Some (Some c))
    as (nt & Hnt & Hpt')%fld_Some by (simpl; by rewrite fld_alter_same).
  go_with (load_Some _ _ _ Hnt). by rewrite Hpt'.
Qed.

Lemma with_mem_with_mem (s : St) f g :
  with_mem f (with_mem g s) = with_mem (f ∘ g) s.
Proof. done. Qed.

Lemma linked_NoDup (s : St) l : linked s l → NoDup l.
Proof.
  intros (h & t & _ & _ & _ & _ & Hnd & _).
  apply NoDup_cons in Hnd as [_ Hnd]. by apply NoDup_app in Hnd as [? _].
Qed.

Lemma linked_in_mem (s : St) l a : linked s l → a ∈ l → is_Some (mem s !! a).
Proof.
  intros (h & t & _ & _ & _ & _ & _ & Hc) Ha.
  apply (chain_end_identifier _ _ _ _ _ Hc) in Ha as (n & Hn & _)%fld_Some. eauto.
Qed.

Lemma linked_visited (s : St) l a :
  linked s l → a ∈ l →
  fld visited (mem s) a = Some true ∨ fld visited (mem s) a = Some false.
Proof.
  intros Hl Ha. destruct (linked_in_mem _ _ _ Hl Ha) as [n Hn].
  unfold fld. rewrite Hn. simpl. destruct (visited n); eauto.
Qed.

(** Walking down a run of visited nodes clears them and stops short of
    the node before the run. *)
Lemma sweep_walk seg : ∀ (s : St) fuel l1 x l2,
  linked s (l1 ++ x :: seg ++ l2) →
  Forall (λ a, fld visited (mem s) a = Some true) seg →
  run (sweep (length seg + fuel) (Some (default x (last seg)))) s =
    run (sweep fuel (Some x)) (with_mem (clear_in seg) s).
Proof.
  induction seg as [|a seg IH] using rev_ind; intros s fuel l1 x l2 Hl Hv.
  { simpl. by destruct s. }
  rewrite last_snoc. simpl default.
  rewrite length_app. simpl length.
  replace (length seg + 1 + fuel)%nat with (S (length seg + fuel)) by lia.
  apply Forall_app in Hv as [Hv Ha]. apply Forall_inv in Ha.
  rewrite <- app_assoc in Hl. simpl in Hl.
  assert (Hnd := linked_NoDup _ _ Hl).
  assert (Hsplit : l1 ++ x :: seg ++ a :: l2 = (l1 ++ x :: seg) ++ a :: l2).
  { by rewrite <- app_assoc. }
  assert (Hc : ∃ h t, chain (mem s) h ((l1 ++ x :: seg) ++ a :: l2) t).
  { destruct Hl as (h & t & _ & _ & _ & _ & _ & Hc). exists h, t. by rewrite <- Hsplit. }
  destruct Hc as (h & t & Hc).
  rewrite Hsplit in Hnd.
  pose proof (chain_neighbours _ _ _ _ _ _ Hc) as (Hp & _ & _ & _ & _).
  assert (Hlast : default h (last (l1 ++ x :: seg)) = default x (last seg)).
  { rewrite last_app. simpl. rewrite last_cons. by destruct (last seg). }
  rewrite Hlast in Hp.
  assert (Hb : default x (last seg) ∈ (l1 ++ x :: seg) ++ a :: l2).
  { apply elem_of_app. left. apply elem_of_app. right.
    destruct (last seg) as [y|] eqn:Hy; simpl.
    - apply elem_of_cons. right. by apply last_Some_elem_of.
    - by left. }
  rewrite (sweep_step s _ a (default x (last seg)) Ha Hp
             (chain_end_identifier _ _ _ _ _ Hc Hb)).
  assert (Ha_seg : a ∉ seg).
  { apply NoDup_app in Hnd as (_ & Hd & _). intros Hin.
    apply (Hd a); [|by left]. apply elem_of_app. right. by right. }
  rewrite (IH _ fuel l1 x (a :: l2)).
  - unfold with_mem. simpl. rewrite clear_in_app. reflexivity.
  - by apply linked_clear_in.
  - apply Forall_forall. intros y Hy. simpl.
    rewrite fld_alter_ne by (by intros ->).
    by apply (proj1 (Forall_forall _ _) Hv).
Qed.

(** The run of visited nodes that reaches [HEAD]: the sweep clears it
    and wraps to the node before [TAIL]. *)
Lemma sweep_wrap (s : St) fuel a0 seg l2 :
  linked s (a0 :: seg ++ l2) →
  Forall (λ a, fld visited (mem s) a = Some true) (a0 :: seg) →
  run (sweep (S (length seg) + fuel) (Some (default a0 (last seg)))) s =
    run (sweep fuel (Some (default a0 (last (seg ++ l2)))))
        (with_mem (clear_in (a0 :: seg)) s).
Proof.
  intros Hl Hv. apply Forall_cons in Hv as [Ha0 Hv].
  replace (S (length seg) + fuel)%nat with (length seg + S fuel)%nat by lia.
  rewrite (sweep_walk seg s (S fuel) [] a0 l2 Hl Hv).
  assert (Hnd := linked_NoDup _ _ Hl).
  apply NoDup_cons in Hnd as [Ha0_seg _].
  pose proof (linked_clear_in _ _ seg Hl) as Hl1.
  set (s1 := with_mem (clear_in seg) s) in *.
  destruct Hl1 as (h & t & Hh & Ht & Heh & Het & _ & Hc).
  pose proof (chain_neighbours _ [] _ _ _ _ Hc) as (Hp & _).
  pose proof (chain_tail_prev _ _ _ _ Hc) as Hpt.
  simpl in Hp. rewrite last_cons in Hpt.
  assert (Hlast : default h (match last (seg ++ l2) with Some y => Some y | None => Some a0 end)
                  = default a0 (last (seg ++ l2))) by (by destruct (last (seg ++ l2))).
  rewrite Hlast in Hpt.
  assert (Hv0 : fld visited (mem s1) a0 = Some true).
  { simpl. rewrite visited_clear_in. rewrite decide_False; [done|].
    intros Hin. apply Ha0_seg. apply elem_of_app. by left. }
  rewrite (sweep_step_wrap s1 fuel a0 h t _ Hv0 Hp Heh Ht Het Hpt).
  reflexivity.
Qed.

Lemma split_unvisited (m : Mem) L :
  (∀ a, a ∈ L → fld visited m a = Some true ∨ fld visited m a = Some false) →
  Forall (λ a, fld visited m a = Some true) L ∨
  ∃ L' v seg, L = L' ++ v :: seg ∧ fld visited m v = Some false ∧
              Forall (λ a, fld visited m a = Some true) seg.
Proof.
  induction L as [|a L IH]; intros Hdef; [by left|].
  destruct IH as [Hall|(L' & v & seg & -> & Hv & Hseg)].
  { intros x Hx. apply Hdef. by right. }
  - destruct (Hdef a) as [Ha|Ha]; [by left| |].
    + left. by apply Forall_cons.
    + right. by exists [], a, L.
  - right. by exists (a :: L'), v, seg.
Qed.

Lemma with_mem_clear_in (s : St) L1 L2 :
  with_mem (clear_in L1) (with_mem (clear_in L2) s) = with_mem (clear_in (L1 ++ L2)) s.
Proof. unfold with_mem. simpl. by rewrite clear_in_app. Qed.

Lemma last_cons_default {A} (a : A) l : last (a :: l) = Some (default a (last l)).
Proof. rewrite last_cons. by destruct (last l). Qed.

Lemma last_app_cons {A} (l1 : list A) x l2 :
  last (l1 ++ x :: l2) = Some (default x (last l2)).
Proof. rewrite last_app, last_cons_default. done. Qed.

Lemma Forall_visited_clear_other (m : Mem) L L' :
  (∀ a, a ∈ L → a ∉ L') →
  Forall (λ a, fld visited m a = Some true) L →
  Forall (λ a, fld visited (clear_in L' m) a = Some true) L.
Proof.
  intros Hdisj Hv. apply Forall_forall. intros y Hy.
  rewrite visited_clear_in, decide_False by (by apply Hdisj).
  by apply (proj1 (Forall_forall _ _) Hv).
Qed.

(** The sweep started at the last node [c] of [P] returns. Its victim [v]
    carries a cleared bit; [v] was unvisited at the start whenever the
    list held an unvisited node, and when every node was visited all bits
    are cleared and [v] is the node the sweep started at. *)
Lemma sweep_from (s : St) fuel P c l2 :
  linked s (P ++ l2) → last P = Some c →
  (2 * length (P ++ l2) ≤ fuel)%nat →
  ∃ v cleared,
    run (sweep fuel (Some c)) s = Returned (Some v) (with_mem (clear_in cleared) s) ∧
    v ∈ P ++ l2 ∧
    fld visited (clear_in cleared (mem s)) v = Some false ∧
    (∀ a, a ∈ cleared → a ∈ P ++ l2 ∧ fld visited (mem s) a = Some true) ∧
    ((∃ a, a ∈ P ++ l2 ∧ fld visited (mem s) a = Some false) →
     fld visited (mem s) v = Some false) ∧
    ((∀ a, a ∈ P ++ l2 → fld visited (mem s) a = Some true) →
     v = c ∧ ∀ a, a ∈ P ++ l2 → a ∈ cleared).
Proof.
  intros Hl Hc Hfuel. rewrite length_app in Hfuel.
  assert (Hnd := linked_NoDup _ _ Hl).
  assert (Hdef := λ a, linked_visited s _ a Hl).
  destruct (split_unvisited (mem s) P) as [HallP|(L' & v & seg & -> & Hv & Hseg)].
  { intros a Ha. apply Hdef. apply elem_of_app. by left. }
  2:{ (* an unvisited node before the wrap *)
    rewrite last_app_cons in Hc. injection Hc as <-.
    rewrite <- app_assoc in Hl, Hnd. simpl in Hl, Hnd.
    rewrite <- app_assoc. simpl.
    rewrite length_app in Hfuel. simpl in Hfuel.
    exists v, seg.
    replace fuel with (length seg + (fuel - length seg))%nat by lia.
    rewrite (sweep_walk seg s _ L' v l2 Hl Hseg).
    assert (Hv_seg : v ∉ seg).
    { apply NoDup_app in Hnd as (_ & _ & Hnd). apply NoDup_cons in Hnd as [Hv_n _].
      intros Hin. apply Hv_n. apply elem_of_app. by left. }
    assert (Hv' : fld visited (clear_in seg (mem s)) v = Some false).
    { rewrite visited_clear_in. by rewrite decide_False. }
    split; [by apply sweep_stop|].
    split; [apply elem_of_app; right; by left|].
    split; [done|].
    split.
    { intros a Ha. split.
      - apply elem_of_app. right. right. apply elem_of_app. by left.
      - by apply (proj1 (Forall_forall _ _) Hseg). }
    split; [done|].
    intros Hall. rewrite Hall in Hv; [done|]. apply elem_of_app; right; by left. }
  (* every node of [P] is visited: the sweep wraps *)
  destruct P as [|a0 seg0]; [done|].
  rewrite last_cons_default in Hc. injection Hc as <-.
  simpl in Hl, Hfuel.
  pose proof (sweep_wrap s (fuel - S (length seg0)) a0 seg0 l2 Hl HallP) as Hw.
  replace (S (length seg0) + (fuel - S (length seg0)))%nat with fuel in Hw by lia.
  rewrite Hw. clear Hw.
  set (P := a0 :: seg0) in *.
  pose proof (linked_clear_in _ _ P Hl) as Hl1.
  set (s1 := with_mem (clear_in P) s) in *.
  assert (Hdisj : ∀ a, a ∈ l2 → a ∉ P).
  { intros a Ha HaP. change (a0 :: seg0 ++ l2) with (P ++ l2) in Hnd.
    apply NoDup_app in Hnd as (_ & Hd & _). by apply (Hd a). }
  assert (Hlast : last (P ++ l2) = Some (default a0 (last (seg0 ++ l2)))).
  { unfold P. simpl. apply last_cons_default. }
  destruct (split_unvisited (mem s) l2) as [Hall2|(L2 & v & seg & -> & Hv & Hseg)].
  { intros a Ha. apply Hdef. apply elem_of_app. by right. }
  - (* every node is visited: back to the start *)
    destruct (last_Some P (default a0 (last seg0))) as [[l1 HP] _].
    { unfold P. apply last_cons_default. }
    set (c := default a0 (last seg0)) in *.
    assert (Hcur : default a0 (last (seg0 ++ l2)) = default c (last l2)).
    { rewrite HP, <- app_assoc in Hlast. simpl in Hlast.
      rewrite last_app_cons in Hlast. congruence. }
    rewrite Hcur.
    exists c, (l2 ++ P).
    pose proof (sweep_walk l2 s1 (fuel - S (length seg0) - length l2) l1 c []) as Hw.
    rewrite app_nil_r in Hw.
    replace (length l2 + (fuel - S (length seg0) - length l2))%nat
      with (fuel - S (length seg0))%nat in Hw by lia.
    rewrite Hw; clear Hw.
    2:{ change (a0 :: seg0 ++ l2) with (P ++ l2) in Hl1.
        by rewrite HP, <- app_assoc in Hl1. }
    2:{ by apply Forall_visited_clear_other. }
    assert (Hc_P : c ∈ P) by (rewrite HP; apply elem_of_app; right; by left).
    assert (Hv' : fld visited (clear_in (l2 ++ P) (mem s)) c = Some false).
    { rewrite visited_clear_in, decide_True by (apply elem_of_app; by right).
      destruct (linked_in_mem s _ c Hl) as [n Hn].
      { change (a0 :: seg0 ++ l2) with (P ++ l2). apply elem_of_app. by left. }
      unfold fld. by rewrite Hn. }
    split.
    { unfold s1. rewrite with_mem_clear_in. apply sweep_stop. exact Hv'. }
    split; [apply elem_of_app; by left|]. split; [done|].
    split.
    { intros a Ha. apply elem_of_app in Ha as [Ha|Ha].
      - split; [apply elem_of_app; by right|]. by apply (proj1 (Forall_forall _ _) Hall2).
      - split; [apply elem_of_app; by left|]. by apply (proj1 (Forall_forall _ _) HallP). }
    split.
    { intros (a & Ha & Hva). apply elem_of_app in Ha as [Ha|Ha].
      - rewrite (proj1 (Forall_forall _ _) HallP a Ha) in Hva. done.
      - rewrite (proj1 (Forall_forall _ _) Hall2 a Ha) in Hva. done. }
    intros _. split; [done|]. intros a Ha. apply elem_of_app.
    apply elem_of_app in Ha as [Ha|Ha]; [by right|by left].
  - (* an unvisited node after the wrap *)
    assert (Hcur : default a0 (last (seg0 ++ L2 ++ v :: seg)) = default v (last seg)).
    { rewrite (app_assoc P L2), last_app_cons in Hlast. congruence. }
    rewrite Hcur.
    exists v, (seg ++ P).
    pose proof (sweep_walk seg s1 (fuel - S (length seg0) - length seg) (P ++ L2) v []) as Hw.
    rewrite app_nil_r in Hw.
    rewrite length_app in Hfuel. simpl in Hfuel.
    replace (length seg + (fuel - S (length seg0) - length seg))%nat
      with (fuel - S (length seg0))%nat in Hw by lia.
    rewrite Hw; clear Hw.
    2:{ change (a0 :: seg0 ++ L2 ++ v :: seg) with (P ++ L2 ++ v :: seg) in Hl1.
        by rewrite <- app_assoc. }
    2:{ apply Forall_visited_clear_other; [|done].
        intros a Ha. apply Hdisj. apply elem_of_app. right. by right. }
    assert (Hv_l2 : v ∈ L2 ++ v :: seg) by (apply elem_of_app; right; by left).
    assert (Hv_seg : v ∉ seg).
    { change (a0 :: seg0 ++ L2 ++ v :: seg) with (P ++ L2 ++ v :: seg) in Hnd.
      apply NoDup_app in Hnd as (_ & _ & Hnd).
      apply NoDup_app in Hnd as (_ & _ & Hnd). by apply NoDup_cons in Hnd as [? _]. }
    assert (Hv' : fld visited (clear_in (seg ++ P) (mem s)) v = Some false).
    { rewrite visited_clear_in, decide_False; [done|].
      intros [?|?]%elem_of_app; [done|]. by apply (Hdisj v). }
    split.
    { unfold s1. rewrite with_mem_clear_in. apply sweep_stop. exact Hv'. }
    split; [apply elem_of_app; by right|]. split; [done|].
    split.
    { intros a Ha. apply elem_of_app in Ha as [Ha|Ha].
      - split; [apply elem_of_app; right; apply elem_of_app; right; by right|].
        by apply (proj1 (Forall_forall _ _) Hseg).
      - split; [apply elem_of_app; by left|]. by apply (proj1 (Forall_forall _ _) HallP). }
    split; [done|].
    intros Hall. rewrite Hall in Hv; [done|]. apply elem_of_app. by right.
Qed.

Lemma update_run (s : St) a f :
  is_Some (mem s !! a) →
  run (update (Some a) f) s = Returned tt (with_mem (alter f a) s).
Proof. intros [n Hn]. by eapply update_Some. Qed.

Lemma alter_is_Some (m : Mem) f a x : is_Some (alter f a m !! x) ↔ is_Some (m !! x).
Proof.
  rewrite lookup_alter. case_decide; [subst|done].
  by rewrite fmap_is_Some.
Qed.

Lemma fld_insert {A} (g : Node → A) (m : Mem) a n x :
  fld g (<[a := n]> m) x = if decide (a = x) then Some (g n) else fld g m x.
Proof. unfold fld. rewrite lookup_insert. by case_decide. Qed.

Lemma Insert_unfold fuel (k : K) (data : V) (s : St) :
  run (Insert zeroK fuel k data) s =
    run ((if len (Nodes s) =? Capacity s then evict fuel else mret tt);;
         Insert_link zeroK k data) s.
Proof. reflexivity. Qed.

(** Fields of the store after [unlink]. *)
Lemma unlink_next (m : Mem) pv nx x :
  fld next (unlink pv nx m) x =
    if decide (pv = x) then (λ _, Some nx) <$> m !! x else fld next m x.
Proof.
  unfold unlink. rewrite fld_alter_same by done. rewrite fld_alter.
  case_decide; [|done]. unfold fld. by destruct (m !! x).
Qed.

Lemma unlink_prev (m : Mem) pv nx x :
  fld prev (unlink pv nx m) x =
    if decide (nx = x) then (λ _, Some pv) <$> m !! x else fld prev m x.
Proof.
  unfold unlink. rewrite fld_alter. case_decide.
  - subst. unfold fld. rewrite lookup_alter. case_decide; subst; by destruct (m !! x).
  - by rewrite fld_alter_same.
Qed.

Lemma unlink_other {A} (g : Node (K:=K) (V:=V) → A) (m : Mem) pv nx x :
  (∀ p n, g (set_next p n) = g n) → (∀ p n, g (set_prev p n) = g n) →
  fld g (unlink pv nx m) x = fld g m x.
Proof. intros H1 H2. unfold unlink. by rewrite !fld_alter_same. Qed.

(** Unlinking a node of a chain. *)
Lemma chain_unlink (m : Mem) v l2 t l1 : ∀ p,
  NoDup (p :: l1 ++ v :: l2 ++ [t]) →
  chain m p (l1 ++ v :: l2) t →
  chain (unlink (default p (last l1)) (default t (hd_error l2)) m) p (l1 ++ l2) t.
Proof.
  induction l1 as [|a l1 IH]; intros p Hnd Hc.
  - simpl in *. destruct Hc as (Hpn & Hvp & Hve & Hc).
    apply NoDup_cons in Hnd as [Hp Hnd]. apply NoDup_cons in Hnd as [Hv Hnd].
    assert (Hp_in : is_Some (m !! p)) by (apply fld_Some in Hpn as (? & ? & _); eauto).
    destruct l2 as [|b l2]; simpl in *.
    + destruct Hc as [Hvn Htp].
      assert (Ht_in : is_Some (m !! t)) by (apply fld_Some in Htp as (? & ? & _); eauto).
      rewrite unlink_next, unlink_prev, !decide_True by done.
      destruct Hp_in as [np Hnp], Ht_in as [nt Hnt]. rewrite Hnp, Hnt. by split.
    + destruct Hc as (Hvn & Hbv & Hbe & Hc).
      assert (Hb_in : is_Some (m !! b)) by (apply fld_Some in Hbv as (? & ? & _); eauto).
      rewrite unlink_next, unlink_prev, !decide_True by done.
      rewrite unlink_other by done.
      destruct Hp_in as [np Hnp], Hb_in as [nb Hnb]. rewrite Hnp, Hnb.
      repeat split; try done.
      revert Hc. apply chain_frame.
      * intros x Hx. rewrite unlink_next, decide_False; [done|].
        intros ->. apply Hp. right. apply (elem_of_app (b :: l2)). by left.
      * intros x Hx. rewrite unlink_prev, decide_False.
        { split; [done|]. by apply unlink_other. }
        intros ->. apply NoDup_cons in Hnd as [Hb _]. done.
  - simpl in Hc. destruct Hc as (Hpn & Hap & Hae & Hc).
    apply NoDup_cons in Hnd as [Hp Hnd].
    specialize (IH a Hnd Hc).
    assert (Hlast : default p (last (a :: l1)) = default a (last l1)).
    { rewrite last_cons. by destruct (last l1). }
    rewrite Hlast. simpl.
    assert (Hpv : default a (last l1) ≠ p).
    { intros E. apply Hp. rewrite <- E. simpl.
      destruct (last l1) as [y|] eqn:Hy; simpl; [|by left].
      right. apply elem_of_app. left. by apply last_Some_elem_of. }
    assert (Hnx : default t (hd_error l2) ≠ a).
    { intros E. apply NoDup_cons in Hnd as [Ha _]. apply Ha. rewrite <- E.
      apply elem_of_app. right. right.
      destruct l2 as [|b l2]; simpl; [by left|]. by left. }
    rewrite unlink_next, unlink_prev, !decide_False by done.
    rewrite unlink_other by done. done.
Qed.

Lemma pred_in_split l x c :
  pred_in l x = Some c → ∃ l1 l2, l = l1 ++ c :: x :: l2.
Proof.
  induction l as [|a l IH]; [done|]. simpl.
  destruct l as [|b l]; [done|].
  destruct (decide (b = x)) as [->|Hne].
  - intros [= ->]. by exists [], l.
  - intros (l1 & l2 & Hl)%IH. exists (a :: l1), l2. by rewrite Hl.
Qed.

Lemma linked_last_prev (s : St) l c t :
  linked s l → tail (FifoQueue s) = Some t → last l = Some c →
  fld prev (mem s) t = Some (Some c).
Proof.
  intros (h & t' & _ & Ht & _ & _ & _ & Hc) Ht' Hl.
  assert (t' = t) as -> by congruence.
  rewrite (chain_tail_prev _ _ _ _ Hc), Hl. done.
Qed.

(** How [evict] finds the node at which its sweep starts. *)
Lemma evict_start_run (s : St) l c :
  linked s l → start_of s l = Some c →
  ∃ n1, prev n1 = Some c ∧
    ∀ A (k : Node → M St A),
      run ((match hand s with
            | None => getTail
            | Some _ =>
                n ← load (hand s);
                if end_identifier n =? 1 then getTail else mret (hand s)
            end) ≫= (λ hand1, load hand1 ≫= k)) s = run (k n1) s.
Proof.
  intros Hl Hstart.
  pose proof Hl as (h & t & Hh & Ht & Heh & Het & Hnd & Hc).
  assert (Htail : last l = Some c →
            ∃ n1, prev n1 = Some c ∧ ∀ A (k : Node → M St A),
              run (getTail ≫= (λ hand1, load hand1 ≫= k)) s = run (k n1) s).
  { intros Hlast.
    pose proof (linked_last_prev _ _ _ _ Hl Ht Hlast) as (nt & Hnt & Hpt)%fld_Some.
    exists nt. split; [done|]. intros A k.
    go_with (getTail_run _ _ Ht Het). by go_with (load_Some _ _ _ Hnt). }
  unfold start_of in Hstart. destruct (hand s) as [x|] eqn:Hhand; [|by apply Htail].
  destruct (decide (Some x = head (FifoQueue s))) as [Hx|Hx].
  - destruct (Htail Hstart) as (n1 & Hn1 & Hk). exists n1. split; [done|].
    intros A k. assert (x = h) as -> by congruence.
    apply fld_Some in Heh as (nh & Hnh & Heh).
    rewrite bind_assoc.
    go_with (load_Some _ _ _ Hnh). rewrite Heh. simpl. apply Hk.
  - apply pred_in_split in Hstart as (l1 & l2 & ->).
    assert (Hsplit : l1 ++ c :: x :: l2 = (l1 ++ [c]) ++ x :: l2) by (by rewrite <- app_assoc).
    rewrite Hsplit in Hc.
    apply chain_neighbours in Hc as (Hp & _ & _ & _ & He).
    rewrite last_snoc in Hp. simpl in Hp.
    apply fld_Some in Hp as (nx & Hnx & Hp).
    apply fld_Some in He as (nx' & Hnx' & He). assert (nx' = nx) as -> by congruence.
    exists nx. split; [done|]. intros A k.
    rewrite bind_assoc.
    go_with (load_Some _ _ _ Hnx). rewrite He.
    change (0 =? 1) with false. cbv iota. go.
    by go_with (load_Some _ _ _ Hnx).
Qed.

Lemma deleteNode_run (s : St) v pv nx :
  fld end_identifier (mem s) v = Some 0 →
  fld next (mem s) v = Some (Some nx) →
  fld prev (mem s) v = Some (Some pv) →
  is_Some (mem s !! pv) → is_Some (mem s !! nx) →
  run (deleteNode (Some v)) s = Returned tt (with_mem (unlink pv nx) s).
Proof.
  intros (n & Hn & He)%fld_Some (n' & Hn' & Hnx)%fld_Some (n'' & Hn'' & Hpv)%fld_Some Hp Hx.
  assert (n' = n) as -> by congruence. assert (n'' = n) as -> by congruence.
  unfold deleteNode. go_with (load_Some _ _ _ Hn). rewrite He, Hnx, Hpv.
  change ((0 =? -1) || (0 =? 1)) with false.
  change (is_nil (Some nx) || is_nil (Some pv)) with false. cbv beta iota zeta.
  go_with (update_run s pv (set_next (Some nx)) Hp).
  rewrite update_run; [done|]. simpl. by apply alter_is_Some.
Qed.

Lemma start_of_split (s : St) l c :
  start_of s l = Some c → ∃ P L2, l = P ++ L2 ∧ last P = Some c.
Proof.
  unfold start_of. intros Hstart.
  assert (Hlast : last l = Some c → ∃ P L2, l = P ++ L2 ∧ last P = Some c).
  { intros Hl. exists l, []. by rewrite app_nil_r. }
  destruct (hand s) as [x|]; [|by apply Hlast].
  destruct (decide (Some x = head (FifoQueue s))); [by apply Hlast|].
  apply pred_in_split in Hstart as (l1 & l2 & ->).
  exists (l1 ++ [c]), (x :: l2). split; [by rewrite <- app_assoc|apply last_snoc].
Qed.

(** The eviction block of [Insert] on a well-formed list. *)
Lemma evict_run (s : St) l c fuel :
  linked s l → start_of s l = Some c → (2 * length l ≤ fuel)%nat →
  ∃ h t v cleared l1 l2 kv,
    head (FifoQueue s) = Some h ∧ tail (FifoQueue s) = Some t ∧
    l = l1 ++ v :: l2 ∧
    fld key (mem s) v = Some kv ∧
    run (evict fuel) s =
      Returned tt
        (with_Nodes (delete kv)
          (with_mem (unlink (default h (last l1)) (default t (hd_error l2)))
            (with_hand (Some (default h (last l1)))
              (with_mem (clear_in cleared) s)))) ∧
    fld visited (clear_in cleared (mem s)) v = Some false ∧
    (∀ a, a ∈ cleared → a ∈ l ∧ fld visited (mem s) a = Some true) ∧
    ((∃ a, a ∈ l ∧ fld visited (mem s) a = Some false) →
     fld visited (mem s) v = Some false) ∧
    ((∀ a, a ∈ l → fld visited (mem s) a = Some true) →
     v = c ∧ ∀ a, a ∈ l → a ∈ cleared).
Proof.
  intros Hl Hstart Hfuel.
  destruct (evict_start_run _ _ _ Hl Hstart) as (n1 & Hn1 & Hk).
  destruct (start_of_split _ _ _ Hstart) as (P & L2 & -> & HlastP).
  destruct (sweep_from s fuel P c L2 Hl HlastP Hfuel)
    as (v & cleared & Hsweep & Hv_in & Hv_clear & Hcleared & Hunv & Hall).
  pose proof (linked_clear_in _ _ cleared Hl) as Hl1.
  set (s1 := with_mem (clear_in cleared) s) in *.
  pose proof Hl1 as (h & t & Hh & Ht & Heh & Het & Hnd & Hc).
  destruct (list_elem_of_split _ _ Hv_in) as (l1 & l2 & Heq).
  rewrite Heq in Hc, Hnd.
  pose proof (chain_neighbours _ _ _ _ _ _ Hc) as (Hvp & Hpn & Hvn & Hxp & Hve).
  set (pv := default h (last l1)) in *. set (nx := default t (hd_error l2)) in *.
  destruct (proj1 (fld_Some _ _ _ _) Hvp) as (nv & Hnv & Hnv_prev).
  destruct (proj1 (fld_Some _ _ _ _) Hpn) as (np & Hnp & Hnp_next).
  assert (Hx_in : is_Some (mem s1 !! nx))
    by (apply fld_Some in Hxp as (? & ? & _); eauto).
  assert (Hv_pv : pv ≠ v).
  { intros E. apply NoDup_cons in Hnd as [Hh_n Hnd].
    rewrite <- app_assoc in Hnd. apply NoDup_app in Hnd as (_ & Hd & Hnd').
    unfold pv in E. destruct (last l1) as [y|] eqn:Hy; simpl in E; subst.
    - apply (Hd v); [by apply last_Some_elem_of|by left].
    - apply Hh_n. apply elem_of_app. left. apply elem_of_app. right. by left. }
  assert (Hv_nx : nx ≠ v).
  { intros E. apply NoDup_cons in Hnd as [_ Hnd].
    rewrite <- app_assoc in Hnd. apply NoDup_app in Hnd as (_ & _ & Hnd).
    simpl in Hnd. apply NoDup_cons in Hnd as [Hv_n _]. apply Hv_n.
    unfold nx in E. destruct l2 as [|b l2]; simpl in *; subst; by left. }
  exists h, t, v, cleared, l1, l2, (key nv).
  split; [done|]. split; [done|]. split; [done|].
  split.
  { rewrite <- (fld_clear_in key cleared) by done. unfold fld. simpl in Hnv.
    by rewrite Hnv. }
  split.
  { unfold evict, getHand. go. rewrite Hk, Hn1.
    go_with Hsweep. fold s1.
    go_with (load_Some _ _ _ Hnv). rewrite Hnv_prev. go.
    set (s1' := with_hand (Some pv) s1).
    assert (Hnp' : mem s1' !! pv = Some np) by done.
    go_with (load_Some _ _ _ Hnp'). rewrite Hnp_next.
    assert (Hdel : run (deleteNode (Some v)) s1' = Returned tt (with_mem (unlink pv nx) s1')).
    { apply deleteNode_run; try done; by exists np. }
    go_with Hdel.
    assert (Hnv' : mem (with_mem (unlink pv nx) s1') !! v = Some nv).
    { simpl. unfold unlink. rewrite !lookup_alter_ne by done. done. }
    go_with (load_Some _ _ _ Hnv'). by go. }
  split; [done|]. split; [done|]. by split.
Qed.

Lemma linked_unlink (s : St) h t l1 v l2 :
  head (FifoQueue s) = Some h → tail (FifoQueue s) = Some t →
  linked s (l1 ++ v :: l2) →
  linked (with_mem (unlink (default h (last l1)) (default t (hd_error l2))) s) (l1 ++ l2).
Proof.
  intros Hh Ht (h' & t' & Hh' & Ht' & Heh & Het & Hnd & Hc).
  assert (h' = h) as -> by congruence. assert (t' = t) as -> by congruence.
  exists h, t. simpl. rewrite !unlink_other by done.
  repeat split; try done.
  - rewrite <- app_assoc in Hnd. simpl in Hnd.
    apply NoDup_cons in Hnd as [Hh_n Hnd]. apply NoDup_app in Hnd as (Hnd1 & Hd & Hnd2).
    apply NoDup_cons in Hnd2 as [Hv_n Hnd2].
    apply NoDup_cons. split.
    + rewrite <- app_assoc. intros [?|?]%elem_of_app; apply Hh_n; apply elem_of_app;
        [by left|right; by right].
    + rewrite <- app_assoc. apply NoDup_app. repeat split; try done.
      intros x Hx1 Hx2. apply (Hd x Hx1). by right.
  - apply (chain_unlink _ v); [|done]. by rewrite <- app_assoc in Hnd.
Qed.

(** The cells of the store after [link]. *)
Lemma link_lookup (m : Mem) a h first k data x :
  a ≠ h → a ≠ first → h ≠ first →
  link zeroK a h first k data m !! x =
    if decide (x = a) then Some (mkNode k 0 (Some first) (Some h) data false)
    else if decide (x = h) then set_next (Some a) <$> m !! x
    else if decide (x = first) then set_prev (Some a) <$> m !! x
    else m !! x.
Proof.
  intros Hah Haf Hhf. unfold link.
  repeat case_decide; subst;
    repeat first [ rewrite lookup_alter_eq | rewrite lookup_alter_ne by congruence
                 | rewrite lookup_insert_eq | rewrite lookup_insert_ne by congruence ];
    done.
Qed.

Lemma link_fld_old {A} (g : Node (K:=K) (V:=V) → A) (m : Mem) a h first k data x :
  a ≠ h → a ≠ first → h ≠ first → x ≠ a →
  (∀ p n, g (set_next p n) = g n) → (∀ p n, g (set_prev p n) = g n) →
  fld g (link zeroK a h first k data m) x = fld g m x.
Proof.
  intros Hah Haf Hhf Hxa Hg1 Hg2. unfold fld. rewrite link_lookup by done.
  rewrite decide_False by done.
  repeat case_decide; destruct (m !! x); simpl; by rewrite ?Hg1, ?Hg2.
Qed.

Lemma link_next (m : Mem) a h first k data x :
  a ≠ h → a ≠ first → h ≠ first → x ≠ a →
  fld next (link zeroK a h first k data m) x =
    if decide (x = h) then (λ _, Some a) <$> m !! x else fld next m x.
Proof.
  intros Hah Haf Hhf Hxa. unfold fld. rewrite link_lookup by done.
  rewrite decide_False by done.
  repeat case_decide; destruct (m !! x); simpl; done.
Qed.

Lemma link_prev (m : Mem) a h first k data x :
  a ≠ h → a ≠ first → h ≠ first → x ≠ a →
  fld prev (link zeroK a h first k data m) x =
    if decide (x = first) then (λ _, Some a) <$> m !! x else fld prev m x.
Proof.
  intros Hah Haf Hhf Hxa. unfold fld. rewrite link_lookup by done.
  rewrite decide_False by done.
  repeat case_decide; subst; destruct (m !! _); simpl; done.
Qed.

Lemma alloc_run (s : St) n :
  run (alloc n) s =
    Returned (Some (fresh (dom (mem s)))) (with_mem (<[fresh (dom (mem s)) := n]>) s).
Proof. reflexivity. Qed.

Lemma fresh_not_in (m : Mem) x : is_Some (m !! x) → fresh (dom m) ≠ x.
Proof.
  intros Hx E. apply elem_of_dom in Hx. rewrite <- E in Hx. by apply is_fresh in Hx.
Qed.

Lemma insert_is_Some (m : Mem) a n x :
  a = x ∨ is_Some (m !! x) → is_Some (<[a := n]> m !! x).
Proof.
  rewrite lookup_insert. case_decide; [eauto|]. intros [?|?]; done.
Qed.

Lemma linked_head_first (s : St) l h t :
  linked s l → head (FifoQueue s) = Some h → tail (FifoQueue s) = Some t →
  let first := default t (hd_error l) in
  fld next (mem s) h = Some (Some first) ∧ is_Some (mem s !! h) ∧
  is_Some (mem s !! first) ∧ h ≠ first.
Proof.
  intros (h' & t' & Hh' & Ht' & Heh & Het & Hnd & Hc) Hh Ht first.
  assert (h' = h) as -> by congruence. assert (t' = t) as -> by congruence.
  split; [by apply chain_head_next in Hc|].
  split; [apply fld_Some in Heh as (? & ? & _); eauto|].
  split.
  - unfold first. destruct l as [|b l]; simpl in *.
    + apply fld_Some in Het as (? & ? & _); eauto.
    + destruct Hc as (_ & (? & ? & _)%fld_Some & _). eauto.
  - apply NoDup_cons in Hnd as [Hn _]. intros E. apply Hn. rewrite E. unfold first.
    destruct l as [|b l]; simpl; by left.
Qed.

(** The statements of [Insert] after the eviction block link a fresh
    node right after [HEAD] and point the index at it. *)
Lemma Insert_link_run (s : St) l h t k data :
  linked s l → head (FifoQueue s) = Some h → tail (FifoQueue s) = Some t →
  run (Insert_link zeroK k data) s =
    Returned tt
      (mkSieve (hand s) (Capacity s) (<[k := fresh (dom (mem s))]> (Nodes s))
               (FifoQueue s)
               (link zeroK (fresh (dom (mem s))) h (default t (hd_error l)) k data
                     (mem s))).
Proof.
  intros Hl Hh Ht.
  destruct (linked_head_first _ _ _ _ Hl Hh Ht) as (Hnext & Hh_in & Hf_in & Hhf).
  pose proof Hl as (h' & t' & Hh' & Ht' & Heh & Het & Hnd & Hc).
  assert (h' = h) as -> by congruence. assert (t' = t) as -> by congruence.
  set (first := default t (hd_error l)) in *.
  set (a := fresh (dom (mem s))).
  assert (Hah : a ≠ h) by (by apply fresh_not_in).
  assert (Haf : a ≠ first) by (by apply fresh_not_in).
  apply fld_Some in Hnext as (nh & Hnh & Hnext).
  unfold Insert_link. go_with (getHead_run _ _ Hh Heh).
  go_with (load_Some _ _ _ Hnh). rewrite Hnext.
  unfold insertNode, NewNode. rewrite bind_assoc.
  rewrite (run_bind _ _ _ _ _ (alloc_run _ _)). fold a. cbv beta.
  do 4 (rewrite ?bind_assoc; erewrite run_bind;
        [cbv beta
        |apply update_run; simpl; rewrite ?alter_is_Some; apply insert_is_Some; eauto]).
  go.
  erewrite run_bind;
    [cbv beta
    |apply update_run; simpl; rewrite ?alter_is_Some; apply insert_is_Some; eauto].
  go.
  rewrite update_run; [|simpl; rewrite ?alter_is_Some; apply insert_is_Some; eauto].
  reflexivity.
Qed.

Lemma linked_fresh (s : St) l h t x :
  linked s l → head (FifoQueue s) = Some h → tail (FifoQueue s) = Some t →
  x ∈ h :: l ++ [t] → fresh (dom (mem s)) ≠ x.
Proof.
  intros Hl Hh Ht Hx. apply fresh_not_in.
  pose proof Hl as (h' & t' & Hh' & Ht' & Heh & Het & _).
  assert (h' = h) as -> by congruence. assert (t' = t) as -> by congruence.
  apply elem_of_cons in Hx as [->|Hx].
  { apply fld_Some in Heh as (? & ? & _); eauto. }
  apply elem_of_app in Hx as [Hx|Hx]; [by eapply linked_in_mem|].
  apply list_elem_of_singleton in Hx as ->.
  apply fld_Some in Het as (? & ? & _); eauto.
Qed.

Lemma linked_link (s s' : St) l h t k data :
  linked s l → head (FifoQueue s) = Some h → tail (FifoQueue s) = Some t →
  FifoQueue s' = FifoQueue s →
  mem s' = link zeroK (fresh (dom (mem s))) h (default t (hd_error l)) k data (mem s) →
  linked s' (fresh (dom (mem s)) :: l).
Proof.
  intros Hl Hh Ht HQ Hmem.
  destruct (linked_head_first _ _ _ _ Hl Hh Ht) as (Hnext & Hh_in & Hf_in & Hhf).
  pose proof (λ x, linked_fresh s l h t x Hl Hh Ht) as Hfresh.
  pose proof Hl as (h' & t' & Hh' & Ht' & Heh & Het & Hnd & Hc).
  assert (h' = h) as -> by congruence. assert (t' = t) as -> by congruence.
  set (first := default t (hd_error l)) in *.
  set (a := fresh (dom (mem s))) in *.
  assert (Hah : a ≠ h) by (apply Hfresh; by left).
  assert (Haf : a ≠ first) by (by apply fresh_not_in).
  assert (Hat : a ≠ t) by (apply Hfresh; right; apply elem_of_app; right; by left).
  exists h, t. rewrite HQ, Hmem.
  split; [done|]. split; [done|].
  split; [by rewrite link_fld_old|]. split; [by rewrite link_fld_old|].
  split.
  { simpl. apply NoDup_cons in Hnd as [Hh_n Hnd].
    apply NoDup_cons. split.
    - intros [E|Hin]%elem_of_cons; [by apply Hah|by apply Hh_n].
    - apply NoDup_cons. split; [|done]. intros Hin. by apply (Hfresh a); [right|]. }
  assert (Hnew : link zeroK a h first k data (mem s) !! a
                 = Some (mkNode k 0 (Some first) (Some h) data false)).
  { rewrite link_lookup by done. by rewrite decide_True. }
  simpl. rewrite link_next, decide_True by done.
  destruct Hh_in as [nh Hnh]. rewrite Hnh.
  split; [done|]. unfold fld at 1 2. rewrite Hnew. simpl.
  split; [done|]. split; [done|].
  assert (Hframe : ∀ b l', first = b → chain (mem s) b l' t →
            NoDup (h :: b :: l' ++ [t]) → (∀ x, x ∈ b :: l' ++ [t] → a ≠ x) →
            chain (link zeroK a h first k data (mem s)) b l' t).
  { intros b l' Hb Hcb Hndb Hab. revert Hcb. apply chain_frame.
    - intros x Hx. rewrite link_next; [| | | |intros ->; eapply Hab; [|done]]; try done.
      + rewrite decide_False; [done|]. intros ->.
        apply NoDup_cons in Hndb as [Hn _]. apply Hn.
        apply (elem_of_app (b :: l')). by left.
      + apply (elem_of_app (b :: l')). by left.
    - intros x Hx.
      assert (x ≠ a) by (intros ->; eapply Hab; [|done]; by right).
      rewrite link_prev, link_fld_old by done. split; [|done].
      rewrite decide_False; [done|]. intros ->. rewrite Hb in Hx.
      apply NoDup_cons in Hndb as [_ Hndb]. by apply NoDup_cons in Hndb as [? _]. }
  destruct l as [|b l']; subst first; simpl in *.
  - unfold fld at 1. rewrite Hnew. simpl. split; [done|].
    rewrite link_prev by (done || by intros <-). rewrite decide_True by done.
    destruct Hf_in as [nt Hnt]. by rewrite Hnt.
  - destruct Hc as (_ & Hbp & Hbe & Hc).
    assert (Hba : b ≠ a) by (by intros <-).
    unfold fld at 1. rewrite Hnew. simpl. split; [done|].
    rewrite link_prev by done. rewrite decide_True by done.
    rewrite link_fld_old by done.
    destruct Hf_in as [nb Hnb]. rewrite Hnb.
    split; [done|]. split; [done|].
    apply Hframe; try done. intros x Hx. apply Hfresh. by right.
Qed.

Lemma dom_clear_in L (m : Mem) : dom (clear_in L m) = dom m.
Proof. induction L as [|a L IH]; [done|]. simpl. by rewrite dom_alter_L. Qed.

Lemma dom_unlink pv nx (m : Mem) : dom (unlink pv nx m) = dom m.
Proof. unfold unlink. by rewrite !dom_alter_L. Qed.

(** [Insert] on a full cache whose live nodes are [l] and whose sweep
    starts at [c]. *)
Lemma Insert_full_run (s : St) l c fuel k data :
  linked s l → start_of s l = Some c → len (Nodes s) = Capacity s →
  (2 * length l ≤ fuel)%nat →
  ∃ h v kv l1 l2 s',
    run (Insert zeroK fuel k data) s = Returned tt s' ∧
    head (FifoQueue s) = Some h ∧
    l = l1 ++ v :: l2 ∧ fld key (mem s) v = Some kv ∧
    Nodes s' = <[k := fresh (dom (mem s))]> (delete kv (Nodes s)) ∧
    linked s' (fresh (dom (mem s)) :: l1 ++ l2) ∧
    hand s' = Some (default h (last l1)) ∧
    Capacity s' = Capacity s ∧ FifoQueue s' = FifoQueue s ∧
    (∀ a, a ∈ l1 ++ l2 → fld key (mem s') a = fld key (mem s) a) ∧
    fld key (mem s') (fresh (dom (mem s))) = Some k ∧
    ((∃ a, a ∈ l ∧ fld visited (mem s) a = Some false) →
     fld visited (mem s) v = Some false) ∧
    ((∀ a, a ∈ l → fld visited (mem s) a = Some true) →
     v = c ∧
     ∀ a, a ∈ fresh (dom (mem s)) :: l1 ++ l2 → fld visited (mem s') a = Some false).
Proof.
  intros Hl Hstart Hfull Hfuel.
  destruct (evict_run s l c fuel Hl Hstart Hfuel)
    as (h & t & v & cleared & l1 & l2 & kv & Hh & Ht & Heq & Hkv & Hev & Hvc & Hcl & Hunv & Hall).
  set (s1 := with_mem (clear_in cleared) s) in *.
  set (pv := default h (last l1)) in *. set (nx := default t (hd_error l2)) in *.
  set (s2 := with_Nodes (delete kv) (with_mem (unlink pv nx) (with_hand (Some pv) s1))) in *.
  assert (Hl2 : linked s2 (l1 ++ l2)).
  { pose proof (linked_clear_in _ _ cleared Hl) as Hl1. fold s1 in Hl1. rewrite Heq in Hl1.
    pose proof (linked_unlink s1 h t l1 v l2 Hh Ht Hl1) as (h' & t' & ?).
    by exists h', t'. }
  assert (Hdom : dom (mem s2) = dom (mem s)).
  { simpl. by rewrite dom_unlink, dom_clear_in. }
  pose proof (Insert_link_run s2 (l1 ++ l2) h t k data Hl2 Hh Ht) as Hlink.
  pose proof (linked_link s2
    (mkSieve (hand s2) (Capacity s2) (<[k := fresh (dom (mem s2))]> (Nodes s2))
             (FifoQueue s2)
             (link zeroK (fresh (dom (mem s2))) h (default t (hd_error (l1 ++ l2))) k data
                   (mem s2)))
    (l1 ++ l2) h t k data Hl2 Hh Ht eq_refl eq_refl) as Hl3.
  rewrite Hdom in Hlink, Hl3.
  set (a := fresh (dom (mem s))) in *.
  pose proof (λ x, linked_fresh s2 _ h t x Hl2 Hh Ht) as Hfresh.
  rewrite Hdom in Hfresh. fold a in Hfresh.
  destruct (linked_head_first _ _ _ _ Hl2 Hh Ht) as (_ & _ & _ & Hhf).
  assert (Hah : a ≠ h) by (apply Hfresh; by left).
  assert (Haf : a ≠ default t (hd_error (l1 ++ l2))).
  { apply Hfresh. right. destruct (l1 ++ l2); simpl; [by left|by left]. }
  eexists h, v, kv, l1, l2, _.
  split.
  { rewrite Insert_unfold. apply Z.eqb_eq in Hfull. rewrite Hfull.
    go_with Hev. exact Hlink. }
  split; [done|]. split; [done|]. split; [done|]. split; [done|].
  split; [exact Hl3|]. split; [done|]. split; [done|]. split; [done|].
  assert (Hold : ∀ x, x ∈ l1 ++ l2 → x ≠ a).
  { intros x Hx E. apply (Hfresh x); [|done]. right. apply elem_of_app. by left. }
  split.
  { intros x Hx. simpl. rewrite link_fld_old by (try done; by apply Hold).
    rewrite unlink_other by done. by apply fld_clear_in. }
  assert (Hnew : link zeroK a h (default t (hd_error (l1 ++ l2))) k data (mem s2) !! a
                 = Some (mkNode k 0 (Some (default t (hd_error (l1 ++ l2)))) (Some h) data false)).
  { rewrite link_lookup by done. by rewrite decide_True. }
  split; [cbn [mem]; unfold fld; by rewrite Hnew|].
  split; [done|].
  intros Hallv. destruct (Hall Hallv) as [-> Hin]. split; [done|].
  intros x [->|Hx]%elem_of_cons.
  { cbn [mem]. unfold fld. by rewrite Hnew. }
  simpl. rewrite link_fld_old by (try done; by apply Hold).
  rewrite unlink_other by done. rewrite visited_clear_in.
  assert (Hx_l : x ∈ l).
  { rewrite Heq. apply elem_of_app in Hx as [?|?]; apply elem_of_app; [by left|right; by right]. }
  rewrite decide_True by (by apply Hin).
  destruct (linked_in_mem _ _ _ Hl Hx_l) as [n Hn]. unfold fld. by rewrite Hn.
Qed.

(** [Insert] below capacity. *)
Lemma Insert_not_full_run (s : St) l fuel k data :
  linked s l → len (Nodes s) ≠ Capacity s →
  ∃ h t,
    head (FifoQueue s) = Some h ∧ tail (FifoQueue s) = Some t ∧
    run (Insert zeroK fuel k data) s =
      Returned tt
        (mkSieve (hand s) (Capacity s) (<[k := fresh (dom (mem s))]> (Nodes s))
                 (FifoQueue s)
                 (link zeroK (fresh (dom (mem s))) h (default t (hd_error l)) k data
                       (mem s))).
Proof.
  intros Hl Hnf. pose proof Hl as (h & t & Hh & Ht & _).
  exists h, t. split; [done|]. split; [done|].
  rewrite Insert_unfold. apply Z.eqb_neq in Hnf. rewrite Hnf. go.
  by apply (Insert_link_run s l).
Qed.

(** *** The invariant holds in every reachable state *)

Lemma pred_in_is_Some l : ∀ a x, x ∈ l → is_Some (pred_in (a :: l) x).
Proof.
  induction l as [|b l IH]; intros a x Hx; [by apply elem_of_nil in Hx|].
  cbn [pred_in]. destruct (decide (b = x)) as [|Hne]; [eauto|].
  apply elem_of_cons in Hx as [->|Hx]; [done|]. by apply IH.
Qed.

Lemma pred_in_cons l a x : is_Some (pred_in l x) → is_Some (pred_in (a :: l) x).
Proof.
  intros [c (l1 & l2 & ->)%pred_in_split]. apply pred_in_is_Some.
  apply elem_of_app. right. right. by left.
Qed.

Lemma hand_ok_start (s : St) l :
  hand_ok s l → l ≠ [] → is_Some (start_of s l).
Proof.
  unfold hand_ok, start_of. intros Hok Hl.
  assert (is_Some (last l)) as Hlast.
  { destruct l as [|a l] using rev_ind; [done|]. rewrite last_snoc. eauto. }
  destruct (hand s) as [x|]; [|done].
  destruct (decide (Some x = head (FifoQueue s))); [done|]. by destruct Hok.
Qed.

Lemma index_ok_nonempty (s : St) l :
  index_ok s l → 0 < Capacity s → len (Nodes s) = Capacity s → l ≠ [].
Proof.
  intros Hidx Hcap Hfull ->.
  assert (size (Nodes s) ≠ 0%nat) as Hne by (unfold len in Hfull; lia).
  apply map_size_ne_0_lookup in Hne as (k & a & Hka).
  apply Hidx in Hka as [Hin _]. by apply elem_of_nil in Hin.
Qed.

(** The index holds no more keys than the list holds nodes. *)
Lemma index_ok_size (s : St) l :
  index_ok s l → (size (Nodes s) ≤ length l)%nat.
Proof.
  intros Hidx. rewrite <- length_map_to_list.
  rewrite <- (length_fmap snd).
  apply submseteq_length, NoDup_submseteq.
  - apply NoDup_fmap_2_strong; [|apply NoDup_map_to_list].
    intros [k1 a1] [k2 a2] H1%elem_of_map_to_list H2%elem_of_map_to_list E.
    simpl in E. subst a2.
    apply Hidx in H1 as [_ H1]. apply Hidx in H2 as [_ H2]. congruence.
  - intros a ([k a'] & -> & Hka%elem_of_map_to_list)%list_elem_of_fmap.
    by apply Hidx in Hka as [? _].
Qed.

Lemma linked_length (s : St) l : linked s l → (length l ≤ size (mem s))%nat.
Proof.
  intros Hl. rewrite <- (size_dom (D:=gset nat)).
  rewrite <- (size_list_to_set (C:=gset nat) l) by (by eapply linked_NoDup).
  apply subseteq_size. intros a Ha%elem_of_list_to_set.
  apply elem_of_dom. by eapply linked_in_mem.
Qed.

Lemma NewSieve_inv cap (s : St) :
  NewSieve zeroK nilV cap = Returned s s → inv s [].
Proof.
  unfold NewSieve. destruct (Z.leb_spec cap 0) as [|Hcap]; [done|].
  intros [= <-]. split; [|split; [done|split; [|done]]].
  - exists 0%nat, 1%nat. simpl. repeat split; try done.
    apply NoDup_cons. split; [|apply NoDup_singleton].
    intros [=]%list_elem_of_singleton.
  - apply map_Forall_empty.
Qed.

Lemma Get_run (s : St) l k :
  inv s l →
  run (Get k) s =
    match Nodes s !! k with
    | Some a => Returned true (with_mem (alter (set_visited true) a) s)
    | None => Returned false s
    end.
Proof.
  intros (Hl & _ & Hidx & _). unfold Get. go.
  destruct (Nodes s !! k) as [a|] eqn:Hk; [|done].
  apply Hidx in Hk as [Ha _].
  go_with (update_run s a (set_visited true) (linked_in_mem _ _ _ Hl Ha)). by go.
Qed.

Lemma Get_inv (s s' : St) l k b :
  inv s l → run (Get k) s = Returned b s' → inv s' l.
Proof.
  intros Hinv. rewrite (Get_run _ _ _ Hinv).
  destruct Hinv as (Hl & Hhand & Hidx & Hcap).
  destruct (Nodes s !! k) as [a|]; intros [= <- <-]; [|done].
  split; [|split; [done|split; [|done]]].
  - apply linked_with_mem; [|done]. intros x. by rewrite !fld_alter_same.
  - intros k' a' Hk'. apply Hidx in Hk' as [? ?]. simpl. by rewrite fld_alter_same.
Qed.

Lemma Insert_inv (s s' : St) l fuel k data :
  inv s l → (2 * size (mem s) ≤ fuel)%nat →
  run (Insert zeroK fuel k data) s = Returned tt s' →
  ∃ l', inv s' l'.
Proof.
  intros (Hl & Hhand & Hidx & Hcap) Hfuel.
  destruct (decide (len (Nodes s) = Capacity s)) as [Hfull|Hnf].
  - destruct (hand_ok_start _ _ Hhand (index_ok_nonempty _ _ Hidx Hcap Hfull)) as [c Hc].
    assert (2 * length l ≤ fuel)%nat as Hfuel'.
    { pose proof (linked_length _ _ Hl). lia. }
    destruct (Insert_full_run s l c fuel k data Hl Hc Hfull Hfuel')
      as (h & v & kv & l1 & l2 & s1 & Hrun & Hh & Heq & Hkv & HN & Hl' & Hhd & HC & HQ
          & Hkeys & Hknew & _).
    rewrite Hrun. intros [= <-].
    exists (fresh (dom (mem s)) :: l1 ++ l2).
    split; [done|]. split; [|split; [|by rewrite HC]].
    + unfold hand_ok. rewrite Hhd, HQ, Hh.
      destruct (last l1) as [y|] eqn:Hy; simpl; [right|by left].
      apply pred_in_is_Some. apply elem_of_app. left. by apply last_Some_elem_of.
    + unfold index_ok. rewrite HN. apply map_Forall_insert_2; [split; [by left|done]|].
      intros k' a' [Hne Hk']%lookup_delete_Some.
      apply Hidx in Hk' as [Ha' Hka'].
      assert (a' ∈ l1 ++ l2) as Hin.
      { rewrite Heq in Ha'. apply elem_of_app in Ha' as [?|[->|?]%elem_of_cons];
          [apply elem_of_app; by left| |apply elem_of_app; by right]. congruence. }
      split; [by right|]. by rewrite Hkeys.
  - destruct (Insert_not_full_run s l fuel k data Hl Hnf) as (h & t & Hh & Ht & Hrun).
    rewrite Hrun. intros [= <-].
    exists (fresh (dom (mem s)) :: l).
    pose proof (λ x, linked_fresh s l h t x Hl Hh Ht) as Hfresh.
    destruct (linked_head_first _ _ _ _ Hl Hh Ht) as (_ & _ & Hf_in & Hhf).
    assert (Hah : fresh (dom (mem s)) ≠ h) by (apply Hfresh; by left).
    assert (Haf : fresh (dom (mem s)) ≠ default t (hd_error l)) by (by apply fresh_not_in).
    split; [by eapply linked_link|]. split; [|split; [|done]].
    + unfold hand_ok in *. simpl. destruct (hand s) as [x|]; [|done].
      destruct Hhand as [?|?]; [by left|right]. by apply pred_in_cons.
    + unfold index_ok. simpl. apply map_Forall_insert_2.
      * split; [by left|]. unfold fld. rewrite link_lookup, decide_True by done. done.
      * intros k' a' Hk'. apply Hidx in Hk' as [Ha' Hka'].
        split; [by right|]. rewrite link_fld_old; try done.
        intros ->. apply (Hfresh (fresh (dom (mem s)))); [|done].
        right. apply elem_of_app. by left.
Qed.

Theorem reachable_inv (s : St) : reachable zeroK nilV s → ∃ l, inv s l.
Proof.
  induction 1 as [cap s Hnew|s k b s' _ [l IH] Hget|s fuel k data s' _ [l IH] Hfuel Hins].
  - exists []. by eapply NewSieve_inv.
  - exists l. by eapply Get_inv.
  - by eapply Insert_inv.
Qed.

(** [Insert] on a full cache that a program can reach. *)
Lemma Insert_full_sweeps (s : St) fuel k data :
  reachable zeroK nilV s → len (Nodes s) = Capacity s →
  (2 * size (mem s) ≤ fuel)%nat →
  ∃ l c v kv l1 l2 s',
    linked s l ∧ start_of s l = Some c ∧
    run (Insert zeroK fuel k data) s = Returned tt s' ∧
    l = l1 ++ v :: l2 ∧ fld key (mem s) v = Some kv ∧
    Nodes s' = <[k := fresh (dom (mem s))]> (delete kv (Nodes s)) ∧
    linked s' (fresh (dom (mem s)) :: l1 ++ l2) ∧
    ((∃ a, a ∈ l ∧ fld visited (mem s) a = Some false) →
     fld visited (mem s) v = Some false) ∧
    ((∀ a, a ∈ l → fld visited (mem s) a = Some true) →
     v = c ∧
     ∀ a, a ∈ fresh (dom (mem s)) :: l1 ++ l2 → fld visited (mem s') a = Some false) ∧
    (hand s = None ∨ hand s = head (FifoQueue s) → last l = Some c).
Proof.
  intros (l & Hl & Hhand & Hidx & Hcap)%reachable_inv Hfull Hfuel.
  destruct (hand_ok_start _ _ Hhand (index_ok_nonempty _ _ Hidx Hcap Hfull)) as [c Hc].
  assert (2 * length l ≤ fuel)%nat as Hfuel'.
  { pose proof (linked_length _ _ Hl). lia. }
  destruct (Insert_full_run s l c fuel k data Hl Hc Hfull Hfuel')
    as (h & v & kv & l1 & l2 & s' & Hrun & Hh & Heq & Hkv & HN & Hl' & _ & _ & _ & _ & _
        & Hunv & Hall).
  exists l, c, v, kv, l1, l2, s'. repeat (split; [done|]).
  unfold start_of in Hc. intros [Hn|Hn]; rewrite Hn in Hc; [done|].
  rewrite Hh in Hc. by rewrite decide_True in Hc.
Qed.

(** C10. In a cache below capacity that a program can reach, [Insert] of
    a key [k] that the index maps to the node [a_old] returns; it
    allocates a node at a fresh address, links it first after [HEAD] in
    front of the nodes [l] linked before, [a_old] among them, with key
    [k], the new value and [visited = false], and points the index entry
    of [k] at it. The old node keeps its key, value and visited bit, the
    index keeps its size, and the list holds more nodes than the index has
    keys. *)
Theorem Insert_resident_key_links_second_node (s : St) fuel k data a_old :
  reachable zeroK nilV s → Nodes s !! k = Some a_old →
  len (Nodes s) < Capacity s →
  ∃ l s',
    linked s l ∧ a_old ∈ l ∧
    run (Insert zeroK fuel k data) s = Returned tt s' ∧
    mem s !! fresh (dom (mem s)) = None ∧
    fresh (dom (mem s)) ≠ a_old ∧
    linked s' (fresh (dom (mem s)) :: l) ∧
    Nodes s' = <[k := fresh (dom (mem s))]> (Nodes s) ∧
    fld key (mem s') (fresh (dom (mem s))) = Some k ∧
    fld value (mem s') (fresh (dom (mem s))) = Some data ∧
    fld visited (mem s') (fresh (dom (mem s))) = Some false ∧
    fld key (mem s') a_old = Some k ∧
    fld value (mem s') a_old = fld value (mem s) a_old ∧
    fld visited (mem s') a_old = fld visited (mem s) a_old ∧
    size (Nodes s') = size (Nodes s) ∧
    (size (Nodes s') < length (fresh (dom (mem s)) :: l))%nat.
Proof.
  intros (l & Hl & Hhand & Hidx & Hcap)%reachable_inv Hk Hlt.
  destruct (Insert_not_full_run s l fuel k data Hl) as (h & t & Hh & Ht & Hrun); [lia|].
  pose proof (Hidx _ _ Hk) as [Hold Hkold].
  pose proof (λ x, linked_fresh s l h t x Hl Hh Ht) as Hfresh.
  destruct (linked_head_first _ _ _ _ Hl Hh Ht) as (_ & _ & Hf_in & Hhf).
  set (a := fresh (dom (mem s))) in *.
  assert (Hah : a ≠ h) by (apply Hfresh; by left).
  assert (Haf : a ≠ default t (hd_error l)) by (by apply fresh_not_in).
  assert (Hao : a ≠ a_old) by (apply Hfresh; right; apply elem_of_app; by left).
  eexists l, _. split; [done|]. split; [done|]. split; [exact Hrun|].
  split; [apply not_elem_of_dom, is_fresh|]. split; [done|].
  split; [by eapply linked_link|]. split; [done|].
  cbn [mem Nodes].
  assert (Hnew : link zeroK a h (default t (hd_error l)) k data (mem s) !! a
                 = Some (mkNode k 0 (Some (default t (hd_error l))) (Some h) data false)).
  { rewrite link_lookup by done. by rewrite decide_True. }
  unfold fld at 1 2 3. rewrite Hnew. simpl.
  repeat (split; [done|]).
  rewrite !link_fld_old by done.
  repeat (split; [done|]).
  assert (size (<[k:=a]> (Nodes s)) = size (Nodes s)) as Hsize.
  { apply map_size_insert_Some. eauto. }
  split; [done|]. rewrite Hsize. pose proof (index_ok_size _ _ Hidx). lia.
Qed.

(** *** More on [NewSieve], [Get] and [Insert] *)

(** The list of live nodes is determined by the store. *)
Lemma chain_unique (m : Mem) t l : ∀ l' p,
  t ∉ l → t ∉ l' → chain m p l t → chain m p l' t → l = l'.
Proof.
  induction l as [|a l IH]; intros [|a' l'] p Ht Ht'; simpl.
  - done.
  - intros [Hn _] (Hn' & _). rewrite Hn in Hn'. injection Hn' as ->.
    destruct Ht'. by left.
  - intros (Hn & _) [Hn' _]. rewrite Hn in Hn'. injection Hn' as ->.
    destruct Ht. by left.
  - intros (Hn & _ & _ & Hc) (Hn' & _ & _ & Hc'). rewrite Hn in Hn'. injection Hn' as ->.
    f_equal. apply (IH l' a'); [|  |done..].
    + intros Hin. apply Ht. by right.
    + intros Hin. apply Ht'. by right.
Qed.

Lemma linked_unique (s : St) l l' : linked s l → linked s l' → l = l'.
Proof.
  intros (h & t & Hh & Ht & _ & _ & Hnd & Hc) (h' & t' & Hh' & Ht' & _ & _ & Hnd' & Hc').
  rewrite Hh in Hh'. injection Hh' as <-. rewrite Ht in Ht'. injection Ht' as <-.
  apply NoDup_cons in Hnd as [_ Hnd]. apply NoDup_cons in Hnd' as [_ Hnd'].
  apply NoDup_app in Hnd as (_ & Hd & _). apply NoDup_app in Hnd' as (_ & Hd' & _).
  apply (chain_unique (mem s) t l l' h); [| |done..].
  - intros Hin. apply (Hd _ Hin). by left.
  - intros Hin. apply (Hd' _ Hin). by left.
Qed.

(** [Insert] on a full cache: the fields of the new node and of the nodes
    that stay. *)
Lemma Insert_full_fields (s : St) l c fuel k data :
  linked s l → start_of s l = Some c → len (Nodes s) = Capacity s →
  (2 * length l ≤ fuel)%nat →
  ∃ v kv l1 l2 s',
    run (Insert zeroK fuel k data) s = Returned tt s' ∧
    l = l1 ++ v :: l2 ∧ fld key (mem s) v = Some kv ∧
    Nodes s' = <[k := fresh (dom (mem s))]> (delete kv (Nodes s)) ∧
    linked s' (fresh (dom (mem s)) :: l1 ++ l2) ∧
    Capacity s' = Capacity s ∧
    fld key (mem s') (fresh (dom (mem s))) = Some k ∧
    fld value (mem s') (fresh (dom (mem s))) = Some data ∧
    fld visited (mem s') (fresh (dom (mem s))) = Some false ∧
    (∀ a, a ∈ l1 ++ l2 →
          fld key (mem s') a = fld key (mem s) a ∧
          fld value (mem s') a = fld value (mem s) a) ∧
    ((∃ a, a ∈ l ∧ fld visited (mem s) a = Some false) →
     fld visited (mem s) v = Some false).
Proof.
  intros Hl Hstart Hfull Hfuel.
  destruct (evict_run s l c fuel Hl Hstart Hfuel)
    as (h & t & v & cleared & l1 & l2 & kv & Hh & Ht & Heq & Hkv & Hev & Hvc & Hcl & Hunv & Hall).
  set (s1 := with_mem (clear_in cleared) s) in *.
  set (pv := default h (last l1)) in *. set (nx := default t (hd_error l2)) in *.
  set (s2 := with_Nodes (delete kv) (with_mem (unlink pv nx) (with_hand (Some pv) s1))) in *.
  assert (Hl2 : linked s2 (l1 ++ l2)).
  { pose proof (linked_clear_in _ _ cleared Hl) as Hl1. fold s1 in Hl1. rewrite Heq in Hl1.
    pose proof (linked_unlink s1 h t l1 v l2 Hh Ht Hl1) as (h' & t' & ?).
    by exists h', t'. }
  assert (Hdom : dom (mem s2) = dom (mem s)).
  { simpl. by rewrite dom_unlink, dom_clear_in. }
  pose proof (Insert_link_run s2 (l1 ++ l2) h t k data Hl2 Hh Ht) as Hlink.
  pose proof (linked_link s2
    (mkSieve (hand s2) (Capacity s2) (<[k := fresh (dom (mem s2))]> (Nodes s2))
             (FifoQueue s2)
             (link zeroK (fresh (dom (mem s2))) h (default t (hd_error (l1 ++ l2))) k data
                   (mem s2)))
    (l1 ++ l2) h t k data Hl2 Hh Ht eq_refl eq_refl) as Hl3.
  rewrite Hdom in Hlink, Hl3.
  set (a := fresh (dom (mem s))) in *.
  pose proof (λ x, linked_fresh s2 _ h t x Hl2 Hh Ht) as Hfresh.
  rewrite Hdom in Hfresh. fold a in Hfresh.
  destruct (linked_head_first _ _ _ _ Hl2 Hh Ht) as (_ & _ & _ & Hhf).
  assert (Hah : a ≠ h) by (apply Hfresh; by left).
  assert (Haf : a ≠ default t (hd_error (l1 ++ l2))).
  { apply Hfresh. right. destruct (l1 ++ l2); simpl; [by left|by left]. }
  eexists v, kv, l1, l2, _.
  split.
  { rewrite Insert_unfold. apply Z.eqb_eq in Hfull. rewrite Hfull.
    go_with Hev. exact Hlink. }
  split; [done|]. split; [done|]. split; [done|].
  split; [exact Hl3|]. split; [done|].
  assert (Hold : ∀ x, x ∈ l1 ++ l2 → x ≠ a).
  { intros x Hx E. apply (Hfresh x); [|done]. right. apply elem_of_app. by left. }
  assert (Hnew : link zeroK a h (default t (hd_error (l1 ++ l2))) k data (mem s2) !! a
                 = Some (mkNode k 0 (Some (default t (hd_error (l1 ++ l2)))) (Some h) data false)).
  { rewrite link_lookup by done. by rewrite decide_True. }
  split; [cbn [mem]; unfold fld; by rewrite Hnew|].
  split; [cbn [mem]; unfold fld; by rewrite Hnew|].
  split; [cbn [mem]; unfold fld; by rewrite Hnew|].
  split; [|done].
  intros x Hx. simpl. rewrite !link_fld_old by (try done; by apply Hold).
  rewrite !unlink_other by done. split; by apply fld_clear_in.
Qed.

(** [NewSieve] refuses a capacity that is not positive and otherwise
    gives an empty cache: the two sentinels linked to each other, no live
    node, an empty index and no hand. *)
Theorem NewSieve_gives_empty_cache (cap : Z) :
  (cap ≤ 0 → ∃ s0, NewSieve zeroK nilV cap
                     = Panicked "capacity has to be greater than 0" s0) ∧
  (0 < cap →
   ∃ s : St, NewSieve zeroK nilV cap = Returned s s ∧
     linked s [] ∧ Nodes s = ∅ ∧ IsEmpty s = true ∧
     hand s = None ∧ Capacity s = cap).
Proof.
  unfold NewSieve. split; intros Hcap.
  - destruct (Z.leb_spec cap 0); [eauto|lia].
  - destruct (Z.leb_spec cap 0); [lia|]. eexists. split; [reflexivity|].
    split; [|done].
    eapply (NewSieve_inv cap). unfold NewSieve. destruct (Z.leb_spec cap 0); [lia|done].
Qed.

(** In every state a program reaches, the sentinels and the live nodes
    form one doubly linked list, every entry of the index points at a live
    node that carries the key of the entry, the hand is unset, on [HEAD]
    or on a live node that is not the first, the capacity is positive and
    the index has no more keys than the list has nodes. *)
Theorem reachable_cache_is_well_formed (s : St) :
  reachable zeroK nilV s →
  ∃ l, linked s l ∧
       (∀ k a, Nodes s !! k = Some a → a ∈ l ∧ fld key (mem s) a = Some k) ∧
       (∀ x, hand s = Some x →
             Some x = head (FifoQueue s) ∨ (x ∈ l ∧ hd_error l ≠ Some x)) ∧
       0 < Capacity s ∧
       (size (Nodes s) ≤ length l)%nat.
Proof.
  intros (l & Hl & Hhand & Hidx & Hcap)%reachable_inv.
  exists l. split; [done|]. split; [exact Hidx|]. split; [|split; [done|]].
  - intros x Hx. unfold hand_ok in Hhand. rewrite Hx in Hhand.
    destruct Hhand as [?|[c Hc]]; [by left|right].
    apply pred_in_split in Hc as (l1 & l2 & ->).
    split; [apply elem_of_app; right; right; by left|].
    pose proof (linked_NoDup _ _ Hl) as Hnd.
    destruct l1 as [|y l1]; simpl.
    + intros [= ->]. apply NoDup_cons in Hnd as [Hn _]. apply Hn. by left.
    + intros [= ->]. apply NoDup_cons in Hnd as [Hn _]. apply Hn.
      apply elem_of_app. right. right. by left.
  - by apply index_ok_size.
Qed.

(** In every state a program reaches, [Get] returns whether the key is
    indexed and never panics. On a hit it sets the visited bit of the node
    the index gives for the key and writes nothing else: the index, the
    hand, the list and every other cell of the store stay as they are;
    on a miss the state is unchanged. *)
Theorem Get_marks_only_its_node (s : St) (k : K) :
  reachable zeroK nilV s →
  ∃ l s',
    linked s l ∧
    run (Get k) s = Returned (bool_decide (is_Some (Nodes s !! k))) s' ∧
    Nodes s' = Nodes s ∧ hand s' = hand s ∧ Capacity s' = Capacity s ∧
    FifoQueue s' = FifoQueue s ∧ linked s' l ∧
    (Nodes s !! k = None → s' = s) ∧
    (∀ a, Nodes s !! k = Some a →
          a ∈ l ∧ fld visited (mem s') a = Some true ∧
          fld key (mem s') a = Some k ∧
          fld value (mem s') a = fld value (mem s) a ∧
          ∀ x, x ≠ a → mem s' !! x = mem s !! x).
Proof.
  intros (l & Hinv)%reachable_inv. pose proof Hinv as (Hl & _ & Hidx & _).
  pose proof (Get_run s l k Hinv) as Hrun.
  destruct (Nodes s !! k) as [a|] eqn:Hk.
  - exists l, (with_mem (alter (set_visited true) a) s).
    destruct (Hidx _ _ Hk) as [Ha Hka].
    split; [done|]. split; [by rewrite Hrun, bool_decide_true by eauto|].
    split; [done|]. split; [done|]. split; [done|]. split; [done|].
    split; [by eapply Get_inv|]. split; [done|].
    intros ? [= <-]. split; [done|]. cbn [mem with_mem].
    split; [apply fld_alter_eq; [by eapply linked_in_mem|done]|].
    split; [by rewrite fld_alter_same|]. split; [by rewrite fld_alter_same|].
    intros x Hx. by rewrite lookup_alter_ne.
  - exists l, s. split; [done|]. split; [by rewrite Hrun, bool_decide_false by (by intros [])|].
    by repeat split.
Qed.

(** In every state a program reaches, [Insert] with fuel for two turns of
    the list returns. Afterwards the index maps the key to a node at a
    fresh address, which is the first live node and carries the key, the
    value and [visited = false], and a following [Get] of the key returns
    [true] and sets that bit. *)
Theorem Insert_then_Get (s : St) fuel (k : K) (data : V) :
  reachable zeroK nilV s → (2 * size (mem s) ≤ fuel)%nat →
  ∃ s' s'' l',
    run (Insert zeroK fuel k data) s = Returned tt s' ∧
    mem s !! fresh (dom (mem s)) = None ∧
    Nodes s' !! k = Some (fresh (dom (mem s))) ∧
    linked s' (fresh (dom (mem s)) :: l') ∧
    fld key (mem s') (fresh (dom (mem s))) = Some k ∧
    fld value (mem s') (fresh (dom (mem s))) = Some data ∧
    fld visited (mem s') (fresh (dom (mem s))) = Some false ∧
    run (Get k) s' = Returned true s'' ∧
    fld visited (mem s'') (fresh (dom (mem s))) = Some true.
Proof.
  intros Hreach Hfuel. pose proof Hreach as (l & Hl & Hhand & Hidx & Hcap)%reachable_inv.
  assert (∃ s' l',
    run (Insert zeroK fuel k data) s = Returned tt s' ∧
    Nodes s' !! k = Some (fresh (dom (mem s))) ∧
    linked s' (fresh (dom (mem s)) :: l') ∧
    fld key (mem s') (fresh (dom (mem s))) = Some k ∧
    fld value (mem s') (fresh (dom (mem s))) = Some data ∧
    fld visited (mem s') (fresh (dom (mem s))) = Some false)
    as (s' & l' & Hrun & Hk & Hl' & Hkey & Hval & Hvis).
  { destruct (decide (len (Nodes s) = Capacity s)) as [Hfull|Hnf].
    - destruct (hand_ok_start _ _ Hhand (index_ok_nonempty _ _ Hidx Hcap Hfull)) as [c Hc].
      assert (2 * length l ≤ fuel)%nat as Hfuel'.
      { pose proof (linked_length _ _ Hl). lia. }
      destruct (Insert_full_fields s l c fuel k data Hl Hc Hfull Hfuel')
        as (v & kv & l1 & l2 & s' & Hrun & _ & _ & HN & Hl' & _ & Hkey & Hval & Hvis & _).
      exists s', (l1 ++ l2). split; [done|]. split; [by rewrite HN, lookup_insert_eq|].
      by repeat split.
    - destruct (Insert_not_full_run s l fuel k data Hl Hnf) as (h & t & Hh & Ht & Hrun).
      pose proof (λ x, linked_fresh s l h t x Hl Hh Ht) as Hfresh.
      destruct (linked_head_first _ _ _ _ Hl Hh Ht) as (_ & _ & Hf_in & Hhf).
      set (a := fresh (dom (mem s))) in *.
      assert (Hah : a ≠ h) by (apply Hfresh; by left).
      assert (Haf : a ≠ default t (hd_error l)) by (by apply fresh_not_in).
      assert (Hnew : link zeroK a h (default t (hd_error l)) k data (mem s) !! a
                     = Some (mkNode k 0 (Some (default t (hd_error l))) (Some h) data false)).
      { rewrite link_lookup by done. by rewrite decide_True. }
      eexists _, l. split; [exact Hrun|]. cbn [Nodes mem].
      split; [by rewrite lookup_insert_eq|]. split; [by eapply linked_link|].
      unfold fld. rewrite Hnew. by repeat split. }
  assert (Hreach' : reachable zeroK nilV s') by (by eapply reach_insert).
  apply reachable_inv in Hreach' as (l'' & Hinv').
  pose proof (Get_run s' l'' k Hinv') as Hget. rewrite Hk in Hget.
  exists s', (with_mem (alter (set_visited true) (fresh (dom (mem s)))) s'), l'.
  split; [done|]. split; [apply not_elem_of_dom, is_fresh|].
  split; [done|]. split; [done|]. split; [done|]. split; [done|]. split; [done|].
  split; [done|]. cbn [mem with_mem]. apply fld_alter_eq; [|done].
  eapply linked_in_mem; [exact Hl'|]. by left.
Qed.

(** *** Programs that never insert a resident key *)

Lemma reachable_distinct_reachable (s : St) :
  reachable_distinct zeroK nilV s → reachable zeroK nilV s.
Proof.
  induction 1 as [cap s Hnew|s k b s' _ IH Hget|s fuel k data s' _ IH _ Hfuel Hins].
  - by eapply reach_new.
  - by eapply reach_get.
  - by eapply reach_insert.
Qed.

(** The invariant of such programs: the list and the index hold the same
    nodes, and the index is within the capacity. *)
Lemma distinct_inv (s : St) :
  reachable_distinct zeroK nilV s →
  ∃ l, inv s l ∧ indexed s l ∧ length l = size (Nodes s) ∧ len (Nodes s) ≤ Capacity s.
Proof.
  induction 1 as [cap s Hnew|s k b s' _ (l & Hinv & Hix & Hlen & Hle) Hget
                 |s fuel k data s' _ (l & Hinv & Hix & Hlen & Hle) Hk Hfuel Hins].
  - exists []. pose proof (NewSieve_inv _ _ Hnew) as Hinv. split; [done|].
    unfold NewSieve in Hnew. destruct (Z.leb_spec cap 0); [done|]. injection Hnew as <-.
    split; [by intros a Ha%elem_of_nil|]. split; [done|]. unfold len. simpl.
    rewrite map_size_empty. lia.
  - exists l. split; [by eapply Get_inv|].
    rewrite (Get_run _ _ _ Hinv) in Hget.
    destruct (Nodes s !! k) as [a|]; injection Hget as <- <-; [|done].
    split; [|done]. intros x Hx. destruct (Hix x Hx) as (kx & Hkx & Hn).
    exists kx. simpl. by rewrite fld_alter_same.
  - pose proof Hinv as (Hl & Hhand & Hidx & Hcap).
    destruct (Insert_inv _ _ _ _ _ _ Hinv Hfuel Hins) as (l' & Hinv').
    pose proof Hinv' as (Hl' & _).
    destruct (decide (len (Nodes s) = Capacity s)) as [Hfull|Hnf].
    + destruct (hand_ok_start _ _ Hhand (index_ok_nonempty _ _ Hidx Hcap Hfull)) as [c Hc].
      assert (2 * length l ≤ fuel)%nat as Hfuel'.
      { pose proof (linked_length _ _ Hl). lia. }
      destruct (Insert_full_fields s l c fuel k data Hl Hc Hfull Hfuel')
        as (v & kv & l1 & l2 & s1 & Hrun & Heq & Hkv & HN & Hl1 & HC & Hkey & _ & _ & Hold & _).
      rewrite Hrun in Hins. injection Hins as <-.
      pose proof (linked_unique _ _ _ Hl' Hl1) as ->.
      assert (Hv : Nodes s !! kv = Some v).
      { destruct (Hix v) as (kv' & Hkv' & Hn); [rewrite Heq; apply elem_of_app; right; by left|].
        rewrite Hkv in Hkv'. by injection Hkv' as <-. }
      assert (Hkkv : k ≠ kv) by (intros ->; by rewrite Hk in Hv).
      pose proof (linked_NoDup _ _ Hl) as Hnd. rewrite Heq in Hnd.
      exists (fresh (dom (mem s)) :: l1 ++ l2). split; [done|]. split; [|split].
      * intros x [->|Hx]%elem_of_cons.
        { exists k. split; [done|]. by rewrite HN, lookup_insert_eq. }
        destruct (Hold x Hx) as [Hkx _].
        destruct (Hix x) as (kx & Hkx' & Hn).
        { rewrite Heq. apply elem_of_app in Hx as [?|?]; apply elem_of_app;
            [by left|right; by right]. }
        exists kx. split; [by rewrite Hkx|]. rewrite HN.
        assert (x ≠ v) as Hxv.
        { intros ->. apply NoDup_app in Hnd as (_ & Hd & Hnd2).
          apply NoDup_cons in Hnd2 as [Hv2 _].
          apply elem_of_app in Hx as [Hx|Hx]; [apply (Hd _ Hx); by left|done]. }
        rewrite lookup_insert_ne by (intros ->; by rewrite Hk in Hn).
        rewrite lookup_delete_ne by (intros ->; rewrite Hv in Hn; by injection Hn).
        done.
      * rewrite HN, map_size_insert_None by (by rewrite lookup_delete_ne).
        rewrite map_size_delete_Some by eauto. simpl. rewrite Heq in Hlen.
        rewrite !length_app in *. simpl in Hlen. lia.
      * rewrite HC. unfold len in *. rewrite HN.
        rewrite map_size_insert_None by (by rewrite lookup_delete_ne).
        rewrite map_size_delete_Some by eauto.
        assert (size (Nodes s) ≠ 0)%nat; [|lia].
        rewrite <- Hlen, Heq, length_app. simpl. lia.
    + destruct (Insert_not_full_run s l fuel k data Hl Hnf) as (h & t & Hh & Ht & Hrun).
      rewrite Hrun in Hins. injection Hins as <-.
      pose proof (λ x, linked_fresh s l h t x Hl Hh Ht) as Hfresh.
      destruct (linked_head_first _ _ _ _ Hl Hh Ht) as (_ & _ & Hf_in & Hhf).
      set (a := fresh (dom (mem s))) in *.
      assert (Hah : a ≠ h) by (apply Hfresh; by left).
      assert (Haf : a ≠ default t (hd_error l)) by (by apply fresh_not_in).
      assert (Hl1 : linked
        (mkSieve (hand s) (Capacity s) (<[k := a]> (Nodes s)) (FifoQueue s)
                 (link zeroK a h (default t (hd_error l)) k data (mem s))) (a :: l))
        by (by eapply linked_link).
      pose proof (linked_unique _ _ _ Hl' Hl1) as ->.
      exists (a :: l). split; [done|]. cbn [Nodes mem Capacity]. split; [|split].
      * intros x Hx. cbn [Nodes mem]. apply elem_of_cons in Hx as [->|Hx].
        { exists k. unfold fld. rewrite link_lookup by done. rewrite decide_True by done.
          split; [done|]. by rewrite lookup_insert_eq. }
        destruct (Hix x Hx) as (kx & Hkx & Hn). exists kx.
        rewrite link_fld_old; [|done..| |done|done].
        { split; [done|]. rewrite lookup_insert_ne; [done|]. intros ->. by rewrite Hk in Hn. }
        intros ->. apply (Hfresh a); [|done]. right. apply elem_of_app. by left.
      * rewrite map_size_insert_None by done. simpl. lia.
      * unfold len in *. rewrite map_size_insert_None by done. lia.
Qed.

(** [Insert] on a full cache of such a program, key by key. *)
Lemma Insert_full_keys (s : St) fuel k data :
  reachable_distinct zeroK nilV s → len (Nodes s) = Capacity s →
  (2 * size (mem s) ≤ fuel)%nat →
  ∃ l c v kv l1 l2 s',
    linked s l ∧ start_of s l = Some c ∧
    run (Insert zeroK fuel k data) s = Returned tt s' ∧
    l = l1 ++ v :: l2 ∧ Nodes s !! kv = Some v ∧ fld key (mem s) v = Some kv ∧
    Nodes s' = <[k := fresh (dom (mem s))]> (delete kv (Nodes s)) ∧
    linked s' (fresh (dom (mem s)) :: l1 ++ l2) ∧
    ((∃ k2, visited_of s k2 = Some false) → visited_of s kv = Some false) ∧
    ((∀ k2, is_Some (Nodes s !! k2) → visited_of s k2 = Some true) →
     v = c ∧ ∀ k2, is_Some (Nodes s' !! k2) → visited_of s' k2 = Some false) ∧
    (hand s = None ∨ hand s = head (FifoQueue s) → last l = Some c).
Proof.
  intros (l & (Hl & Hhand & Hidx & Hcap) & Hix & Hlen & Hle)%distinct_inv Hfull Hfuel.
  destruct (hand_ok_start _ _ Hhand (index_ok_nonempty _ _ Hidx Hcap Hfull)) as [c Hc].
  assert (2 * length l ≤ fuel)%nat as Hfuel'.
  { pose proof (linked_length _ _ Hl). lia. }
  destruct (Insert_full_run s l c fuel k data Hl Hc Hfull Hfuel')
    as (h & v & kv & l1 & l2 & s' & Hrun & Hh & Heq & Hkv & HN & Hl' & _ & _ & _ & _ & _
        & Hunv & Hall).
  assert (Hv_in : v ∈ l) by (rewrite Heq; apply elem_of_app; right; by left).
  assert (Hnv : Nodes s !! kv = Some v).
  { destruct (Hix v Hv_in) as (kv' & Hkv' & Hn). rewrite Hkv in Hkv'. by injection Hkv' as <-. }
  exists l, c, v, kv, l1, l2, s'. repeat (split; [done|]).
  split; [|split].
  - intros (k2 & Hk2). unfold visited_of in *. rewrite Hnv. simpl.
    destruct (Nodes s !! k2) as [a2|] eqn:Ha2; [|done]. simpl in Hk2.
    apply Hunv. exists a2. split; [by destruct (Hidx _ _ Ha2)|done].
  - intros Hallk.
    assert (Hall' : ∀ a, a ∈ l → fld visited (mem s) a = Some true).
    { intros a Ha. destruct (Hix a Ha) as (ka & _ & Hn).
      specialize (Hallk ka). unfold visited_of in Hallk. rewrite Hn in Hallk.
      apply Hallk. by eexists. }
    destruct (Hall Hall') as [-> Hclr]. split; [done|].
    intros k2 [a2 Ha2]. unfold visited_of. rewrite Ha2. simpl. apply Hclr.
    rewrite HN in Ha2. destruct (decide (k2 = k)) as [->|Hne].
    + rewrite lookup_insert_eq in Ha2. injection Ha2 as <-. by left.
    + rewrite lookup_insert_ne in Ha2 by done.
      destruct (decide (k2 = kv)) as [->|Hne2]; [by rewrite lookup_delete_eq in Ha2|].
      rewrite lookup_delete_ne in Ha2 by done.
      destruct (Hidx _ _ Ha2) as [Hin Hk2]. right.
      rewrite Heq in Hin. apply elem_of_app in Hin as [?|[->|?]%elem_of_cons].
      * apply elem_of_app. by left.
      * rewrite Hkv in Hk2. by injection Hk2 as ->.
      * apply elem_of_app. by right.
  - unfold start_of in Hc. intros [Hn|Hn]; rewrite Hn in Hc; [done|].
    rewrite Hh in Hc. by rewrite decide_True in Hc.
Qed.

(** A program that never inserts a resident key keeps the index within
    the capacity, and the index and the list agree: they have the same
    number of entries, every entry of the index points at a live node
    with its key, and every live node is indexed under its key. *)
Theorem distinct_inserts_respect_capacity (s : St) :
  reachable_distinct zeroK nilV s →
  ∃ l, linked s l ∧
       len (Nodes s) ≤ Capacity s ∧
       length l = size (Nodes s) ∧
       (∀ k a, Nodes s !! k = Some a → a ∈ l ∧ fld key (mem s) a = Some k) ∧
       (∀ a, a ∈ l → ∃ k, fld key (mem s) a = Some k ∧ Nodes s !! k = Some a) ∧
       (IsEmpty s = true ↔ l = []).
Proof.
  intros (l & (Hl & _ & Hidx & _) & Hix & Hlen & Hle)%distinct_inv.
  exists l. split; [done|]. split; [done|]. split; [done|]. split; [exact Hidx|].
  split; [exact Hix|]. unfold IsEmpty, len. rewrite <- Hlen.
  rewrite Z.eqb_eq. destruct l; simpl; split; (done || lia).
Qed.

(** Second chance. In a full cache of such a program, if some resident
    key has its visited bit clear, [Insert] of a new key does not evict a
    key whose bit is set: that key stays indexed at the same node, and
    the index keeps its size. *)
Theorem visited_key_survives_eviction (s : St) fuel (k : K) (data : V) k1 a1 k2 a2 :
  reachable_distinct zeroK nilV s →
  len (Nodes s) = Capacity s → (2 * size (mem s) ≤ fuel)%nat →
  Nodes s !! k = None →
  Nodes s !! k1 = Some a1 → fld visited (mem s) a1 = Some true →
  Nodes s !! k2 = Some a2 → fld visited (mem s) a2 = Some false →
  ∃ s', run (Insert zeroK fuel k data) s = Returned tt s' ∧
        Nodes s' !! k1 = Some a1 ∧
        Nodes s' !! k = Some (fresh (dom (mem s))) ∧
        size (Nodes s') = size (Nodes s).
Proof.
  intros (l & (Hl & Hhand & Hidx & Hcap) & Hix & Hlen & Hle)%distinct_inv
         Hfull Hfuel Hk Hk1 Hv1 Hk2 Hv2.
  destruct (hand_ok_start _ _ Hhand (index_ok_nonempty _ _ Hidx Hcap Hfull)) as [c Hc].
  assert (2 * length l ≤ fuel)%nat as Hfuel'.
  { pose proof (linked_length _ _ Hl). lia. }
  destruct (Insert_full_fields s l c fuel k data Hl Hc Hfull Hfuel')
    as (v & kv & l1 & l2 & s' & Hrun & Heq & Hkv & HN & _ & _ & _ & _ & _ & _ & Hunv).
  assert (Hv : fld visited (mem s) v = Some false).
  { apply Hunv. exists a2. split; [|done]. by destruct (Hidx _ _ Hk2). }
  assert (Hnv : Nodes s !! kv = Some v).
  { destruct (Hix v) as (kv' & Hkv' & Hn); [rewrite Heq; apply elem_of_app; right; by left|].
    rewrite Hkv in Hkv'. by injection Hkv' as <-. }
  exists s'. split; [done|]. rewrite HN.
  assert (k1 ≠ kv).
  { intros ->. rewrite Hnv in Hk1. injection Hk1 as ->. rewrite Hv in Hv1. done. }
  assert (k ≠ k1) by (intros ->; by rewrite Hk in Hk1).
  assert (k ≠ kv) by (intros ->; by rewrite Hk in Hnv).
  split; [by rewrite lookup_insert_ne, lookup_delete_ne|].
  split; [by rewrite lookup_insert_eq|].
  rewrite map_size_insert_None by (by rewrite lookup_delete_ne).
  rewrite map_size_delete_Some by eauto.
  assert (size (Nodes s) ≠ 0)%nat; [|lia].
  intros Hz. apply map_size_empty_inv in Hz. by rewrite Hz in Hk1.
Qed.

End Proofs.

Import SieveScenarios Spec.

Lemma trace_reachable ops : ∀ s : sieve,
  reachable "" None s → trace_ok s ops = true →
  reachable "" None (foldl (λ s op, after s (run (sieve_step op) s)) s ops).
Proof.
  induction ops as [|op ops IH]; intros s Hs Hok; [done|].
  cbn [foldl trace_ok] in *.
  apply andb_true_iff in Hok as [Hok Hrest]. apply andb_true_iff in Hok as [Hfuel Hret].
  apply Nat.leb_le in Hfuel.
  apply IH; [|done]. clear IH Hrest.
  destruct (run (sieve_step op) s) as [[] s'| |] eqn:Hrun; try done.
  change (reachable "" None s').
  destruct op as [k v|k]; cbn [sieve_step] in Hrun.
  - by eapply reach_insert.
  - apply run_bind_inv in Hrun as (b & s1 & Hget & Hret').
    injection Hret' as <-. by eapply reach_get.
Qed.

Lemma sieve_after_reachable cap ops :
  0 < cap → trace_ok (sieve_new cap) ops = true →
  reachable "" None (sieve_after cap ops).
Proof.
  intros Hcap Hok. apply trace_reachable; [|done].
  apply (reach_new _ _ cap). unfold sieve_new, NewSieve.
  destruct (Z.leb_spec cap 0); [lia|done].
Qed.

Lemma trace_reachable_distinct ops : ∀ s : sieve,
  reachable_distinct "" None s → trace_distinct s ops = true →
  reachable_distinct "" None (foldl (λ s op, after s (run (sieve_step op) s)) s ops).
Proof.
  induction ops as [|op ops IH]; intros s Hs Hok; [done|].
  cbn [foldl trace_distinct] in *.
  apply andb_true_iff in Hok as [Hok Hrest]. apply andb_true_iff in Hok as [Hok Hret].
  apply andb_true_iff in Hok as [Hnew Hfuel].
  apply Nat.leb_le in Hfuel.
  apply IH; [|done]. clear IH Hrest.
  destruct (run (sieve_step op) s) as [[] s'| |] eqn:Hrun; try done.
  change (reachable_distinct "" None s').
  destruct op as [k v|k]; cbn [sieve_step] in Hrun.
  - apply bool_decide_eq_true in Hnew. by eapply distinct_insert.
  - apply run_bind_inv in Hrun as (b & s1 & Hget & Hret').
    injection Hret' as <-. by eapply distinct_get.
Qed.

Lemma sieve_after_reachable_distinct cap ops :
  0 < cap → trace_distinct (sieve_new cap) ops = true →
  reachable_distinct "" None (sieve_after cap ops).
Proof.
  intros Hcap Hok. apply trace_reachable_distinct; [|done].
  apply (distinct_new _ _ cap). unfold sieve_new, NewSieve.
  destruct (Z.leb_spec cap 0); [lia|done].
Qed.

(** C2, amended. In every full cache of a program that has never
    inserted a resident key, [Insert] returns and removes from the index
    one resident key, the key of the node it unlinks. That key was
    unvisited when the sweep started whenever some resident key was
    unvisited; when every resident key was visited, every bit is cleared
    and the key removed is the one the sweep started at, which is the
    oldest resident, the one next to [TAIL], when the hand is unset or on
    [HEAD]. With capacity 2, insert a, insert b, get a, get b, insert c
    leaves exactly b and c resident. *)
Theorem Insert_on_full_cache_sweeps :
  (∀ (K : Type) `(Countable K) (V : Type) (zeroK : K) (nilV : V)
     (s : Sieve.Sieve (K:=K) (V:=V)) fuel k data,
     reachable_distinct zeroK nilV s → len (Nodes s) = Capacity s →
     (2 * size (mem s) ≤ fuel)%nat →
     ∃ l c v kv l1 l2 s',
       linked s l ∧ start_of s l = Some c ∧
       run (Insert zeroK fuel k data) s = Returned tt s' ∧
       l = l1 ++ v :: l2 ∧ Nodes s !! kv = Some v ∧ fld key (mem s) v = Some kv ∧
       Nodes s' = <[k := fresh (dom (mem s))]> (delete kv (Nodes s)) ∧
       linked s' (fresh (dom (mem s)) :: l1 ++ l2) ∧
       ((∃ k2, visited_of s k2 = Some false) → visited_of s kv = Some false) ∧
       ((∀ k2, is_Some (Nodes s !! k2) → visited_of s k2 = Some true) →
        v = c ∧ ∀ k2, is_Some (Nodes s' !! k2) → visited_of s' k2 = Some false) ∧
       (hand s = None ∨ hand s = head (FifoQueue s) → last l = Some c)) ∧
  (trace_distinct (sieve_new 2)
            [SInsert "a" 1; SInsert "b" 2; SGet "a"; SGet "b"; SInsert "c" 3] = true ∧
   sieve_list sieve_ab_visited = [(Some "b", Some true); (Some "a", Some true)] ∧
   resident (after sieve_ab_visited (run (sieve_step (SInsert "c" 3)) sieve_ab_visited))
     = {["b"; "c"]} ∧
   sieve_list (after sieve_ab_visited (run (sieve_step (SInsert "c" 3)) sieve_ab_visited))
     = [(Some "c", Some false); (Some "b", Some false)]).
Proof.
  split.
  - intros K ? ? V zeroK nilV s fuel k data. apply Insert_full_keys.
  - repeat split; vm_compute; reflexivity.
Qed.

Lemma Insert_on_full_cache_sweeps_witness :
  len (Nodes sieve_ab_visited) = Capacity sieve_ab_visited ∧
  (2 * size (mem sieve_ab_visited) ≤ 64)%nat ∧
  ∃ l c v kv l1 l2 s',
    linked sieve_ab_visited l ∧ start_of sieve_ab_visited l = Some c ∧
    run (Insert "" 64 "c" (Some 3)) sieve_ab_visited = Returned tt s' ∧
    l = l1 ++ v :: l2 ∧ Nodes sieve_ab_visited !! kv = Some v ∧
    fld key (mem sieve_ab_visited) v = Some kv ∧
    Nodes s' = <["c" := fresh (dom (mem sieve_ab_visited))]>
                 (delete kv (Nodes sieve_ab_visited)) ∧
    linked s' (fresh (dom (mem sieve_ab_visited)) :: l1 ++ l2) ∧
    ((∃ k2, visited_of sieve_ab_visited k2 = Some false) →
     visited_of sieve_ab_visited kv = Some false) ∧
    ((∀ k2, is_Some (Nodes sieve_ab_visited !! k2) →
            visited_of sieve_ab_visited k2 = Some true) →
     v = c ∧ ∀ k2, is_Some (Nodes s' !! k2) → visited_of s' k2 = Some false) ∧
    (hand sieve_ab_visited = None ∨
     hand sieve_ab_visited = head (FifoQueue sieve_ab_visited) → last l = Some c).
Proof.
  assert (H1 : reachable_distinct "" None sieve_ab_visited).
  { apply sieve_after_reachable_distinct; [lia | vm_compute; reflexivity]. }
  assert (H2 : len (Nodes sieve_ab_visited) = Capacity sieve_ab_visited).
  { vm_compute. reflexivity. }
  assert (H3 : (2 * size (mem sieve_ab_visited) ≤ 64)%nat).
  { apply Nat.leb_le. vm_compute. reflexivity. }
  split; [exact H2|]. split; [exact H3|].
  exact (proj1 Insert_on_full_cache_sweeps string _ _ (option Z) "" None
           sieve_ab_visited 64%nat "c" (Some 3) H1 H2 H3).
Defined.

(** The claim of C2 as stated fails twice, with capacity 3.

    When every resident is visited, the victim is not the oldest
    resident but the one the hand is on. After insert a, b, c, get a,
    insert d (which evicts b and leaves the hand on c), get a, get c and
    get d mark every resident. The call insert e returns, clears the
    three bits and evicts d: the oldest resident a stays. No key has been
    inserted twice.

    When a resident key has been inserted again, the key removed is not
    an unvisited one. After insert a, insert a, insert b, insert c and
    get a the index is full with a, b and c; a is visited, b and c are
    not. The call insert d returns and unlinks the older node of a, so
    the visited key a leaves the index and the unvisited b and c
    stay. *)
Lemma Insert_on_full_cache_claim_fails :
  (trace_distinct (sieve_new 3) (sieve_hand_on_c ++ [SInsert "e" 5]) = true ∧
   sieve_list (sieve_after 3 sieve_hand_on_c)
     = [(Some "d", Some true); (Some "c", Some true); (Some "a", Some true)] ∧
   len (Nodes (sieve_after 3 sieve_hand_on_c)) = Capacity (sieve_after 3 sieve_hand_on_c) ∧
   resident (sieve_after 3 (sieve_hand_on_c ++ [SInsert "e" 5])) = {["a"; "c"; "e"]} ∧
   sieve_list (sieve_after 3 (sieve_hand_on_c ++ [SInsert "e" 5]))
     = [(Some "e", Some false); (Some "c", Some false); (Some "a", Some false)]) ∧
  (trace_ok (sieve_new 3) (sieve_a_again_marked ++ [SInsert "d" 5]) = true ∧
   trace_distinct (sieve_new 3) sieve_a_again_marked = false ∧
   len (Nodes (sieve_after 3 sieve_a_again_marked))
     = Capacity (sieve_after 3 sieve_a_again_marked) ∧
   resident (sieve_after 3 sieve_a_again_marked) = {["a"; "b"; "c"]} ∧
   visited_of (sieve_after 3 sieve_a_again_marked) "a" = Some true ∧
   visited_of (sieve_after 3 sieve_a_again_marked) "b" = Some false ∧
   visited_of (sieve_after 3 sieve_a_again_marked) "c" = Some false ∧
   resident (sieve_after 3 (sieve_a_again_marked ++ [SInsert "d" 5])) = {["b"; "c"; "d"]}).
Proof. repeat split; vm_compute; reflexivity. Qed.

Lemma Insert_resident_key_links_second_node_witness :
  Nodes sieve_a_visited !! "a" = Some 2%nat ∧
  len (Nodes sieve_a_visited) < Capacity sieve_a_visited ∧
  ∃ l s',
    linked sieve_a_visited l ∧ 2%nat ∈ l ∧
    run (Insert "" 64 "a" (Some 7)) sieve_a_visited = Returned tt s' ∧
    mem sieve_a_visited !! fresh (dom (mem sieve_a_visited)) = None ∧
    fresh (dom (mem sieve_a_visited)) ≠ 2%nat ∧
    linked s' (fresh (dom (mem sieve_a_visited)) :: l) ∧
    Nodes s' = <["a" := fresh (dom (mem sieve_a_visited))]> (Nodes sieve_a_visited) ∧
    fld key (mem s') (fresh (dom (mem sieve_a_visited))) = Some "a" ∧
    fld value (mem s') (fresh (dom (mem sieve_a_visited))) = Some (Some 7) ∧
    fld visited (mem s') (fresh (dom (mem sieve_a_visited))) = Some false ∧
    fld key (mem s') 2%nat = Some "a" ∧
    fld value (mem s') 2%nat = fld value (mem sieve_a_visited) 2%nat ∧
    fld visited (mem s') 2%nat = fld visited (mem sieve_a_visited) 2%nat ∧
    size (Nodes s') = size (Nodes sieve_a_visited) ∧
    (size (Nodes s') < length (fresh (dom (mem sieve_a_visited)) :: l))%nat.
Proof.
  assert (H1 : reachable "" None sieve_a_visited).
  { apply sieve_after_reachable; [lia | vm_compute; reflexivity]. }
  assert (H2 : Nodes sieve_a_visited !! "a" = Some 2%nat).
  { vm_compute. reflexivity. }
  assert (H3 : len (Nodes sieve_a_visited) < Capacity sieve_a_visited).
  { vm_compute. reflexivity. }
  split; [exact H2|]. split; [exact H3|].
  exact (Insert_resident_key_links_second_node "" None
           sieve_a_visited 64%nat "a" (Some 7) 2%nat H1 H2 H3).
Defined.

Lemma NewSieve_gives_empty_cache_witness :
  ∃ s : sieve, NewSieve "" None 2 = Returned s s ∧
    linked s [] ∧ Nodes s = ∅ ∧ IsEmpty s = true ∧ hand s = None ∧ Capacity s = 2.
Proof.
  apply (proj2 (NewSieve_gives_empty_cache (K:=string) (V:=option Z) "" None 2)). lia.
Defined.

Lemma reachable_cache_is_well_formed_witness :
  ∃ l, linked sieve_ab_visited l ∧
       (∀ k a, Nodes sieve_ab_visited !! k = Some a →
               a ∈ l ∧ fld key (mem sieve_ab_visited) a = Some k) ∧
       (∀ x, hand sieve_ab_visited = Some x →
             Some x = head (FifoQueue sieve_ab_visited) ∨ (x ∈ l ∧ hd_error l ≠ Some x)) ∧
       0 < Capacity sieve_ab_visited ∧
       (size (Nodes sieve_ab_visited) ≤ length l)%nat.
Proof.
  apply (reachable_cache_is_well_formed "" None sieve_ab_visited).
  apply sieve_after_reachable; [lia | vm_compute; reflexivity].
Defined.

Lemma Get_marks_only_its_node_witness :
  ∃ l s',
    linked sieve_a_visited l ∧
    run (Get "a") sieve_a_visited
      = Returned (bool_decide (is_Some (Nodes sieve_a_visited !! "a"))) s' ∧
    Nodes s' = Nodes sieve_a_visited ∧ hand s' = hand sieve_a_visited ∧
    Capacity s' = Capacity sieve_a_visited ∧
    FifoQueue s' = FifoQueue sieve_a_visited ∧ linked s' l ∧
    (Nodes sieve_a_visited !! "a" = None → s' = sieve_a_visited) ∧
    (∀ a, Nodes sieve_a_visited !! "a" = Some a →
          a ∈ l ∧ fld visited (mem s') a = Some true ∧
          fld key (mem s') a = Some "a" ∧
          fld value (mem s') a = fld value (mem sieve_a_visited) a ∧
          ∀ x, x ≠ a → mem s' !! x = mem sieve_a_visited !! x).
Proof.
  apply (Get_marks_only_its_node "" None sieve_a_visited "a").
  apply sieve_after_reachable; [lia | vm_compute; reflexivity].
Defined.

Lemma Insert_then_Get_witness :
  (2 * size (mem sieve_ab_visited) ≤ 64)%nat ∧
  ∃ s' s'' l',
    run (Insert "" 64 "c" (Some 3)) sieve_ab_visited = Returned tt s' ∧
    mem sieve_ab_visited !! fresh (dom (mem sieve_ab_visited)) = None ∧
    Nodes s' !! "c" = Some (fresh (dom (mem sieve_ab_visited))) ∧
    linked s' (fresh (dom (mem sieve_ab_visited)) :: l') ∧
    fld key (mem s') (fresh (dom (mem sieve_ab_visited))) = Some "c" ∧
    fld value (mem s') (fresh (dom (mem sieve_ab_visited))) = Some (Some 3) ∧
    fld visited (mem s') (fresh (dom (mem sieve_ab_visited))) = Some false ∧
    run (Get "c") s' = Returned true s'' ∧
    fld visited (mem s'') (fresh (dom (mem sieve_ab_visited))) = Some true.
Proof.
  assert (H3 : (2 * size (mem sieve_ab_visited) ≤ 64)%nat).
  { apply Nat.leb_le. vm_compute. reflexivity. }
  split; [exact H3|].
  apply (Insert_then_Get "" None sieve_ab_visited 64%nat "c" (Some 3)); [|exact H3].
  apply sieve_after_reachable; [lia | vm_compute; reflexivity].
Defined.

Lemma distinct_inserts_respect_capacity_witness :
  ∃ l, linked sieve_a_marked l ∧
       len (Nodes sieve_a_marked) ≤ Capacity sieve_a_marked ∧
       length l = size (Nodes sieve_a_marked) ∧
       (∀ k a, Nodes sieve_a_marked !! k = Some a →
               a ∈ l ∧ fld key (mem sieve_a_marked) a = Some k) ∧
       (∀ a, a ∈ l → ∃ k, fld key (mem sieve_a_marked) a = Some k ∧
                          Nodes sieve_a_marked !! k = Some a) ∧
       (IsEmpty sieve_a_marked = true ↔ l = []).
Proof.
  apply (distinct_inserts_respect_capacity "" None sieve_a_marked).
  apply sieve_after_reachable_distinct; [lia | vm_compute; reflexivity].
Defined.

Lemma visited_key_survives_eviction_witness :
  len (Nodes sieve_a_marked) = Capacity sieve_a_marked ∧
  Nodes sieve_a_marked !! "c" = None ∧
  Nodes sieve_a_marked !! "a" = Some 2%nat ∧
  fld visited (mem sieve_a_marked) 2%nat = Some true ∧
  Nodes sieve_a_marked !! "b" = Some 3%nat ∧
  fld visited (mem sieve_a_marked) 3%nat = Some false ∧
  ∃ s', run (Insert "" 64 "c" (Some 3)) sieve_a_marked = Returned tt s' ∧
        Nodes s' !! "a" = Some 2%nat ∧
        Nodes s' !! "c" = Some (fresh (dom (mem sieve_a_marked))) ∧
        size (Nodes s') = size (Nodes sieve_a_marked).
Proof.
  assert (H1 : len (Nodes sieve_a_marked) = Capacity sieve_a_marked)
    by (vm_compute; reflexivity).
  assert (H2 : Nodes sieve_a_marked !! "c" = None) by (vm_compute; reflexivity).
  assert (H3 : Nodes sieve_a_marked !! "a" = Some 2%nat) by (vm_compute; reflexivity).
  assert (H4 : fld visited (mem sieve_a_marked) 2%nat = Some true)
    by (vm_compute; reflexivity).
  assert (H5 : Nodes sieve_a_marked !! "b" = Some 3%nat) by (vm_compute; reflexivity).
  assert (H6 : fld visited (mem sieve_a_marked) 3%nat = Some false)
    by (vm_compute; reflexivity).
  do 6 (split; [assumption|]).
  apply (visited_key_survives_eviction "" None sieve_a_marked 64%nat "c" (Some 3)
           "a" 2%nat "b" 3%nat); try assumption.
  - apply sieve_after_reachable_distinct; [lia | vm_compute; reflexivity].
  - apply Nat.leb_le. vm_compute. reflexivity.
Defined.

End SieveProofs.

(** ** The capacity bound *)

Module CapacityProofs.
Import SieveScenarios.

(** C1 fails on the code, for SIEVE and for LRU-K. SIEVE with capacity 2:
    insert a twice, then b, c, d, e and f. Every call returns; the second
    insert of a leaves a stale node, whose eviction deletes no index
    entry, and the index ends with the three keys c, e and f. LRU-K with
    K = 2, capacity 1 and CRP = 10: set(a) at 100 and set(b) at 101 both
    return [true]; [FindVictim] gives the zero key because a is inside
    its correlated period, nothing is deleted, and the buffer ends with
    the two keys a and b. *)
Theorem resident_count_exceeds_capacity :
  (trace_ok (sieve_new 2) sieve_twice_a = true ∧
   Sieve.Capacity (sieve_after 2 sieve_twice_a) = 2 ∧
   resident (sieve_after 2 sieve_twice_a) = {["c"; "e"; "f"]} ∧
   len (Sieve.Nodes (sieve_after 2 sieve_twice_a)) = 3) ∧
  (lruk_ok (LRUK.NewLRU 2 1 10) [(100, "a"); (101, "b")] = true ∧
   LRUK.Cap lruk_two_sets = 1 ∧
   dom (LRUK.Buffer lruk_two_sets) = {["a"; "b"]} ∧
   len (LRUK.Buffer lruk_two_sets) = 2).
Proof. repeat split; vm_compute; reflexivity. Qed.

End CapacityProofs.

(** ** LRU-K, the earlier version *)

Module LRUK0Proofs.
Import LRUK0.

Section Proofs.
Context {T : Type} `{Countable T}.
Variable zeroT : T.
Variable range_order : gmap T LRUK.bytes → list T.

(** On a cache whose [Buffer] is nil, as [NewLRU] of this version leaves
    it, [Set] stores nothing: with a positive capacity it panics on the
    write to the nil map, and otherwise it returns [true]; the cache is
    unchanged in both cases. *)
Theorem Set_on_nil_buffer (s : LRU_K (T:=T)) t key data :
  Buffer s = None →
  (0 < Cap s →
   run (Set_ zeroT range_order t key data) s
     = Panicked "assignment to entry in nil map" s) ∧
  (Cap s ≤ 0 → run (Set_ zeroT range_order t key data) s = Returned true s).
Proof.
  intros Hb. unfold Set_. go. unfold id.
  replace (buffer_lookup s key) with (@None LRUK.bytes)
    by (unfold buffer_lookup; by rewrite Hb).
  replace (buffer_len s) with 0 by (unfold buffer_len; by rewrite Hb).
  split; intros Hcap.
  - gos. destruct (Z.ltb_spec 0 (Cap s)); [|lia].
    unfold buffer_assign. gos. rewrite Hb. by go.
  - gos. destruct (Z.ltb_spec 0 (Cap s)); [lia|].
    unfold FindVictim. gos. rewrite Hb. cbn [FindVictim_loop]. gos.
    unfold buffer_delete. gos. rewrite Hb. destruct s. simpl in *. by subst.
Qed.

(** With a [Buffer] made by the caller, [Set] of a new key while there
    is room stores the bytes and returns [true], and writes neither
    [LAST] nor [HIST]; every later [Set] of that key then panics with
    "key not present", because the resident branch starts by reading
    [LAST]. *)
Theorem Set_twice_panics (s : LRU_K (T:=T)) m t key data :
  Buffer s = Some m → m !! key = None → len m < Cap s → LAST s !! key = None →
  run (Set_ zeroT range_order t key data) s
    = Returned true (with_Buffer (Some (<[key := data]> m)) s) ∧
  ∀ t' data',
    run (Set_ zeroT range_order t' key data') (with_Buffer (Some (<[key := data]> m)) s)
      = Panicked "key not present" (with_Buffer (Some (<[key := data]> m)) s).
Proof.
  intros Hb Hk Hroom Hlast. split.
  - unfold Set_. go. unfold id.
    replace (buffer_lookup s key) with (@None LRUK.bytes)
      by (unfold buffer_lookup; rewrite Hb; simpl; by rewrite Hk).
    replace (buffer_len s) with (len m) by (unfold buffer_len; by rewrite Hb).
    gos. destruct (Z.ltb_spec (len m) (Cap s)); [|lia].
    unfold buffer_assign. gos. rewrite Hb. by gos.
  - intros t' data'. unfold Set_. go. unfold id.
    replace (buffer_lookup (with_Buffer (Some (<[key := data]> m)) s) key)
      with (Some data) by (unfold buffer_lookup; simpl; by rewrite lookup_insert_eq).
    unfold Last_Get. gos. cbn [LAST with_Buffer]. rewrite Hlast. by gos.
Qed.

End Proofs.

Lemma Set_on_nil_buffer_witness :
  (0 < Cap (NewLRU (T:=string) 2 2 1) →
   run (Set_ "" map_keys 100 "a" []) (NewLRU 2 2 1)
     = Panicked "assignment to entry in nil map" (NewLRU 2 2 1)) ∧
  (Cap (NewLRU (T:=string) 2 2 1) ≤ 0 →
   run (Set_ "" map_keys 100 "a" []) (NewLRU 2 2 1) = Returned true (NewLRU 2 2 1)).
Proof.
  apply (Set_on_nil_buffer "" map_keys (NewLRU 2 2 1) 100 "a" []). reflexivity.
Defined.

Lemma Set_twice_panics_witness :
  run (Set_ "" map_keys 100 "a" []) (with_Buffer (Some ∅) (NewLRU 2 2 1))
    = Returned true (with_Buffer (Some (<["a" := []]> ∅)) (with_Buffer (Some ∅) (NewLRU 2 2 1))) ∧
  ∀ t' data',
    run (Set_ "" map_keys t' "a" data')
        (with_Buffer (Some (<["a" := []]> ∅)) (with_Buffer (Some ∅) (NewLRU 2 2 1)))
      = Panicked "key not present"
          (with_Buffer (Some (<["a" := []]> ∅)) (with_Buffer (Some ∅) (NewLRU 2 2 1))).
Proof.
  apply (Set_twice_panics "" map_keys (with_Buffer (Some ∅) (NewLRU 2 2 1)) ∅ 100 "a" []).
  - reflexivity.
  - reflexivity.
  - vm_compute. reflexivity.
  - reflexivity.
Defined.

End LRUK0Proofs.
